(** * A five-stage MIPS pipeline simulator: decoder, hazard analysis, clock

    Shallow embedding of [src/context/SimulationContext.tsx]:
    [parseInstruction], [detectHazards], [calculatePrecedingStalls],
    [calculateNextState] and the state updates of the provider
    ([startSimulation], [resetSimulation], [pauseSimulation],
    [resumeSimulation], [setForwardingEnabled]).

    JavaScript numbers are integers throughout this code and are modelled
    by [Z]; array indices and the keys of [Record<number, _>] objects are
    [nat]; a [Record<number, T>] is a [gmap nat T]; arrays are lists. *)

From Stdlib Require Import ZArith Ascii String List Lia.
From stdpp Require Import base option list gmap strings pretty.

Local Open Scope Z_scope.

(** ** Data model *)

Inductive StageName := IF_ | ID | EX | MEM | WB.
Inductive InstructionType := R | I | J.
Inductive HazardType := RAW | WAW | NONE.

#[global] Instance StageName_eq_dec : EqDecision StageName.
Proof. solve_decision. Defined.
#[global] Instance InstructionType_eq_dec : EqDecision InstructionType.
Proof. solve_decision. Defined.
#[global] Instance HazardType_eq_dec : EqDecision HazardType.
Proof. solve_decision. Defined.

Definition STAGE_NAMES : list StageName := [IF_; ID; EX; MEM; WB].
Definition DEFAULT_STAGE_COUNT : Z := Z.of_nat (length STAGE_NAMES).

Record RegisterUsage := {
  rs : Z;
  rt : Z;
  rd : Z;
  opcode : Z;
  funct : Z;
  type : InstructionType
}.

(** ** Strings of digits

    The pieces of the JavaScript standard library that [parseInstruction]
    calls, on the inputs it calls them with. *)

(** The value of one hexadecimal digit, [None] for any other character. *)
Definition hexDigit (c : ascii) : option Z :=
  let n := Z.of_N (N_of_ascii c) in
  if (48 <=? n) && (n <=? 57) then Some (n - 48)
  else if (65 <=? n) && (n <=? 70) then Some (n - 55)
  else if (97 <=? n) && (n <=? 102) then Some (n - 87)
  else None.

Fixpoint parseHexDigits (acc : Z) (s : string) : option Z :=
  match s with
  | EmptyString => Some acc
  | String c s' => d ← hexDigit c; parseHexDigits (16 * acc + d) s'
  end.

(** [parseInt(s, 16)] on the strings the instruction form lets through
    ([HEX_REGEX = /^[0-9a-fA-F]{8}$/]): eight hexadecimal digits, whose value
    is below [2^32] and so an exact JavaScript number.  [None] marks a string
    outside that format; such input never reaches the simulator. *)
Definition parseInt16 (s : string) : option Z :=
  if Nat.eqb (String.length s) 8 then parseHexDigits 0 s else None.

(** [n.toString(2)] for an integer [n]. *)
Fixpoint pos_toString2 (p : positive) : string :=
  match p with
  | xH => "1"
  | xO p' => pos_toString2 p' +:+ "0"
  | xI p' => pos_toString2 p' +:+ "1"
  end.

Definition toString2 (n : Z) : string :=
  match n with
  | Z0 => "0"
  | Zpos p => pos_toString2 p
  | Zneg p => "-" +:+ pos_toString2 p
  end.

Fixpoint repeatChar (k : nat) (c : ascii) : string :=
  match k with
  | O => EmptyString
  | S k' => String c (repeatChar k' c)
  end.

(** [s.padStart(targetLength, c)] for a one-character pad string. *)
Definition padStart (targetLength : nat) (c : ascii) (s : string) : string :=
  repeatChar (targetLength - String.length s) c +:+ s.

(** [s.substring(a, b)] for [a <= b]. *)
Definition substring (a b : nat) (s : string) : string :=
  String.substring a (b - a) s.

(** [parseInt(s, 2)]: the value of the leading binary digits of [s].  The
    strings parsed below are non-empty runs of binary digits, so the [NaN]
    of a string with no leading digit is not represented. *)
Fixpoint parseBinDigits (acc : Z) (s : string) : Z :=
  match s with
  | EmptyString => acc
  | String c s' =>
      if Ascii.eqb c "0" then parseBinDigits (2 * acc) s'
      else if Ascii.eqb c "1" then parseBinDigits (2 * acc + 1) s'
      else acc
  end.

Definition parseInt2 (s : string) : Z := parseBinDigits 0 s.

(** ** The instruction decoder *)

(** [parseInstruction] from the number [parseInt(hexInstruction, 16)] on:
    the 32-character binary string, the fields cut out of it, and the
    classification by opcode. *)
Definition parseWord (word : Z) : RegisterUsage :=
  let binary := padStart 32 "0" (toString2 word) in
  let opcode := parseInt2 (substring 0 6 binary) in
  let rs := parseInt2 (substring 6 11 binary) in
  let rt := parseInt2 (substring 11 16 binary) in
  if opcode =? 0 then
    {| rs := rs; rt := rt;
       rd := parseInt2 (substring 16 21 binary);
       opcode := opcode;
       funct := parseInt2 (substring 26 32 binary);
       type := R |}
  else if (opcode =? 2) || (opcode =? 3) then
    {| rs := rs; rt := rt;
       rd := if opcode =? 3 then 31 else 0;
       opcode := opcode; funct := 0; type := J |}
  else
    {| rs := rs; rt := rt;
       rd := if (opcode >=? 32) && (opcode <=? 37) then rt
             else if (opcode >=? 8) && (opcode <=? 15) then rt
             else 0;
       opcode := opcode; funct := 0; type := I |}.

Definition parseInstruction (hexInstruction : string) : option RegisterUsage :=
  word ← parseInt16 hexInstruction; Some (parseWord word).

(** The bit field [hi:lo] of a word, as the specification numbers bits. *)
Definition bitfield (word : Z) (hi lo : Z) : Z :=
  Z.land (Z.shiftr word lo) (Z.ones (hi - lo + 1)).

(** ** The hazard analyser *)

(** The field [type] of the source's [HazardInfo] is [hazard_type] here:
    [RegisterUsage] already has a projection [type]. *)
Record HazardInfo := {
  hazard_type : HazardType;
  description : string;
  canForward : bool;
  stallCycles : Z
}.

Record ForwardingInfo := {
  from : nat;
  to : nat;
  fromStage : StageName;
  toStage : StageName;
  register : string
}.

(** One entry of the local array [rawHazards]. *)
Record RawHazard := {
  sourceReg : string;
  regNum : Z;
  fromInst : nat;
  distance : Z
}.

(** The three locals the look-back loop for RAW hazards updates. *)
Record RawScan := {
  rawHazards : list RawHazard;
  maxStallCycles : Z;
  hazardDescription : string
}.

Definition noHazard : HazardInfo :=
  {| hazard_type := NONE; description := "No hazard";
     canForward := false; stallCycles := 0 |}.

(** A [for] loop over the indices [ks] whose body can throw: reading a
    property of [registerUsage[k]] when that entry is undefined is a
    [TypeError], modelled by [None]. *)
Fixpoint forLoop {S : Type} (body : nat → S → option S) (ks : list nat)
    (st : S) : option S :=
  match ks with
  | [] => Some st
  | k :: ks' => st' ← body k st; forLoop body ks' st'
  end.

(** The indices [j] of [for (let j = Math.max(0, i - 2); j < i; j++)]. *)
Definition lookback (i : nat) : list nat :=
  seq (Nat.max 0 (i - 2)) (i - Nat.max 0 (i - 2)).

(** The test of one source register ([name] is "rs" or "rt", [reg] its
    number) against [prevInst.rd]; the source writes this block twice, once
    per register. *)
Definition rawCheck (forwardingEnabled : bool) (name : string) (reg : Z)
    (j : nat) (dist : Z) (prevInst : RegisterUsage) (acc : RawScan) : RawScan :=
  if reg =? rd prevInst then
    let pushed :=
      rawHazards acc ++
      [ {| sourceReg := name; regNum := reg; fromInst := j; distance := dist |} ] in
    if negb forwardingEnabled then
      let stallsNeeded := 3 - dist in
      if stallsNeeded >? maxStallCycles acc then
        {| rawHazards := pushed;
           maxStallCycles := stallsNeeded;
           hazardDescription :=
             name +:+ "($" +:+ pretty reg +:+ ") depends on instruction "
                  +:+ pretty j |}
      else
        {| rawHazards := pushed;
           maxStallCycles := maxStallCycles acc;
           hazardDescription := hazardDescription acc |}
    else
      {| rawHazards := pushed;
         maxStallCycles := maxStallCycles acc;
         hazardDescription := hazardDescription acc |}
  else acc.

(** Body of the look-back loop for RAW hazards. *)
Definition rawStep (forwardingEnabled : bool)
    (registerUsage : gmap nat RegisterUsage) (currentInst : RegisterUsage)
    (i j : nat) (acc : RawScan) : option RawScan :=
  prevInst ← registerUsage !! j;
  let dist := Z.of_nat i - Z.of_nat j in
  if rd prevInst =? 0 then Some acc
  else
    Some (rawCheck forwardingEnabled "rt" (rt currentInst) j dist prevInst
           (rawCheck forwardingEnabled "rs" (rs currentInst) j dist prevInst acc)).

Definition wawHazard (currentInst : RegisterUsage) : HazardInfo :=
  {| hazard_type := WAW;
     description := "Both instructions write to $" +:+ pretty (rd currentInst);
     canForward := true; stallCycles := 0 |}.

(** The look-back loop for WAW hazards; it leaves at the first match
    ([break]). *)
Fixpoint wawLoop (registerUsage : gmap nat RegisterUsage)
    (currentInst : RegisterUsage) (i : nat) (js : list nat)
    (hazards : gmap nat HazardInfo) : option (gmap nat HazardInfo) :=
  match js with
  | [] => Some hazards
  | j :: js' =>
      prevInst ← registerUsage !! j;
      if negb (rd prevInst =? 0) && (rd currentInst =? rd prevInst)
      then Some (<[i := wawHazard currentInst]> hazards)
      else wawLoop registerUsage currentInst i js' hazards
  end.

Definition forwardingOf (i : nat) (hazard : RawHazard) : ForwardingInfo :=
  {| from := fromInst hazard;
     to := i;
     fromStage := if distance hazard =? 1 then EX else MEM;
     toStage := EX;
     register := "$" +:+ pretty (regNum hazard) |}.

Definition rawHazard (forwardingEnabled : bool) (scan : RawScan)
    (first : RawHazard) : HazardInfo :=
  {| hazard_type := RAW;
     description :=
       if String.eqb (hazardDescription scan) "" then
         "Depends on previous instruction " +:+ pretty (fromInst first)
       else hazardDescription scan;
     canForward := forwardingEnabled;
     stallCycles := if forwardingEnabled then 0 else maxStallCycles scan |}.

(** The three result objects [hazards], [forwardings] and [stalls]. *)
Definition Analysis : Type :=
  gmap nat HazardInfo * gmap nat (list ForwardingInfo) * gmap nat Z.

(** Body of the main loop of [detectHazards], for instruction [i]. *)
Definition hazardStep (forwardingEnabled : bool)
    (registerUsage : gmap nat RegisterUsage) (i : nat) (res : Analysis)
    : option Analysis :=
  let '(hazards, forwardings, stalls) := res in
  currentInst ← registerUsage !! i;
  if decide (type currentInst = J) then Some res
  else
    scan ← forLoop (rawStep forwardingEnabled registerUsage currentInst i)
                   (lookback i)
                   {| rawHazards := []; maxStallCycles := 0;
                      hazardDescription := "" |};
    match rawHazards scan with
    | first :: _ =>
        let hazards' := <[i := rawHazard forwardingEnabled scan first]> hazards in
        if negb forwardingEnabled && (maxStallCycles scan >? 0) then
          Some (hazards', forwardings, <[i := maxStallCycles scan]> stalls)
        else if forwardingEnabled then
          Some (hazards',
                <[i := forwardingOf i <$> rawHazards scan]> forwardings,
                stalls)
        else Some (hazards', forwardings, stalls)
    | [] =>
        if negb (rd currentInst =? 0) then
          hazards' ← wawLoop registerUsage currentInst i (lookback i) hazards;
          Some (hazards', forwardings, stalls)
        else Some res
    end.

(** The initialising [forEach]: every index gets "no hazard". *)
Definition initAnalysis (instructions : list string) : Analysis :=
  foldl (λ '(hazards, forwardings, stalls) index,
           (<[index := noHazard]> hazards,
            <[index := []]> forwardings,
            <[index := 0]> stalls))
        (∅, ∅, ∅) (seq 0 (length instructions)).

Definition detectHazards (instructions : list string)
    (registerUsage : gmap nat RegisterUsage) (forwardingEnabled : bool)
    : option Analysis :=
  forLoop (hazardStep forwardingEnabled registerUsage)
          (seq 1 (length instructions - 1))
          (initAnalysis instructions).

(** ** The pipeline state *)

Record SimulationState := {
  instructions : list string;
  currentCycle : Z;
  maxCycles : Z;
  isRunning : bool;
  stageCount : Z;
  instructionStages : gmap nat (option Z);
  isFinished : bool;
  registerUsage : gmap nat RegisterUsage;
  hazards : gmap nat HazardInfo;
  forwardings : gmap nat (list ForwardingInfo);
  stalls : gmap nat Z;
  currentStallCycles : Z;
  forwardingEnabled : bool
}.

Definition initialState : SimulationState :=
  {| instructions := [];
     currentCycle := 0;
     maxCycles := 0;
     isRunning := false;
     stageCount := DEFAULT_STAGE_COUNT;
     instructionStages := ∅;
     isFinished := false;
     registerUsage := ∅;
     hazards := ∅;
     forwardings := ∅;
     stalls := ∅;
     currentStallCycles := 0;
     forwardingEnabled := true |}.

(** [stalls[i] || 0]: an absent entry counts as no stall. *)
Definition stallAt (stalls : gmap nat Z) (i : nat) : Z :=
  default 0 (stalls !! i).

Definition calculatePrecedingStalls (stalls : gmap nat Z) (index : nat) : Z :=
  foldl (λ totalStalls i, totalStalls + stallAt stalls i) 0 (seq 0 index).

(** The sum over [Object.values(stalls)]. *)
Definition totalStallCycles (stalls : gmap nat Z) : Z :=
  map_fold (λ _ stall total, total + stall) 0 stalls.

(** The local [completionCycle] of [calculateNextState]. *)
Definition completionCycle (currentState : SimulationState) : Z :=
  if (0 <? length (instructions currentState))%nat then
    Z.of_nat (length (instructions currentState))
    + stageCount currentState - 1
    + totalStallCycles (stalls currentState)
  else 0.

(** Body of the [forEach] over the instructions in [calculateNextState];
    the accumulator is [newInstructionStages] and [newStallCycles].  The
    counter [activeInstructions] of the source is never read and is left
    out. *)
Definition stageStep (currentState : SimulationState) (nextCycle : Z)
    (acc : gmap nat (option Z) * Z) (index : nat) : gmap nat (option Z) * Z :=
  let '(newInstructionStages, newStallCycles) := acc in
  let precedingStalls :=
    calculatePrecedingStalls (stalls currentState) index in
  let stageIndex := nextCycle - Z.of_nat index - 1 - precedingStalls in
  if (stageIndex >=? 0) && (stageIndex <? stageCount currentState) then
    (<[index := Some stageIndex]> newInstructionStages,
     match stalls currentState !! index with
     | Some stall =>
         if (stageIndex =? 1) && (stall >? 0) && (newStallCycles =? 0)
         then stall else newStallCycles
     | None => newStallCycles
     end)
  else (<[index := None]> newInstructionStages, newStallCycles).

Definition calculateNextState (currentState : SimulationState)
    : SimulationState :=
  if negb (isRunning currentState) || isFinished currentState then currentState
  else
    let nextCycle := currentCycle currentState + 1 in
    let newStallCycles := currentStallCycles currentState in
    if newStallCycles >? 0 then
      {| instructions := instructions currentState;
         currentCycle := nextCycle;
         maxCycles := maxCycles currentState;
         isRunning := isRunning currentState;
         stageCount := stageCount currentState;
         instructionStages := instructionStages currentState;
         isFinished := isFinished currentState;
         registerUsage := registerUsage currentState;
         hazards := hazards currentState;
         forwardings := forwardings currentState;
         stalls := stalls currentState;
         currentStallCycles := newStallCycles - 1;
         forwardingEnabled := forwardingEnabled currentState |}
    else
      let '(newInstructionStages, newStallCycles') :=
        foldl (stageStep currentState nextCycle) (∅, newStallCycles)
              (seq 0 (length (instructions currentState))) in
      let finished := nextCycle >? completionCycle currentState in
      {| instructions := instructions currentState;
         currentCycle :=
           if finished then completionCycle currentState else nextCycle;
         maxCycles := maxCycles currentState;
         isRunning := negb finished;
         stageCount := stageCount currentState;
         instructionStages := newInstructionStages;
         isFinished := finished;
         registerUsage := registerUsage currentState;
         hazards := hazards currentState;
         forwardings := forwardings currentState;
         stalls := stalls currentState;
         currentStallCycles := newStallCycles';
         forwardingEnabled := forwardingEnabled currentState |}.

(** ** The controller

    Each operation is the state update the provider passes to
    [setSimulationState]; the timer is outside the model. *)

Definition resetSimulation (prevState : SimulationState) : SimulationState :=
  {| instructions := instructions initialState;
     currentCycle := currentCycle initialState;
     maxCycles := maxCycles initialState;
     isRunning := isRunning initialState;
     stageCount := stageCount initialState;
     instructionStages := instructionStages initialState;
     isFinished := isFinished initialState;
     registerUsage := registerUsage initialState;
     hazards := hazards initialState;
     forwardings := forwardings initialState;
     stalls := stalls initialState;
     currentStallCycles := currentStallCycles initialState;
     forwardingEnabled := forwardingEnabled prevState |}.

(** The [forEach] that fills [registerUsage]; [None] when an instruction
    is outside the format [parseInt16] covers. *)
Fixpoint parseAll (index : nat) (submitted : list string)
    (registerUsage : gmap nat RegisterUsage)
    : option (gmap nat RegisterUsage) :=
  match submitted with
  | [] => Some registerUsage
  | inst :: rest =>
      usage ← parseInstruction inst;
      parseAll (S index) rest (<[index := usage]> registerUsage)
  end.

(** The [forEach] that fills [initialStages] for cycle 1. *)
Definition initialStageStep (initialStages : gmap nat (option Z))
    (index : nat) : gmap nat (option Z) :=
  let stageIndex := 1 - Z.of_nat index - 1 in
  if (stageIndex >=? 0) && (stageIndex <? DEFAULT_STAGE_COUNT)
  then <[index := Some stageIndex]> initialStages
  else <[index := None]> initialStages.

Definition startSimulation (simulationState : SimulationState)
    (submittedInstructions : list string) : option SimulationState :=
  if Nat.eqb (length submittedInstructions) 0 then
    Some (resetSimulation simulationState)
  else
    registerUsage ← parseAll 0 submittedInstructions ∅;
    '(hazards, forwardings, stalls) ←
      detectHazards submittedInstructions registerUsage
                    (forwardingEnabled simulationState);
    let calculatedMaxCycles :=
      Z.of_nat (length submittedInstructions) + DEFAULT_STAGE_COUNT - 1
      + totalStallCycles stalls in
    Some {| instructions := submittedInstructions;
            currentCycle := 1;
            maxCycles := calculatedMaxCycles;
            isRunning := true;
            stageCount := DEFAULT_STAGE_COUNT;
            instructionStages :=
              foldl initialStageStep ∅
                    (seq 0 (length submittedInstructions));
            isFinished := false;
            registerUsage := registerUsage;
            hazards := hazards;
            forwardings := forwardings;
            stalls := stalls;
            currentStallCycles := 0;
            forwardingEnabled := forwardingEnabled simulationState |}.

Definition pauseSimulation (prevState : SimulationState) : SimulationState :=
  if isRunning prevState then
    {| instructions := instructions prevState;
       currentCycle := currentCycle prevState;
       maxCycles := maxCycles prevState;
       isRunning := false;
       stageCount := stageCount prevState;
       instructionStages := instructionStages prevState;
       isFinished := isFinished prevState;
       registerUsage := registerUsage prevState;
       hazards := hazards prevState;
       forwardings := forwardings prevState;
       stalls := stalls prevState;
       currentStallCycles := currentStallCycles prevState;
       forwardingEnabled := forwardingEnabled prevState |}
  else prevState.

Definition resumeSimulation (prevState : SimulationState) : SimulationState :=
  if negb (isRunning prevState) && (currentCycle prevState >? 0)
     && negb (isFinished prevState) then
    {| instructions := instructions prevState;
       currentCycle := currentCycle prevState;
       maxCycles := maxCycles prevState;
       isRunning := true;
       stageCount := stageCount prevState;
       instructionStages := instructionStages prevState;
       isFinished := isFinished prevState;
       registerUsage := registerUsage prevState;
       hazards := hazards prevState;
       forwardings := forwardings prevState;
       stalls := stalls prevState;
       currentStallCycles := currentStallCycles prevState;
       forwardingEnabled := forwardingEnabled prevState |}
  else prevState.

Definition setForwardingEnabled (enabled : bool)
    (prevState : SimulationState) : SimulationState :=
  {| instructions := instructions prevState;
     currentCycle := currentCycle prevState;
     maxCycles := maxCycles prevState;
     isRunning := isRunning prevState;
     stageCount := stageCount prevState;
     instructionStages := instructionStages prevState;
     isFinished := isFinished prevState;
     registerUsage := registerUsage prevState;
     hazards := hazards prevState;
     forwardings := forwardings prevState;
     stalls := stalls prevState;
     currentStallCycles := currentStallCycles prevState;
     forwardingEnabled := enabled |}.

(** ** Notions the statements below are phrased in *)

(** The characters of a run of binary digits, most significant first. *)
Fixpoint bitString (bs : list bool) : string :=
  match bs with
  | [] => EmptyString
  | b :: bs' => String (if b then "1" else "0")%char (bitString bs')
  end.

(** The [n] low bits of [w], most significant first. *)
Fixpoint be_bits (n : nat) (w : Z) : list bool :=
  match n with
  | O => []
  | S k => be_bits k (w / 2) ++ [Z.odd w]
  end.

Definition bitsValue (bs : list bool) : Z :=
  foldl (λ acc (b : bool), 2 * acc + (if b then 1 else 0)) 0 bs.

Fixpoint allHex (s : string) : bool :=
  match s with
  | EmptyString => true
  | String c s' => bool_decide (is_Some (hexDigit c)) && allHex s'
  end.

(** The format the instruction form checks: eight hexadecimal digits. *)
Definition isHex8 (s : string) : bool :=
  Nat.eqb (String.length s) 8 && allHex s.

(** [registerUsage] has an entry for each of the first [n] indices. *)
Definition covers (registerUsage : gmap nat RegisterUsage) (n : nat) : Prop :=
  ∀ k, (k < n)%nat → is_Some (registerUsage !! k).

(** The instructions at distance 2 and 1 before instruction [i], those that
    exist, the farther one first. *)
Definition window (i : nat) : list nat :=
  (if decide (2 ≤ i)%nat then [(i - 2)%nat] else [])
  ++ (if decide (1 ≤ i)%nat then [(i - 1)%nat] else []).

(** The match of one source register of instruction [i] against the
    destination register of instruction [j], if there is one. *)
Definition match_of (name : string) (reg : Z) (i j : nat)
    (prev : RegisterUsage) : list RawHazard :=
  if decide (reg = rd prev) then
    [ {| sourceReg := name; regNum := reg; fromInst := j;
         distance := Z.of_nat i - Z.of_nat j |} ]
  else [].

Definition matches_against (cur : RegisterUsage) (i j : nat)
    (prev : RegisterUsage) : list RawHazard :=
  if decide (rd prev = 0) then []
  else match_of "rs" (rs cur) i j prev ++ match_of "rt" (rt cur) i j prev.

(** The RAW matches of instruction [i]: its rs or rt equals the nonzero
    destination register of an instruction at distance 1 or 2.  They are
    listed with the smaller [j] first and, for one [j], rs before rt. *)
Definition raw_matches (registerUsage : gmap nat RegisterUsage) (i : nat)
    : list RawHazard :=
  match registerUsage !! i with
  | None => []
  | Some cur =>
      j ← window i;
      match registerUsage !! j with
      | Some prev => matches_against cur i j prev
      | None => []
      end
  end.

Definition stall_need (m : RawHazard) : Z := 3 - distance m.

(** The maximum of [3 - distance] over a list of matches, 0 for none. *)
Definition max_stall (ms : list RawHazard) : Z :=
  foldl (λ acc m, Z.max acc (stall_need m)) 0 ms.

(** The first match that needs the maximal number of stalls. *)
Definition first_max (ms : list RawHazard) : option RawHazard :=
  find (λ m, bool_decide (stall_need m = max_stall ms)) ms.

(** The description the analyser derives from a match. *)
Definition describe (m : RawHazard) : string :=
  sourceReg m +:+ "($" +:+ pretty (regNum m)
    +:+ ") depends on instruction " +:+ pretty (fromInst m).

(** Instruction [j] writes the nonzero register that [cur] writes. *)
Definition waw_against (registerUsage : gmap nat RegisterUsage)
    (cur : RegisterUsage) (j : nat) : bool :=
  match registerUsage !! j with
  | Some prev => negb (rd prev =? 0) && (rd cur =? rd prev)
  | None => false
  end.

(** Some instruction at distance 1 or 2 is a WAW match for [cur] at [i]. *)
Definition waw_match (registerUsage : gmap nat RegisterUsage)
    (cur : RegisterUsage) (i : nat) : bool :=
  existsb (waw_against registerUsage cur) (window i).

(** What the analyser has recorded for index [x]. *)
Definition at_index (res : Analysis) (x : nat)
    : option HazardInfo * option (list ForwardingInfo) * option Z :=
  (res.1.1 !! x, res.1.2 !! x, res.2 !! x).

(** What the forwarding edge of a match must look like. *)
Definition edge_of_match (i : nat) (m : RawHazard) (e : ForwardingInfo) : Prop :=
  from e = fromInst m ∧ to e = i ∧ toStage e = EX
  ∧ (distance m = 1 → fromStage e = EX)
  ∧ (distance m = 2 → fromStage e = MEM)
  ∧ register e = "$" +:+ pretty (regNum m).

(** The locals of the RAW look-back loop once the matches [ms] have been
    seen: with forwarding disabled the maximum and the description follow
    the matches, with forwarding enabled they keep their initial values. *)
Definition scan_of (forwardingEnabled : bool) (ms : list RawHazard) : RawScan :=
  {| rawHazards := ms;
     maxStallCycles := if forwardingEnabled then 0 else max_stall ms;
     hazardDescription :=
       if forwardingEnabled then ""
       else match first_max ms with
            | Some m => describe m
            | None => ""
            end |}.

(** The three entries recorded for instruction [i] (decoded as [cur]), in
    terms of its matches. *)
Definition expected_at (forwardingEnabled : bool)
    (registerUsage : gmap nat RegisterUsage) (i : nat) (cur : RegisterUsage)
    : option HazardInfo * option (list ForwardingInfo) * option Z :=
  if decide (i = 0%nat ∨ type cur = J) then (Some noHazard, Some [], Some 0)
  else
    let ms := raw_matches registerUsage i in
    match ms with
    | first :: _ =>
        (Some (rawHazard forwardingEnabled (scan_of forwardingEnabled ms) first),
         Some (if forwardingEnabled then forwardingOf i <$> ms else []),
         Some (if forwardingEnabled then 0 else max_stall ms))
    | [] =>
        (Some (if negb (rd cur =? 0) && waw_match registerUsage cur i
               then wawHazard cur else noHazard),
         Some [], Some 0)
    end.

(** ** Programs used as examples *)

(** [add $7,$5,$6] followed by [add $8,$7,$5]: the second reads $7. *)
Definition add_then_use : list string := ["00a63820"; "00e54020"].

(** [add $7,$5,$6] followed by a jump [j] whose target bits 25:21 are 7. *)
Definition add_then_jump : list string := ["00a63820"; "08e00000"].

(** [jal] followed by [jr $31]: the second reads the link register. *)
Definition call_then_return : list string := ["0c100000"; "03e00008"].

(** [add $7,$5,$6] followed by [add $7,$1,$2]: both write $7. *)
Definition write_twice : list string := ["00a63820"; "00223820"].

(** The decoded instructions of a program, [∅] if one is malformed. *)
Definition decoded (program : list string) : gmap nat RegisterUsage :=
  default ∅ (parseAll 0 program ∅).

(** ** Runs *)

(** The states of a started run: the state a successful [startSimulation]
    of a non-empty program installs, and every state reached from it by
    clock ticks and by the controller's pause, resume and policy switch. *)
Inductive started : SimulationState → Prop :=
  | started_start prev submitted st :
      submitted ≠ [] →
      startSimulation prev submitted = Some st →
      started st
  | started_advance st :
      started st → started (calculateNextState st)
  | started_pause st :
      started st → started (pauseSimulation st)
  | started_resume st :
      started st → started (resumeSimulation st)
  | started_policy enabled st :
      started st → started (setForwardingEnabled enabled st).

(** [n] clock ticks in a row. *)
Definition advance_n (n : nat) (st : SimulationState) : SimulationState :=
  Nat.iter n calculateNextState st.

(** The keys of [m] are exactly the indices below [n]. *)
Definition keys_below {A : Type} (m : gmap nat A) (n : nat) : Prop :=
  ∀ k, is_Some (m !! k) ↔ (k < n)%nat.

(** The stage the clock assigns to instruction [k] in cycle [cycle]. *)
Definition stageIndexOf (st : SimulationState) (cycle : Z) (k : nat) : Z :=
  cycle - Z.of_nat k - 1 - calculatePrecedingStalls (stalls st) k.

Definition stageOf (st : SimulationState) (cycle : Z) (k : nat) : option Z :=
  if (stageIndexOf st cycle k >=? 0)
     && (stageIndexOf st cycle k <? stageCount st)
  then Some (stageIndexOf st cycle k) else None.

(** The stall a tick leaves pending is 0 or the stall of one of the first
    [m] instructions, which is in stage 1 in the new cycle. *)
Definition pending_ok (st : SimulationState) (cycle : Z) (m : nat)
    (pending : Z) : Prop :=
  pending = 0
  ∨ ∃ k, (k < m)%nat ∧ stageIndexOf st cycle k = 1
         ∧ stalls st !! k = Some pending ∧ 0 < pending.

(** No two instructions are in the same stage. *)
Definition stages_injective (stages : gmap nat (option Z)) : Prop :=
  ∀ k1 k2 stage,
    stages !! k1 = Some (Some stage) → stages !! k2 = Some (Some stage) →
    k1 = k2.

(** What holds of every state of a started run. *)
Record run_inv (st : SimulationState) : Prop := {
  inv_nonempty : (0 < length (instructions st))%nat;
  inv_stageCount : stageCount st = DEFAULT_STAGE_COUNT;
  inv_keys : keys_below (stalls st) (length (instructions st));
  inv_stalls_nonneg : ∀ k v, stalls st !! k = Some v → 0 ≤ v;
  inv_maxCycles : maxCycles st = completionCycle st;
  inv_cycle_pos : 1 ≤ currentCycle st;
  inv_stall_nonneg : 0 ≤ currentStallCycles st;
  inv_bound :
    if isFinished st
    then currentCycle st = completionCycle st ∧ isRunning st = false
    else currentCycle st + currentStallCycles st ≤ completionCycle st;
  inv_injective : stages_injective (instructionStages st);
  inv_analysis :
    ∃ policy,
      detectHazards (instructions st) (registerUsage st) policy
      = Some (hazards st, forwardings st, stalls st)
}.

(** The run of [add_then_use] with forwarding disabled, two ticks in: the
    second instruction has just entered ID and a stall of 2 is pending. *)
Definition stalled_run : SimulationState :=
  advance_n 2
    (default initialState
       (startSimulation (setForwardingEnabled false initialState)
                        add_then_use)).

(** A one-instruction run. *)
Definition single_run : SimulationState :=
  default initialState (startSimulation initialState ["00a63820"]).

(** ** The pipeline table ([src/components/pipeline-visualization.tsx])

    The pure helpers of [PipelineVisualization], as functions of the state
    the component reads from the context.  Its own
    [calculatePrecedingStalls] has the body of the one above, over
    [stalls]. *)

(** The names of [STAGES]; the icons are presentation. *)
Definition STAGES : list StageName := [IF_; ID; EX; MEM; WB].

(** The column headers: [Array.from({ length }, (_, i) => i + 1)]. *)
Definition cycleNumbers (st : SimulationState) : list Z :=
  let totalCyclesToDisplay := if maxCycles st >? 0 then maxCycles st else 0 in
  (λ i, Z.of_nat i + 1) <$> seq 0 (Z.to_nat totalCyclesToDisplay).

(** An absent [stalls[instIndex]] passes the first test ([undefined <= 0]
    is false) and fails the last comparison, so the cell is no stall. *)
Definition isStallCell (st : SimulationState) (instIndex : nat)
    (cycleNum : Z) : bool :=
  match stalls st !! instIndex with
  | None => false
  | Some stall =>
      if stall <=? 0 then false
      else
        let expectedCycleWithoutStalls := Z.of_nat instIndex + 2 in
        let precedingStalls :=
          calculatePrecedingStalls (stalls st) instIndex in
        (cycleNum >? expectedCycleWithoutStalls + precedingStalls)
        && (cycleNum <=? expectedCycleWithoutStalls + precedingStalls + stall)
  end.

(** [None] is the result [{ isForwarding: false }], [Some info] the result
    [{ isForwarding: true, forwardingInfo: info }]. *)
Definition getForwardingInfo (st : SimulationState) (instIndex : nat)
    (cycleNum : Z) : option (list ForwardingInfo) :=
  match forwardings st !! instIndex with
  | None => None
  | Some info =>
      if Nat.eqb (length info) 0 then None
      else
        let precedingStalls :=
          calculatePrecedingStalls (stalls st) instIndex in
        let expectedStage :=
          cycleNum - Z.of_nat instIndex - 1 - precedingStalls in
        if expectedStage =? 2 then Some info else None
  end.

Definition isInCurrentColumn (st : SimulationState) (cycleNum : Z) : bool :=
  cycleNum =? currentCycle st.

Inductive CellType := CellStall | CellForwarding | CellNormal | CellEmpty.

#[global] Instance CellType_eq_dec : EqDecision CellType.
Proof. solve_decision. Defined.

(** The object [getCellState] returns; [cell_type] and [cell_stage] are its
    fields [type] and [stage]. *)
Record CellState := {
  cell_type : CellType;
  cell_stage : option StageName;
  isCurrentCell : bool;
  forwardingInfo : option (list ForwardingInfo)
}.

Definition getCellState (st : SimulationState) (instIndex : nat)
    (cycleNum : Z) : CellState :=
  let precedingStalls := calculatePrecedingStalls (stalls st) instIndex in
  if isStallCell st instIndex cycleNum then
    {| cell_type := CellStall; cell_stage := None;
       isCurrentCell := isInCurrentColumn st cycleNum;
       forwardingInfo := None |}
  else
    let expectedStageIndex :=
      cycleNum - Z.of_nat instIndex - 1 - precedingStalls in
    let currentStageIndex := instructionStages st !! instIndex in
    let isInPipeline :=
      (expectedStageIndex >=? 0)
      && (expectedStageIndex <? Z.of_nat (length STAGES)) in
    let stageData :=
      if isInPipeline then STAGES !! Z.to_nat expectedStageIndex else None in
    let current :=
      match currentStageIndex with
      | Some (Some stage) => expectedStageIndex =? stage
      | _ => false
      end
      && (cycleNum =? currentCycle st) in
    match getForwardingInfo st instIndex cycleNum with
    | Some info =>
        {| cell_type := CellForwarding; cell_stage := stageData;
           isCurrentCell := current || isInCurrentColumn st cycleNum;
           forwardingInfo := Some info |}
    | None =>
        {| cell_type := if isInPipeline then CellNormal else CellEmpty;
           cell_stage := stageData;
           isCurrentCell := current || isInCurrentColumn st cycleNum;
           forwardingInfo := None |}
    end.

(** ** The figures of the input panel ([src/components/instruction-input.tsx]) *)

Definition hasStarted (st : SimulationState) : bool := currentCycle st >? 0.

Definition canPauseResume (st : SimulationState) : bool :=
  hasStarted st && negb (isFinished st).

Definition disableInputAndStart (st : SimulationState) : bool :=
  hasStarted st && negb (isFinished st).

(** [Object.values(hazards).filter((h) => h.type !== "NONE").length] *)
Definition hazardCount (st : SimulationState) : nat :=
  length (List.filter (λ h, negb (bool_decide (hazard_type h = NONE)))
                      (snd <$> map_to_list (hazards st))).

(** [Object.values(stalls).reduce((sum, s) => sum + s, 0)]: the sum that
    [calculateNextState] and [startSimulation] also take. *)
Definition stallCount (st : SimulationState) : Z :=
  totalStallCycles (stalls st).

(** [Object.values(forwardings).filter((f) => f.length > 0).length] *)
Definition forwardingCount (st : SimulationState) : nat :=
  length (List.filter (λ f : list ForwardingInfo, (0 <? length f)%nat)
                      (snd <$> map_to_list (forwardings st))).

(** The play/pause button; [isRunningProp] is the component's [isRunning]
    property. *)
Definition handlePauseResume (isRunningProp : bool) (st : SimulationState)
    : SimulationState :=
  if isRunningProp then pauseSimulation st else resumeSimulation st.

(** *** The text of the form

    The text is a [string]: its characters are the code units of the
    JavaScript string, taken below 256.  Of those, [String.prototype.trim]
    removes tab, line feed, vertical tab, form feed, carriage return, space
    and no-break space. *)
Definition isWhiteSpace (c : ascii) : bool :=
  let n := N_of_ascii c in
  ((9 <=? n) && (n <=? 13) || (n =? 32) || (n =? 160))%N.

Fixpoint trimStart (s : string) : string :=
  match s with
  | EmptyString => EmptyString
  | String c s' => if isWhiteSpace c then trimStart s' else s
  end.

Fixpoint trimEnd (s : string) : string :=
  match s with
  | EmptyString => EmptyString
  | String c s' =>
      match trimEnd s' with
      | EmptyString => if isWhiteSpace c then EmptyString else String c EmptyString
      | String c' t => String c (String c' t)
      end
  end.

Definition trim (s : string) : string := trimEnd (trimStart s).

(** [s.split(sep)] for a separator of one character. *)
Fixpoint strSplit (sep : ascii) (s : string) : list string :=
  match s with
  | EmptyString => [EmptyString]
  | String c s' =>
      if Ascii.eqb c sep then EmptyString :: strSplit sep s'
      else match strSplit sep s' with
           | line :: lines => String c line :: lines
           | [] => [String c EmptyString]
           end
  end.

(** [HEX_REGEX.test]: the whole string is eight hexadecimal digits. *)
Definition HEX_REGEX_test (s : string) : bool :=
  Nat.eqb (String.length s) 8 && allHex s.

(** What [handleSubmit] does: it shows an error, or hands the instructions
    to [onInstructionsSubmit]. *)
Inductive SubmitOutcome :=
  | SubmitError (message : string)
  | Submitted (currentInstructions : list string).

Definition handleSubmit (inputText : string) : SubmitOutcome :=
  let lines := strSplit "010"%char (trim inputText) in
  let currentInstructions :=
    List.filter (λ line, (0 <? String.length line)%nat) (trim <$> lines) in
  if Nat.eqb (length currentInstructions) 0 then
    SubmitError
      "Please enter at least one MIPS instruction in hexadecimal format."
  else
    let invalidInstructions :=
      List.filter (λ inst, negb (HEX_REGEX_test inst)) currentInstructions in
    if (0 <? length invalidInstructions)%nat then
      SubmitError
        ("Invalid instruction format found: "
         +:+ String.concat ", " invalidInstructions
         +:+ ". Each instruction must be 8 hexadecimal characters.")
    else Submitted currentInstructions.

(** ** Notions for the table and for whole runs *)

(** The cycle in which instruction [k] is in stage 1 (ID): the
    [expectedCycleWithoutStalls + precedingStalls] of [isStallCell]. *)
Definition stallStart (st : SimulationState) (k : nat) : Z :=
  Z.of_nat k + 2 + calculatePrecedingStalls (stalls st) k.

(** The stage mapping has an entry for each instruction and for nothing
    else, and its non-null entries are stage indices. *)
Definition stages_ok (st : SimulationState) : Prop :=
  keys_below (instructionStages st) (length (instructions st))
  ∧ ∀ k stage, instructionStages st !! k = Some (Some stage) → 0 ≤ stage < 5.

(** The pending stall of the clock and the stall cells of the next column
    of the table describe the same thing. *)
Definition stall_sync (st : SimulationState) : Prop :=
  (0 < currentStallCycles st →
   ∃ k, isStallCell st k (currentCycle st + 1) = true)
  ∧ ∀ k stall,
      isStallCell st k (currentCycle st + 1) = true →
      stalls st !! k = Some stall →
      currentStallCycles st = stallStart st k + stall - currentCycle st.

(** The run of [add_then_use] with forwarding enabled, as started. *)
Definition forwarded_run : SimulationState :=
  default initialState (startSimulation initialState add_then_use).

(** The run of [add_then_use] with forwarding disabled, as started. *)
Definition stalling_run : SimulationState :=
  default initialState
    (startSimulation (setForwardingEnabled false initialState) add_then_use).


(** A text of blank characters only. *)
Fixpoint allWhiteSpace (s : string) : bool :=
  match s with
  | EmptyString => true
  | String c s' => isWhiteSpace c && allWhiteSpace s'
  end.

(** No character of [s] is blank or a line feed. *)
Definition plain (s : string) : Prop :=
  ∀ c, In c (list_ascii_of_string s) →
       isWhiteSpace c = false ∧ Ascii.eqb c "010" = false.

(** * Properties *)

(** ** Scenarios of the decoder *)

Example parseInstruction_add :
  parseInstruction "00a63820" =
  Some {| rs := 5; rt := 6; rd := 7; opcode := 0; funct := 32; type := R |}.
Proof. reflexivity. Qed.

Example parseInstruction_jal :
  parseInstruction "0C100000" =
  Some {| rs := 0; rt := 16; rd := 31; opcode := 3; funct := 0; type := J |}.
Proof. reflexivity. Qed.

Example parseInstruction_lw :
  parseInstruction "8d490004" =
  Some {| rs := 10; rt := 9; rd := 9; opcode := 35; funct := 0; type := I |}.
Proof. reflexivity. Qed.

Example parseInstruction_sw :
  parseInstruction "ad490004" =
  Some {| rs := 10; rt := 9; rd := 0; opcode := 43; funct := 0; type := I |}.
Proof. reflexivity. Qed.

Example parseInstruction_rejects_short : parseInstruction "8d49" = None.
Proof. reflexivity. Qed.

(** ** Binary strings *)

Section BinaryStrings.

Lemma append_String (x : ascii) (a b : string) :
  String x a +:+ b = String x (a +:+ b).
Proof. reflexivity. Qed.

Lemma append_assoc (a b c : string) : (a +:+ b) +:+ c = a +:+ (b +:+ c).
Proof.
  induction a as [|x a IH]; [done|].
  rewrite !append_String. by f_equal.
Qed.

Lemma length_append (a b : string) :
  String.length (a +:+ b) = (String.length a + String.length b)%nat.
Proof.
  induction a as [|x a IH]; [done|].
  rewrite append_String. simpl. by f_equal.
Qed.

Lemma bitString_app (xs ys : list bool) :
  bitString (xs ++ ys) = bitString xs +:+ bitString ys.
Proof.
  induction xs as [|x xs IH]; [done|].
  simpl. rewrite append_String. by f_equal.
Qed.

Lemma repeatChar_zero (k : nat) :
  repeatChar k "0" = bitString (replicate k false).
Proof. induction k as [|k IH]; simpl; [done | by f_equal]. Qed.

Lemma length_be_bits (n : nat) (w : Z) : length (be_bits n w) = n.
Proof.
  revert w. induction n as [|n IH]; intros w; simpl; [done|].
  rewrite length_app, IH. simpl. lia.
Qed.

Lemma be_bits_zero (n : nat) : be_bits n 0 = replicate n false.
Proof.
  induction n as [|n IH]; [done|].
  rewrite replicate_S_end. simpl be_bits.
  rewrite Z.div_0_l by lia. by rewrite IH.
Qed.

Lemma be_bits_app (n m : nat) (w : Z) :
  be_bits (n + m) w = be_bits n (w / 2 ^ Z.of_nat m) ++ be_bits m w.
Proof.
  revert w. induction m as [|m IH]; intros w.
  - rewrite Nat.add_0_r. simpl. rewrite Z.div_1_r. by rewrite app_nil_r.
  - replace (n + S m)%nat with (S (n + m)) by lia. simpl be_bits.
    rewrite IH, <- app_assoc. do 2 f_equal.
    rewrite Z.div_div by lia. f_equal.
    rewrite Nat2Z.inj_succ, Z.pow_succ_r by lia. done.
Qed.

(** ** Padding: the 32-character string holds the 32 bits of the word *)

Lemma pos_toString2_padded (p : positive) (n : nat) :
  Zpos p < 2 ^ Z.of_nat n →
  repeatChar (n - String.length (pos_toString2 p)) "0" +:+ pos_toString2 p
  = bitString (be_bits n (Zpos p)).
Proof.
  revert n. induction p as [p IH|p IH|]; intros n Hlt.
  - destruct n as [|n]; [simpl in Hlt; lia|].
    rewrite Nat2Z.inj_succ, Z.pow_succ_r in Hlt by lia.
    simpl pos_toString2. rewrite length_append. simpl String.length.
    replace (S n - (String.length (pos_toString2 p) + 1))%nat
      with (n - String.length (pos_toString2 p))%nat by lia.
    rewrite <- append_assoc, IH by lia.
    simpl be_bits. rewrite bitString_app.
    replace (Z.pos p~1 / 2) with (Z.pos p)
      by (rewrite Pos2Z.inj_xI; apply Z.div_unique with 1; lia).
    done.
  - destruct n as [|n]; [simpl in Hlt; lia|].
    rewrite Nat2Z.inj_succ, Z.pow_succ_r in Hlt by lia.
    simpl pos_toString2. rewrite length_append. simpl String.length.
    replace (S n - (String.length (pos_toString2 p) + 1))%nat
      with (n - String.length (pos_toString2 p))%nat by lia.
    rewrite <- append_assoc, IH by lia.
    simpl be_bits. rewrite bitString_app.
    replace (Z.pos p~0 / 2) with (Z.pos p)
      by (rewrite Pos2Z.inj_xO; apply Z.div_unique with 0; lia).
    done.
  - destruct n as [|n]; [simpl in Hlt; lia|].
    simpl pos_toString2. simpl String.length.
    replace (S n - 1)%nat with n by lia.
    simpl be_bits. change (1 / 2) with 0.
    rewrite be_bits_zero, bitString_app, repeatChar_zero. done.
Qed.

Lemma binary_of_word (word : Z) :
  0 ≤ word < 2 ^ 32 →
  padStart 32 "0" (toString2 word) = bitString (be_bits 32 word).
Proof.
  intros [Hlo Hhi]. destruct word as [|p|p]; [done| |lia].
  unfold padStart, toString2. by apply (pos_toString2_padded p 32).
Qed.

(** ** Cutting a field out and reading it *)

Lemma substring_bitString (a len : nat) (bs : list bool) :
  String.substring a len (bitString bs) = bitString (take len (drop a bs)).
Proof.
  revert a len. induction bs as [|b bs IH]; intros a len.
  - destruct a, len; done.
  - destruct a as [|a].
    + destruct len as [|len]; simpl; [done|]. by rewrite (IH 0%nat len).
    + simpl. apply IH.
Qed.

Lemma parseBinDigits_bitString (bs : list bool) (acc : Z) :
  parseBinDigits acc (bitString bs)
  = foldl (λ acc (b : bool), 2 * acc + (if b then 1 else 0)) acc bs.
Proof.
  revert acc. induction bs as [|b bs IH]; intros acc; simpl; [done|].
  destruct b; simpl; rewrite IH; f_equal; lia.
Qed.

Lemma bitsValue_snoc (bs : list bool) (b : bool) :
  bitsValue (bs ++ [b]) = 2 * bitsValue bs + (if b then 1 else 0).
Proof. unfold bitsValue. by rewrite foldl_app. Qed.

Lemma bitsValue_be_bits (n : nat) (w : Z) :
  bitsValue (be_bits n w) = w mod 2 ^ Z.of_nat n.
Proof.
  revert w. induction n as [|n IH]; intros w.
  - simpl. by rewrite Z.mod_1_r.
  - simpl be_bits. rewrite bitsValue_snoc, IH.
    rewrite Nat2Z.inj_succ, Z.pow_succ_r by lia.
    rewrite Z.rem_mul_r by lia. rewrite Zmod_odd.
    destruct (Z.odd w); lia.
Qed.

Lemma field_of_word (word : Z) (a b : nat) :
  0 ≤ word < 2 ^ 32 → (a ≤ b ≤ 32)%nat →
  parseInt2 (substring a b (padStart 32 "0" (toString2 word)))
  = (word / 2 ^ Z.of_nat (32 - b)) mod 2 ^ Z.of_nat (b - a).
Proof.
  intros Hw Hab. rewrite binary_of_word by done.
  unfold substring, parseInt2. rewrite substring_bitString.
  replace 32%nat with (a + ((b - a) + (32 - b)))%nat at 1 by lia.
  rewrite be_bits_app, drop_app_length' by (by rewrite length_be_bits).
  rewrite be_bits_app, take_app_length' by (by rewrite length_be_bits).
  rewrite parseBinDigits_bitString. apply bitsValue_be_bits.
Qed.

Lemma bitfield_div_mod (word hi lo : Z) :
  0 ≤ lo ≤ hi + 1 →
  bitfield word hi lo = (word / 2 ^ lo) mod 2 ^ (hi - lo + 1).
Proof.
  intros H. unfold bitfield.
  rewrite Z.land_ones by lia. by rewrite Z.shiftr_div_pow2 by lia.
Qed.

Lemma field_is_bitfield (word : Z) (a b : nat) :
  0 ≤ word < 2 ^ 32 → (a < b ≤ 32)%nat →
  parseInt2 (substring a b (padStart 32 "0" (toString2 word)))
  = bitfield word (31 - Z.of_nat a) (32 - Z.of_nat b).
Proof.
  intros Hw Hab. rewrite field_of_word by (done || lia).
  rewrite bitfield_div_mod by lia.
  replace (Z.of_nat (32 - b)) with (32 - Z.of_nat b) by lia.
  replace (Z.of_nat (b - a))
    with (31 - Z.of_nat a - (32 - Z.of_nat b) + 1) by lia.
  done.
Qed.

End BinaryStrings.

(** ** The decoder *)

Section Decoder.

Lemma hexDigit_range (c : ascii) (d : Z) : hexDigit c = Some d → 0 ≤ d < 16.
Proof.
  unfold hexDigit. intros H.
  repeat case_match; simplify_eq; lia.
Qed.

Lemma parseHexDigits_range (s : string) (acc : Z) :
  allHex s = true → 0 ≤ acc →
  ∃ v, parseHexDigits acc s = Some v
       ∧ acc * 16 ^ Z.of_nat (String.length s) ≤ v
           < (acc + 1) * 16 ^ Z.of_nat (String.length s).
Proof.
  revert acc. induction s as [|c s IH]; intros acc Hall Hacc.
  - exists acc. simpl. split; [done | lia].
  - simpl in Hall. apply andb_prop in Hall as [Hc Hs].
    apply bool_decide_eq_true in Hc as [d Hd].
    pose proof (hexDigit_range _ _ Hd) as Hrange.
    destruct (IH (16 * acc + d) Hs ltac:(lia)) as (v & Hv & Hbound).
    exists v. split; [simpl; by rewrite Hd|].
    simpl String.length. rewrite Nat2Z.inj_succ, Z.pow_succ_r by lia.
    nia.
Qed.

(** Every string the instruction form accepts is decoded, through a
    32-bit word. *)
Lemma parseInstruction_total (hexInstruction : string) :
  isHex8 hexInstruction = true →
  ∃ word, 0 ≤ word < 2 ^ 32
          ∧ parseInt16 hexInstruction = Some word
          ∧ parseInstruction hexInstruction = Some (parseWord word).
Proof.
  unfold isHex8, parseInstruction, parseInt16. intros H.
  apply andb_prop in H as [Hlen Hall]. rewrite Hlen.
  destruct (parseHexDigits_range hexInstruction 0 Hall ltac:(lia))
    as (v & Hv & Hbound).
  apply Nat.eqb_eq in Hlen. rewrite Hlen in Hbound.
  exists v. rewrite Hv. split; [|done].
  change (16 ^ Z.of_nat 8) with (2 ^ 32) in Hbound. lia.
Qed.

Lemma parseInstruction_Some (hexInstruction : string) (usage : RegisterUsage) :
  parseInstruction hexInstruction = Some usage →
  isHex8 hexInstruction = true.
Proof.
  unfold parseInstruction, parseInt16, isHex8.
  destruct (Nat.eqb (String.length hexInstruction) 8); [|done].
  intros H. simpl. generalize dependent 0.
  induction hexInstruction as [|c s IH]; intros acc H; [done|].
  simpl in *. destruct (hexDigit c) as [d|] eqn:Hd; [|done].
  simpl in H. rewrite (IH _ H), andb_true_r.
  by apply bool_decide_eq_true.
Qed.

(** A decoded jump is [j] with destination 0 or [jal] with destination 31. *)
Lemma parseWord_jump (word : Z) :
  type (parseWord word) = J →
  (opcode (parseWord word) = 2 ∧ rd (parseWord word) = 0)
  ∨ (opcode (parseWord word) = 3 ∧ rd (parseWord word) = 31).
Proof.
  unfold parseWord.
  generalize (parseInt2 (substring 0 6 (padStart 32 "0" (toString2 word)))).
  intros op.
  destruct (Z.eqb_spec op 0); [done|].
  destruct (Z.eqb_spec op 2) as [->|]; [by left|].
  destruct (Z.eqb_spec op 3) as [->|]; [by right|].
  done.
Qed.

End Decoder.

(** C1.  For every 32-bit instruction word the decoder returns a record
    whose opcode, rs and rt are the bit fields 31:26, 25:21 and 20:16 of the
    word; the record has kind R and destination the field 15:11 when the
    opcode is 0; kind J with destination 31 when the opcode is 3 and
    destination 0 when it is 2; and kind I otherwise, with destination the
    rt field when the opcode lies in 32..37 or 8..15 and 0 if not. *)
Theorem parseWord_decodes (word : Z) :
  0 ≤ word < 2 ^ 32 →
  let usage := parseWord word in
  let op := bitfield word 31 26 in
  opcode usage = op
  ∧ rs usage = bitfield word 25 21
  ∧ rt usage = bitfield word 20 16
  ∧ (op = 0 →
     type usage = R ∧ rd usage = bitfield word 15 11
     ∧ funct usage = bitfield word 5 0)
  ∧ (op = 3 → type usage = J ∧ rd usage = 31)
  ∧ (op = 2 → type usage = J ∧ rd usage = 0)
  ∧ (op ≠ 0 → op ≠ 2 → op ≠ 3 →
     type usage = I
     ∧ rd usage = if bool_decide (32 ≤ op ≤ 37 ∨ 8 ≤ op ≤ 15)
                  then bitfield word 20 16 else 0).
Proof.
  intros Hw usage op. subst usage op. unfold parseWord.
  rewrite (field_is_bitfield word 0 6), (field_is_bitfield word 6 11),
    (field_is_bitfield word 11 16), (field_is_bitfield word 16 21),
    (field_is_bitfield word 26 32) by (done || lia).
  change (31 - Z.of_nat 0) with 31. change (32 - Z.of_nat 6) with 26.
  change (31 - Z.of_nat 6) with 25. change (32 - Z.of_nat 11) with 21.
  change (31 - Z.of_nat 11) with 20. change (32 - Z.of_nat 16) with 16.
  change (31 - Z.of_nat 16) with 15. change (32 - Z.of_nat 21) with 11.
  change (31 - Z.of_nat 26) with 5. change (32 - Z.of_nat 32) with 0.
  generalize (bitfield word 31 26), (bitfield word 25 21),
    (bitfield word 20 16), (bitfield word 15 11), (bitfield word 5 0).
  intros op frs frt frd ffn.
  destruct (Z.eqb_spec op 0) as [H0|H0].
  { cbn [rs rt rd opcode funct type]. repeat split; (done || lia). }
  destruct (Z.eqb_spec op 2) as [H2|H2].
  { cbn [rs rt rd opcode funct type orb].
    destruct (Z.eqb_spec op 3); repeat split; (done || lia). }
  destruct (Z.eqb_spec op 3) as [H3|H3].
  { cbn [rs rt rd opcode funct type orb]. repeat split; (done || lia). }
  cbn [rs rt rd opcode funct type orb]. repeat split; try (done || lia).
  destruct (Z.geb_spec op 32), (Z.leb_spec op 37), (Z.geb_spec op 8),
    (Z.leb_spec op 15); cbn [andb]; case_bool_decide; (done || lia).
Qed.

Lemma parseWord_decodes_witness :
  0 ≤ 10893344 < 2 ^ 32
  ∧ let usage := parseWord 10893344 in
    let op := bitfield 10893344 31 26 in
    opcode usage = op
    ∧ rs usage = bitfield 10893344 25 21
    ∧ rt usage = bitfield 10893344 20 16
    ∧ (op = 0 →
       type usage = R ∧ rd usage = bitfield 10893344 15 11
       ∧ funct usage = bitfield 10893344 5 0)
    ∧ (op = 3 → type usage = J ∧ rd usage = 31)
    ∧ (op = 2 → type usage = J ∧ rd usage = 0)
    ∧ (op ≠ 0 → op ≠ 2 → op ≠ 3 →
       type usage = I
       ∧ rd usage = if bool_decide (32 ≤ op ≤ 37 ∨ 8 ≤ op ≤ 15)
                    then bitfield 10893344 20 16 else 0).
Proof.
  split; [lia|]. apply (parseWord_decodes 10893344). lia.
Defined.

(** ** The look-back loop for RAW hazards *)

Section RawScan.

Lemma lookback_window (i : nat) : lookback i = window i.
Proof.
  unfold lookback, window. rewrite Nat.max_0_l.
  destruct i as [|[|i]]; [done..|].
  repeat case_decide; try lia.
  replace (S (S i) - (S (S i) - 2))%nat with 2%nat by lia.
  replace (S (S i) - 2)%nat with i by lia.
  simpl. do 2 f_equal; lia.
Qed.

Lemma window_lt (i j : nat) : j ∈ window i → (j < i)%nat.
Proof.
  unfold window. rewrite elem_of_app.
  repeat case_decide; rewrite ?elem_of_cons, ?elem_of_nil; lia.
Qed.

Lemma window_distance (i j : nat) :
  j ∈ window i → 1 ≤ Z.of_nat i - Z.of_nat j ≤ 2.
Proof.
  unfold window. rewrite elem_of_app.
  repeat case_decide; rewrite ?elem_of_cons, ?elem_of_nil; lia.
Qed.

Lemma max_stall_snoc (ms : list RawHazard) (m : RawHazard) :
  max_stall (ms ++ [m]) = Z.max (max_stall ms) (stall_need m).
Proof. unfold max_stall. by rewrite foldl_app. Qed.

Lemma max_stall_ge (ms : list RawHazard) (m : RawHazard) :
  m ∈ ms → stall_need m ≤ max_stall ms.
Proof.
  induction ms as [|x ms IH] using rev_ind; [by rewrite elem_of_nil|].
  rewrite max_stall_snoc, elem_of_app, list_elem_of_singleton.
  intros [Hin | ->]; [specialize (IH Hin)|]; lia.
Qed.

Lemma max_stall_nonneg (ms : list RawHazard) : 0 ≤ max_stall ms.
Proof.
  induction ms as [|x ms IH] using rev_ind; [done|].
  rewrite max_stall_snoc. lia.
Qed.

Lemma max_stall_attained (ms : list RawHazard) :
  ms ≠ [] → Forall (λ m, 0 < stall_need m) ms →
  ∃ m, m ∈ ms ∧ stall_need m = max_stall ms.
Proof.
  induction ms as [|x ms IH] using rev_ind; [done|].
  intros _ Hpos. apply Forall_app in Hpos as [Hpos Hx].
  rewrite Forall_singleton in Hx. rewrite max_stall_snoc.
  destruct (decide (max_stall ms < stall_need x)) as [Hlt|Hge].
  - exists x. split; [apply elem_of_app; right; by left | lia].
  - destruct ms as [|y ms'].
    { unfold max_stall in Hge. simpl in Hge. lia. }
    destruct (IH ltac:(done) Hpos) as (m & Hm & Hmax).
    exists m. split; [apply elem_of_app; by left | lia].
Qed.

Lemma find_app_l {A} (f : A → bool) (xs ys : list A) (x : A) :
  find f xs = Some x → find f (xs ++ ys) = Some x.
Proof.
  induction xs as [|a xs IH]; [done|]. simpl.
  destruct (f a); [done | apply IH].
Qed.

Lemma find_app_r {A} (f : A → bool) (xs ys : list A) :
  (∀ x, x ∈ xs → f x = false) → find f (xs ++ ys) = find f ys.
Proof.
  induction xs as [|a xs IH]; [done|]. intros H. simpl.
  rewrite (H a) by (by left). apply IH. intros x Hx. apply H. by right.
Qed.

Lemma find_is_Some {A} (f : A → bool) (xs : list A) (x : A) :
  x ∈ xs → f x = true → is_Some (find f xs).
Proof.
  induction xs as [|a xs IH]; [by rewrite elem_of_nil|].
  rewrite elem_of_cons. intros [->|Hin] Hf; simpl.
  - rewrite Hf. by eexists.
  - destruct (f a); [by eexists | by apply IH].
Qed.

Lemma first_max_is_Some (ms : list RawHazard) :
  ms ≠ [] → Forall (λ m, 0 < stall_need m) ms → is_Some (first_max ms).
Proof.
  intros Hne Hpos.
  destruct (max_stall_attained ms Hne Hpos) as (m & Hin & Hm).
  unfold first_max. apply (find_is_Some _ _ m Hin).
  by apply bool_decide_eq_true.
Qed.

(** A new strict maximum becomes the first maximal match. *)
Lemma first_max_snoc_new (ms : list RawHazard) (m : RawHazard) :
  max_stall ms < stall_need m → first_max (ms ++ [m]) = Some m.
Proof.
  intros Hlt. unfold first_max. rewrite max_stall_snoc.
  rewrite find_app_r.
  - simpl. rewrite bool_decide_eq_true_2; [done | lia].
  - intros x Hx. apply bool_decide_eq_false.
    pose proof (max_stall_ge ms x Hx). lia.
Qed.

(** A match that does not exceed the maximum leaves the first one. *)
Lemma first_max_snoc_old (ms : list RawHazard) (m : RawHazard) :
  stall_need m ≤ max_stall ms → 0 < stall_need m →
  Forall (λ m, 0 < stall_need m) ms →
  first_max (ms ++ [m]) = first_max ms ∧ ms ≠ [].
Proof.
  intros Hle Hpos Hall.
  assert (ms ≠ []) as Hne.
  { intros ->. unfold max_stall in Hle. simpl in Hle. lia. }
  split; [|done].
  destruct (first_max_is_Some ms Hne Hall) as [x Hx].
  rewrite Hx. unfold first_max in *. rewrite max_stall_snoc.
  replace (Z.max (max_stall ms) (stall_need m)) with (max_stall ms) by lia.
  by apply find_app_l.
Qed.

End RawScan.

Section ScanInvariant.

Context (forwardingEnabled : bool) (registerUsage : gmap nat RegisterUsage).

Lemma rawCheck_scan_of (name : string) (reg : Z) (i j : nat)
    (prev : RegisterUsage) (ms : list RawHazard) :
  1 ≤ Z.of_nat i - Z.of_nat j ≤ 2 →
  Forall (λ m, 0 < stall_need m) ms →
  rawCheck forwardingEnabled name reg j (Z.of_nat i - Z.of_nat j) prev
           (scan_of forwardingEnabled ms)
  = scan_of forwardingEnabled (ms ++ match_of name reg i j prev).
Proof.
  intros Hd Hall. unfold rawCheck, match_of.
  destruct (Z.eqb_spec reg (rd prev)) as [Heq|Hne]; case_decide; try done.
  2: by rewrite app_nil_r.
  set (m := {| sourceReg := name; regNum := reg; fromInst := j;
               distance := Z.of_nat i - Z.of_nat j |}).
  destruct forwardingEnabled; simpl; [done|].
  change (3 - (Z.of_nat i - Z.of_nat j)) with (stall_need m).
  destruct (Z.gtb_spec (stall_need m) (max_stall ms)) as [Hgt|Hle].
  - unfold scan_of. rewrite first_max_snoc_new by lia.
    rewrite max_stall_snoc. f_equal. lia.
  - assert (0 < stall_need m) as Hpos by (unfold stall_need; simpl; lia).
    destruct (first_max_snoc_old ms m Hle Hpos Hall) as [E _].
    unfold scan_of. rewrite E, max_stall_snoc. f_equal. lia.
Qed.

Lemma match_of_need (name : string) (reg : Z) (i j : nat)
    (prev : RegisterUsage) :
  1 ≤ Z.of_nat i - Z.of_nat j ≤ 2 →
  Forall (λ m, 1 ≤ distance m ≤ 2 ∧ fromInst m = j)
         (match_of name reg i j prev).
Proof.
  intros Hd. unfold match_of. case_decide; [|done].
  apply Forall_singleton. simpl. lia.
Qed.

Lemma matches_against_need (cur prev : RegisterUsage) (i j : nat) :
  1 ≤ Z.of_nat i - Z.of_nat j ≤ 2 →
  Forall (λ m, 1 ≤ distance m ≤ 2 ∧ fromInst m = j)
         (matches_against cur i j prev).
Proof.
  intros Hd. unfold matches_against. case_decide; [done|].
  apply Forall_app. split; by apply match_of_need.
Qed.

Lemma need_positive (ms : list RawHazard) (j : nat) :
  Forall (λ m, 1 ≤ distance m ≤ 2 ∧ fromInst m = j) ms →
  Forall (λ m, 0 < stall_need m) ms.
Proof.
  intros H. eapply Forall_impl; [exact H|].
  unfold stall_need. intros m. simpl. lia.
Qed.

Lemma rawStep_scan_of (cur prev : RegisterUsage) (i j : nat)
    (ms : list RawHazard) :
  registerUsage !! j = Some prev →
  1 ≤ Z.of_nat i - Z.of_nat j ≤ 2 →
  Forall (λ m, 0 < stall_need m) ms →
  rawStep forwardingEnabled registerUsage cur i j
          (scan_of forwardingEnabled ms)
  = Some (scan_of forwardingEnabled (ms ++ matches_against cur i j prev)).
Proof.
  intros Hj Hd Hall. unfold rawStep, matches_against. rewrite Hj. simpl.
  destruct (Z.eqb_spec (rd prev) 0) as [Heq|Hne]; case_decide; try done.
  { by rewrite app_nil_r. }
  rewrite rawCheck_scan_of by done.
  rewrite rawCheck_scan_of, <- app_assoc; [done..|].
  apply Forall_app. split; [done|].
  eapply need_positive. by apply match_of_need.
Qed.

(** The matches found against the instructions [js]. *)
Lemma rawLoop_scan_of (cur : RegisterUsage) (i : nat) (js : list nat)
    (ms : list RawHazard) :
  (∀ j, j ∈ js → is_Some (registerUsage !! j)
                 ∧ 1 ≤ Z.of_nat i - Z.of_nat j ≤ 2) →
  Forall (λ m, 0 < stall_need m) ms →
  forLoop (rawStep forwardingEnabled registerUsage cur i) js
          (scan_of forwardingEnabled ms)
  = Some (scan_of forwardingEnabled
            (ms ++ (j ← js;
                    match registerUsage !! j with
                    | Some prev => matches_against cur i j prev
                    | None => []
                    end))).
Proof.
  revert ms. induction js as [|j js IH]; intros ms Hjs Hall.
  - simpl. by rewrite app_nil_r.
  - destruct (Hjs j ltac:(by left)) as [[prev Hprev] Hd].
    simpl forLoop. rewrite (rawStep_scan_of cur prev) by done. simpl.
    rewrite IH.
    + rewrite Hprev, <- app_assoc. done.
    + intros j' Hj'. apply Hjs. by right.
    + apply Forall_app. split; [done|].
      eapply need_positive. by apply matches_against_need.
Qed.

Lemma rawLoop_raw_matches (cur : RegisterUsage) (i n : nat) :
  covers registerUsage n → (i < n)%nat →
  registerUsage !! i = Some cur →
  forLoop (rawStep forwardingEnabled registerUsage cur i) (lookback i)
          {| rawHazards := []; maxStallCycles := 0; hazardDescription := "" |}
  = Some (scan_of forwardingEnabled (raw_matches registerUsage i)).
Proof.
  intros Hcov Hi Hcur. rewrite lookback_window.
  assert ({| rawHazards := []; maxStallCycles := 0; hazardDescription := "" |}
          = scan_of forwardingEnabled []) as ->.
  { unfold scan_of. by destruct forwardingEnabled. }
  rewrite rawLoop_scan_of; [|..|done].
  - unfold raw_matches. by rewrite Hcur.
  - intros j Hj. split; [|by apply window_distance].
    apply Hcov. apply window_lt in Hj. lia.
Qed.

Lemma raw_matches_need (i : nat) :
  Forall (λ m, 1 ≤ distance m ≤ 2 ∧ (fromInst m < i)%nat)
         (raw_matches registerUsage i).
Proof.
  unfold raw_matches. destruct (registerUsage !! i) as [cur|]; [|done].
  apply Forall_forall. intros m Hm.
  apply list_elem_of_bind in Hm as (j & Hm & Hj).
  destruct (registerUsage !! j) as [prev|]; [|by apply elem_of_nil in Hm].
  pose proof (matches_against_need cur prev i j (window_distance i j Hj)) as H.
  rewrite Forall_forall in H. destruct (H m Hm) as [Hd ->].
  split; [done|]. by apply window_lt.
Qed.

End ScanInvariant.

(** ** Loops that write one index at a time *)

Section ForLoop.

Context {S V : Type} (body : nat → S → option S) (look : S → nat → V).
Hypothesis body_frame :
  ∀ k st st' x, body k st = Some st' → x ≠ k → look st' x = look st x.

Lemma forLoop_frame (ks : list nat) (st st' : S) (x : nat) :
  forLoop body ks st = Some st' → x ∉ ks → look st' x = look st x.
Proof.
  revert st. induction ks as [|k ks IH]; intros st H Hx; simpl in H.
  - by simplify_eq.
  - destruct (body k st) as [st1|] eqn:Hk; simpl in H; [|done].
    apply not_elem_of_cons in Hx as [Hne Hx].
    rewrite (IH st1 H Hx). by apply (body_frame k).
Qed.

(** The entry for [k] is the one the body wrote at its turn, starting
    from the initial entry. *)
Lemma forLoop_reach (ks : list nat) (st st' : S) (k : nat) :
  NoDup ks → forLoop body ks st = Some st' → k ∈ ks →
  ∃ st0 st1, body k st0 = Some st1
             ∧ look st0 k = look st k ∧ look st' k = look st1 k.
Proof.
  revert st. induction ks as [|a ks IH]; intros st Hnd H Hk.
  - by apply elem_of_nil in Hk.
  - apply NoDup_cons in Hnd as [Ha Hnd]. simpl in H.
    destruct (body a st) as [sta|] eqn:Hbody; simpl in H; [|done].
    destruct (decide (k = a)) as [->|Hne].
    + exists st, sta. split_and!; [done..|].
      by apply (forLoop_frame ks sta).
    + apply elem_of_cons in Hk as [?|Hk]; [done|].
      destruct (IH sta Hnd H Hk) as (st0 & st1 & ? & E & ?).
      exists st0, st1. split_and!; [done| |done].
      rewrite E. by apply (body_frame a).
Qed.

End ForLoop.

Lemma forLoop_is_Some {S : Type} (body : nat → S → option S)
    (ks : list nat) (st : S) :
  (∀ k st, k ∈ ks → is_Some (body k st)) → is_Some (forLoop body ks st).
Proof.
  revert st. induction ks as [|a ks IH]; intros st H; simpl; [by eexists|].
  destruct (H a st ltac:(by left)) as [sta ->]. simpl.
  apply IH. intros k st1 Hk. apply H. by right.
Qed.

(** ** The main loop of the analyser *)

Section MainLoop.

Context (forwardingEnabled : bool) (registerUsage : gmap nat RegisterUsage).

Lemma wawLoop_frame (cur : RegisterUsage) (i : nat) (js : list nat)
    (h h' : gmap nat HazardInfo) (x : nat) :
  wawLoop registerUsage cur i js h = Some h' → x ≠ i → h' !! x = h !! x.
Proof.
  induction js as [|j js IH]; simpl; intros H Hx; [by simplify_eq|].
  destruct (registerUsage !! j) as [prev|]; simpl in H; [|done].
  destruct (negb (rd prev =? 0) && (rd cur =? rd prev)); [|by apply IH].
  simplify_eq. by rewrite lookup_insert_ne.
Qed.

Lemma wawLoop_spec (cur : RegisterUsage) (i : nat) (js : list nat)
    (h : gmap nat HazardInfo) :
  (∀ j, j ∈ js → is_Some (registerUsage !! j)) →
  wawLoop registerUsage cur i js h
  = Some (if existsb (waw_against registerUsage cur) js
          then <[i := wawHazard cur]> h else h).
Proof.
  induction js as [|j js IH]; intros Hjs; [done|].
  destruct (Hjs j ltac:(by left)) as [prev Hprev].
  simpl. unfold waw_against at 1. rewrite Hprev. simpl.
  destruct (negb (rd prev =? 0) && (rd cur =? rd prev)); [done|].
  simpl. apply IH. intros j' Hj'. apply Hjs. by right.
Qed.

(** The scan leaves at its first match: what comes after it in the
    window is not read. *)
Lemma wawLoop_stops (cur : RegisterUsage) (i j : nat) (js1 js2 : list nat)
    (h : gmap nat HazardInfo) :
  (∀ j', j' ∈ js1 →
     is_Some (registerUsage !! j') ∧ waw_against registerUsage cur j' = false) →
  waw_against registerUsage cur j = true →
  wawLoop registerUsage cur i (js1 ++ j :: js2) h
  = Some (<[i := wawHazard cur]> h).
Proof.
  intros Hjs1 Hj. induction js1 as [|a js1 IH]; simpl.
  - unfold waw_against in Hj.
    destruct (registerUsage !! j) as [prev|]; [|done]. simpl. by rewrite Hj.
  - destruct (Hjs1 a ltac:(by left)) as [[prev Hprev] Ha].
    unfold waw_against in Ha. rewrite Hprev in Ha. rewrite Hprev. simpl.
    rewrite Ha. apply IH. intros j' Hj'. apply Hjs1. by right.
Qed.

Lemma hazardStep_frame (i : nat) (res res' : Analysis) (x : nat) :
  hazardStep forwardingEnabled registerUsage i res = Some res' →
  x ≠ i → at_index res' x = at_index res x.
Proof.
  intros H Hx. destruct res as [[h f] s]. unfold hazardStep in H.
  destruct (registerUsage !! i) as [cur|]; simpl in H; [|done].
  case_decide; [by simplify_eq|].
  destruct (forLoop _ _ _) as [scan|]; simpl in H; [|done].
  destruct (rawHazards scan) as [|first rest].
  - destruct (negb (rd cur =? 0)); [|by simplify_eq].
    destruct (wawLoop _ _ _ _ _) as [h'|] eqn:Hw; simpl in H; [|done].
    simplify_eq. unfold at_index. simpl.
    by rewrite (wawLoop_frame _ _ _ _ _ _ Hw Hx).
  - repeat case_match; simplify_eq; unfold at_index; simpl;
      by rewrite ?lookup_insert_ne by done.
Qed.

Lemma max_stall_positive (ms : list RawHazard) (first : RawHazard)
    (rest : list RawHazard) :
  ms = first :: rest → Forall (λ m, 0 < stall_need m) ms → 0 < max_stall ms.
Proof.
  intros -> Hall. apply Forall_cons in Hall as [Hfirst _].
  pose proof (max_stall_ge (first :: rest) first ltac:(by left)). lia.
Qed.

(** What one turn of the main loop writes at its own index. *)
Lemma hazardStep_at (i n : nat) (cur : RegisterUsage) (res : Analysis) :
  covers registerUsage n → (1 ≤ i < n)%nat →
  registerUsage !! i = Some cur →
  at_index res i = (Some noHazard, Some [], Some 0) →
  ∃ res', hazardStep forwardingEnabled registerUsage i res = Some res'
          ∧ at_index res' i
            = expected_at forwardingEnabled registerUsage i cur.
Proof.
  intros Hcov Hi Hcur Hres. destruct res as [[h f] s].
  unfold at_index in Hres. simpl in Hres.
  injection Hres as Hh Hf Hs.
  unfold hazardStep, expected_at. rewrite Hcur. simpl.
  destruct (decide (type cur = J)) as [HJ|HJ].
  { eexists. split; [done|]. rewrite decide_True by (by right).
    unfold at_index. simpl. by rewrite Hh, Hf, Hs. }
  rewrite decide_False by (intros [?|?]; [lia | done]).
  rewrite (rawLoop_raw_matches _ _ cur i n) by (done || lia). simpl.
  destruct (raw_matches registerUsage i) as [|first rest] eqn:Hms.
  - destruct (negb (rd cur =? 0)) eqn:Hrd; simpl.
    + rewrite lookback_window, wawLoop_spec.
      2:{ intros j Hj. apply Hcov. apply window_lt in Hj. lia. }
      simpl. eexists. split; [done|]. unfold at_index, waw_match. simpl.
      rewrite Hf, Hs.
      destruct (existsb _ _); [by rewrite lookup_insert_eq | by rewrite Hh].
    + eexists. split; [done|]. unfold at_index. simpl.
      by rewrite Hh, Hf, Hs.
  - assert (0 < max_stall (first :: rest)) as Hpos.
    { eapply max_stall_positive; [done|]. rewrite <- Hms.
      eapply Forall_impl; [apply raw_matches_need|].
      unfold stall_need. intros m. simpl. lia. }
    destruct forwardingEnabled; simpl.
    + eexists. split; [done|]. unfold at_index. simpl.
      by rewrite !lookup_insert_eq, Hs.
    + replace (max_stall (first :: rest) >? 0) with true
        by (symmetry; apply Z.gtb_lt; lia).
      eexists. split; [done|]. unfold at_index. simpl.
      by rewrite !lookup_insert_eq, Hf.
Qed.

End MainLoop.

(** ** The analyser as a whole *)

Section DetectHazards.

Context (forwardingEnabled : bool) (registerUsage : gmap nat RegisterUsage).

Lemma hazardStep_is_Some (i n : nat) (res : Analysis) :
  covers registerUsage n → (i < n)%nat →
  is_Some (hazardStep forwardingEnabled registerUsage i res).
Proof.
  intros Hcov Hi. destruct res as [[h f] s].
  destruct (Hcov i Hi) as [cur Hcur].
  unfold hazardStep. rewrite Hcur. simpl.
  case_decide; [by eexists|].
  rewrite (rawLoop_raw_matches _ _ cur i n) by done. simpl.
  destruct (raw_matches registerUsage i) as [|first rest].
  - destruct (negb (rd cur =? 0)); [|by eexists].
    rewrite lookback_window, wawLoop_spec; [by eexists|].
    intros j Hj. apply Hcov. apply window_lt in Hj. lia.
  - repeat case_match; by eexists.
Qed.

Lemma initAnalysis_at_from (k a : nat) (res : Analysis) (x : nat) :
  at_index
    (foldl (λ '(hazards, forwardings, stalls) index,
              (<[index := noHazard]> hazards,
               <[index := []]> forwardings,
               <[index := 0]> stalls))
           res (seq a k)) x
  = if decide (a ≤ x < a + k)%nat then (Some noHazard, Some [], Some 0)
    else at_index res x.
Proof.
  revert a res. induction k as [|k IH]; intros a res.
  - simpl. rewrite decide_False by lia. done.
  - simpl seq. simpl foldl. rewrite IH. destruct res as [[h f] s].
    destruct (decide (x = a)) as [->|Hne].
    + rewrite decide_False by lia. rewrite decide_True by lia.
      unfold at_index. simpl. by rewrite !lookup_insert_eq.
    + unfold at_index. simpl. rewrite !lookup_insert_ne by done.
      repeat case_decide; (done || lia).
Qed.

Lemma initAnalysis_at (instructions : list string) (x : nat) :
  at_index (initAnalysis instructions) x
  = if decide (x < length instructions)%nat
    then (Some noHazard, Some [], Some 0) else (None, None, None).
Proof.
  unfold initAnalysis. rewrite initAnalysis_at_from.
  repeat case_decide; (done || lia).
Qed.

(** The analyser returns, and its three results hold, for each
    instruction, the entries [expected_at] describes. *)
Lemma detectHazards_at (instructions : list string) :
  covers registerUsage (length instructions) →
  ∃ res, detectHazards instructions registerUsage forwardingEnabled = Some res
         ∧ (∀ i cur, (i < length instructions)%nat →
              registerUsage !! i = Some cur →
              at_index res i
              = expected_at forwardingEnabled registerUsage i cur)
         ∧ (∀ i, (length instructions ≤ i)%nat →
              at_index res i = (None, None, None)).
Proof.
  intros Hcov. unfold detectHazards.
  set (n := length instructions) in *.
  destruct (forLoop_is_Some (hazardStep forwardingEnabled registerUsage)
              (seq 1 (n - 1)) (initAnalysis instructions)) as [res Hres].
  { intros k st Hk. apply elem_of_seq in Hk.
    apply (hazardStep_is_Some k n); [done | lia]. }
  exists res. split; [done|].
  pose proof (forLoop_frame _ at_index
                (hazardStep_frame forwardingEnabled registerUsage))
    as Hframe.
  split.
  - intros i cur Hi Hcur. destruct (decide (i = 0%nat)) as [->|Hne].
    + rewrite (Hframe _ _ _ 0%nat Hres) by (rewrite elem_of_seq; lia).
      rewrite initAnalysis_at, decide_True by done.
      unfold expected_at. rewrite decide_True by (by left). done.
    + destruct (forLoop_reach _ at_index
                  (hazardStep_frame forwardingEnabled registerUsage)
                  _ _ _ i (NoDup_seq _ _) Hres)
        as (st0 & st1 & Hstep & Hbefore & Hafter).
      { rewrite elem_of_seq. lia. }
      rewrite initAnalysis_at, decide_True in Hbefore by done.
      destruct (hazardStep_at forwardingEnabled registerUsage i n cur st0)
        as (res' & Hstep' & Hat); [done | lia | done | done |].
      rewrite Hafter. by simplify_eq.
  - intros i Hi.
    rewrite (Hframe _ _ _ i Hres) by (rewrite elem_of_seq; lia).
    rewrite initAnalysis_at, decide_False by lia. done.
Qed.

End DetectHazards.

(** ** What the analyser records *)

Section Records.

Lemma describe_nonempty (m : RawHazard) :
  String.eqb (describe m) "" = false.
Proof.
  apply String.eqb_neq. unfold describe.
  destruct (sourceReg m); [done|]. by rewrite append_String.
Qed.

Lemma detectHazards_lookup (forwardingEnabled : bool)
    (registerUsage : gmap nat RegisterUsage) (instructions : list string) :
  covers registerUsage (length instructions) →
  ∃ h f s,
    detectHazards instructions registerUsage forwardingEnabled
    = Some (h, f, s)
    ∧ ∀ i cur, (i < length instructions)%nat →
        registerUsage !! i = Some cur →
        (h !! i, f !! i, s !! i)
        = expected_at forwardingEnabled registerUsage i cur.
Proof.
  intros Hcov.
  destruct (detectHazards_at forwardingEnabled registerUsage instructions
              Hcov) as ([[h f] s] & Hres & Hat & _).
  exists h, f, s. split; [done|]. intros i cur Hi Hcur.
  by rewrite <- (Hat i cur Hi Hcur).
Qed.

Lemma raw_matches_first (registerUsage : gmap nat RegisterUsage) :
  raw_matches registerUsage 0 = [].
Proof. unfold raw_matches. by destruct (registerUsage !! 0%nat). Qed.

(** A match names an instruction of the window that writes a nonzero
    register which the instruction reads. *)
Lemma raw_matches_source (registerUsage : gmap nat RegisterUsage)
    (i : nat) (cur : RegisterUsage) (m : RawHazard) :
  registerUsage !! i = Some cur → m ∈ raw_matches registerUsage i →
  ∃ prev, fromInst m ∈ window i
          ∧ registerUsage !! fromInst m = Some prev
          ∧ rd prev ≠ 0
          ∧ (rs cur = rd prev ∨ rt cur = rd prev)
          ∧ distance m = Z.of_nat i - Z.of_nat (fromInst m).
Proof.
  intros Hcur Hm. unfold raw_matches in Hm. rewrite Hcur in Hm.
  apply list_elem_of_bind in Hm as (j & Hm & Hj).
  destruct (registerUsage !! j) as [prev|] eqn:Hprev;
    [|by apply elem_of_nil in Hm].
  unfold matches_against in Hm. case_decide; [by apply elem_of_nil in Hm|].
  apply elem_of_app in Hm as [Hm|Hm]; unfold match_of in Hm;
    (case_decide; [|by apply elem_of_nil in Hm]);
    apply list_elem_of_singleton in Hm; subst m; simpl;
    exists prev; split_and!; auto.
Qed.

(** Conversely, a register read from an instruction of the window that
    writes it is a match. *)
Lemma raw_matches_nonempty (registerUsage : gmap nat RegisterUsage)
    (i j : nat) (cur prev : RegisterUsage) :
  registerUsage !! i = Some cur → j ∈ window i →
  registerUsage !! j = Some prev → rd prev ≠ 0 →
  rs cur = rd prev ∨ rt cur = rd prev →
  raw_matches registerUsage i ≠ [].
Proof.
  intros Hcur Hj Hprev Hrd Hreg Hnil.
  assert (∀ m, m ∉ raw_matches registerUsage i) as Hnone.
  { intros m. rewrite Hnil. apply not_elem_of_nil. }
  unfold raw_matches in Hnone. rewrite Hcur in Hnone.
  destruct Hreg as [Hreg|Hreg].
  - apply (Hnone {| sourceReg := "rs"; regNum := rs cur; fromInst := j;
                    distance := Z.of_nat i - Z.of_nat j |}).
    apply list_elem_of_bind. exists j. split; [|done].
    rewrite Hprev. unfold matches_against. rewrite decide_False by done.
    apply elem_of_app. left. unfold match_of.
    rewrite decide_True by done. by left.
  - apply (Hnone {| sourceReg := "rt"; regNum := rt cur; fromInst := j;
                    distance := Z.of_nat i - Z.of_nat j |}).
    apply list_elem_of_bind. exists j. split; [|done].
    rewrite Hprev. unfold matches_against. rewrite decide_False by done.
    apply elem_of_app. right. unfold match_of.
    rewrite decide_True by done. by left.
Qed.

Lemma waw_match_source (registerUsage : gmap nat RegisterUsage)
    (cur : RegisterUsage) (i : nat) :
  waw_match registerUsage cur i = true →
  ∃ j prev, j ∈ window i ∧ registerUsage !! j = Some prev
            ∧ rd prev ≠ 0 ∧ rd cur = rd prev.
Proof.
  unfold waw_match. intros H. apply existsb_exists in H as (j & Hj & H).
  unfold waw_against in H.
  destruct (registerUsage !! j) as [prev|] eqn:Hprev; [|done].
  apply andb_prop in H as [H1 H2].
  exists j, prev. split_and!; [by apply list_elem_of_In | done | |].
  - intros E. rewrite E in H1. done.
  - by apply Z.eqb_eq.
Qed.

Lemma forwardingOf_edge (i : nat) (ms : list RawHazard) :
  Forall (λ m, 1 ≤ distance m ≤ 2) ms →
  Forall2 (edge_of_match i) ms (forwardingOf i <$> ms).
Proof.
  induction 1 as [|m ms Hm _ IH]; [by constructor|].
  rewrite fmap_cons. constructor; [|done].
  unfold edge_of_match, forwardingOf. simpl.
  split_and!; try done.
  - by intros ->.
  - by intros ->.
Qed.

End Records.

(** ** Scenarios of the analyser *)

Lemma covers_intro (registerUsage : gmap nat RegisterUsage) (n : nat) :
  forallb (λ k, bool_decide (is_Some (registerUsage !! k))) (seq 0 n) = true →
  covers registerUsage n.
Proof.
  intros H k Hk. rewrite forallb_forall in H.
  specialize (H k). rewrite bool_decide_eq_true in H.
  apply H. apply in_seq. lia.
Qed.

Example scenario_B :
  detectHazards add_then_use (decoded add_then_use) false
    ≫= (λ '(h, f, s), Some (h !! 1%nat, f !! 1%nat, s !! 1%nat))
  = Some (Some {| hazard_type := RAW;
                  description := "rs($7) depends on instruction 0";
                  canForward := false; stallCycles := 2 |},
          Some [], Some 2).
Proof. vm_compute. reflexivity. Qed.

Example scenario_C :
  detectHazards add_then_use (decoded add_then_use) true
    ≫= (λ '(h, f, s), Some (h !! 1%nat, f !! 1%nat, s !! 1%nat))
  = Some (Some {| hazard_type := RAW;
                  description := "Depends on previous instruction 0";
                  canForward := true; stallCycles := 0 |},
          Some [ {| from := 0; to := 1; fromStage := EX; toStage := EX;
                    register := "$7" |} ],
          Some 0).
Proof. vm_compute. reflexivity. Qed.

Example scenario_D :
  detectHazards write_twice (decoded write_twice) false
    ≫= (λ '(h, f, s), Some (h !! 1%nat, f !! 1%nat, s !! 1%nat))
  = Some (Some {| hazard_type := WAW;
                  description := "Both instructions write to $7";
                  canForward := true; stallCycles := 0 |},
          Some [], Some 0).
Proof. vm_compute. reflexivity. Qed.

(** ** Stalls without forwarding *)

(** C2, as stated, fails on a jump: the second instruction of
    [add_then_jump] is of kind J, its rs field (7) is the nonzero
    destination of the instruction one place before it, and with forwarding
    disabled the analyser still records no hazard and no stall for it. *)
Lemma raw_stall_jump_counterexample :
  (0%nat ∈ window 1
   ∧ (rd <$> decoded add_then_jump !! 0%nat) = Some 7
   ∧ (rs <$> decoded add_then_jump !! 1%nat) = Some 7
   ∧ (type <$> decoded add_then_jump !! 1%nat) = Some J)
  ∧ detectHazards add_then_jump (decoded add_then_jump) false
      ≫= (λ '(h, f, s), Some (h !! 1%nat, s !! 1%nat))
    = Some (Some noHazard, Some 0).
Proof.
  split; [split_and!|]; [by left | by vm_compute..].
Qed.

(** C2, amended.  With forwarding disabled, an instruction at index
    [i >= 1] that is not of kind J and whose rs or rt equals the nonzero
    destination register of an instruction at distance 1 or 2 gets a hazard
    record of kind RAW whose stall count is the maximum of [3 - distance]
    over all such matches; the same count is its entry in [stalls]; and the
    description is that of the first match, in the order smaller index
    first and rs before rt, that attains the maximum. *)
Theorem raw_stall_count (instructions : list string)
    (registerUsage : gmap nat RegisterUsage) (i j : nat)
    (cur prev : RegisterUsage) :
  covers registerUsage (length instructions) →
  (i < length instructions)%nat →
  registerUsage !! i = Some cur →
  type cur ≠ J →
  j ∈ window i →
  registerUsage !! j = Some prev →
  rd prev ≠ 0 →
  rs cur = rd prev ∨ rt cur = rd prev →
  ∃ h f s m,
    detectHazards instructions registerUsage false = Some (h, f, s)
    ∧ first_max (raw_matches registerUsage i) = Some m
    ∧ h !! i = Some {| hazard_type := RAW;
                       description := describe m;
                       canForward := false;
                       stallCycles := max_stall (raw_matches registerUsage i) |}
    ∧ s !! i = Some (max_stall (raw_matches registerUsage i)).
Proof.
  intros Hcov Hi Hcur HJ Hj Hprev Hrd Hreg.
  pose proof (raw_matches_nonempty _ _ _ _ _ Hcur Hj Hprev Hrd Hreg) as Hne.
  destruct (detectHazards_lookup false registerUsage instructions Hcov)
    as (h & f & s & Hres & Hat).
  specialize (Hat i cur Hi Hcur). unfold expected_at in Hat.
  apply window_lt in Hj.
  rewrite decide_False in Hat by (intros [?|?]; [lia | done]).
  assert (Forall (λ m, 0 < stall_need m) (raw_matches registerUsage i))
    as Hpos.
  { eapply Forall_impl; [apply raw_matches_need|].
    unfold stall_need. intros m. simpl. lia. }
  destruct (first_max_is_Some _ Hne Hpos) as [m Hm].
  exists h, f, s, m. split; [done|]. split; [done|].
  destruct (raw_matches registerUsage i) as [|first rest] eqn:Hms; [done|].
  simpl in Hat. injection Hat as Hh _ Hs.
  split; [|done]. rewrite Hh. f_equal.
  unfold rawHazard, scan_of. cbn [hazardDescription maxStallCycles].
  rewrite Hm, describe_nonempty. done.
Qed.

Lemma raw_stall_count_witness :
  ∃ h f s m,
    detectHazards add_then_use (decoded add_then_use) false = Some (h, f, s)
    ∧ first_max (raw_matches (decoded add_then_use) 1) = Some m
    ∧ h !! 1%nat
      = Some {| hazard_type := RAW;
                description := describe m;
                canForward := false;
                stallCycles :=
                  max_stall (raw_matches (decoded add_then_use) 1) |}
    ∧ s !! 1%nat = Some (max_stall (raw_matches (decoded add_then_use) 1)).
Proof.
  apply (raw_stall_count add_then_use (decoded add_then_use) 1 0
           {| rs := 7; rt := 5; rd := 8; opcode := 0; funct := 32; type := R |}
           {| rs := 5; rt := 6; rd := 7; opcode := 0; funct := 32; type := R |}).
  - apply covers_intro. vm_compute. reflexivity.
  - simpl. lia.
  - vm_compute. reflexivity.
  - simpl. discriminate.
  - by left.
  - vm_compute. reflexivity.
  - simpl. lia.
  - left. reflexivity.
Defined.

(** ** Forwarding edges *)

(** C3, as stated, fails on a jump: with forwarding enabled the second
    instruction of [add_then_jump], of kind J, has one RAW match (its rs
    field against the destination of the instruction before it) and yet no
    forwarding edge. *)
Lemma forwarding_jump_counterexample :
  raw_matches (decoded add_then_jump) 1
  = [ {| sourceReg := "rs"; regNum := 7; fromInst := 0; distance := 1 |} ]
  ∧ detectHazards add_then_jump (decoded add_then_jump) true
      ≫= (λ '(h, f, s), Some (f !! 1%nat))
    = Some (Some []).
Proof. split; by vm_compute. Qed.

(** C3, amended.  With forwarding enabled every instruction has stall
    count 0; an instruction that is not of kind J has exactly one forwarding
    edge per RAW match, in the order of the matches, each from the matched
    instruction to this one, with [fromStage] EX at distance 1 and MEM at
    distance 2 and [toStage] EX, and when it has a match its record is RAW
    with zero stalls; an instruction with no RAW match, and an instruction
    of kind J, has no forwarding edge. *)
Theorem forwarding_edges (instructions : list string)
    (registerUsage : gmap nat RegisterUsage) :
  covers registerUsage (length instructions) →
  ∃ h f s,
    detectHazards instructions registerUsage true = Some (h, f, s)
    ∧ ∀ i cur, (i < length instructions)%nat →
        registerUsage !! i = Some cur →
        s !! i = Some 0
        ∧ (type cur ≠ J →
           ∃ edges, f !! i = Some edges
                    ∧ Forall2 (edge_of_match i)
                              (raw_matches registerUsage i) edges)
        ∧ (type cur ≠ J → raw_matches registerUsage i ≠ [] →
           ∃ hz, h !! i = Some hz ∧ hazard_type hz = RAW
                 ∧ canForward hz = true ∧ stallCycles hz = 0)
        ∧ (type cur = J ∨ raw_matches registerUsage i = [] →
           f !! i = Some []).
Proof.
  intros Hcov.
  destruct (detectHazards_lookup true registerUsage instructions Hcov)
    as (h & f & s & Hres & Hat).
  exists h, f, s. split; [done|]. intros i cur Hi Hcur.
  specialize (Hat i cur Hi Hcur). unfold expected_at in Hat.
  pose proof (raw_matches_need registerUsage i) as Hneed.
  destruct (decide (i = 0%nat ∨ type cur = J)) as [H0|H0].
  - injection Hat as Hh Hf Hs. split_and!; [done| | |done].
    + intros HJ. destruct H0 as [->|?]; [|done].
      exists []. rewrite raw_matches_first. by split.
    + intros HJ Hne. destruct H0 as [->|?]; [|done].
      by rewrite raw_matches_first in Hne.
  - destruct (raw_matches registerUsage i) as [|first rest] eqn:Hms.
    + injection Hat as Hh Hf Hs. split_and!; [done| |done|done].
      intros _. exists []. by split.
    + simpl in Hat. injection Hat as Hh Hf Hs. split_and!; [done| | |].
      * intros _. eexists. split; [done|].
        apply forwardingOf_edge.
        eapply Forall_impl; [exact Hneed|]. by intros m [? _].
      * intros _ _. eexists. by split.
      * intros [HJ|?]; [|done]. destruct H0. by right.
Qed.

Lemma forwarding_edges_witness :
  ∃ h f s,
    detectHazards add_then_use (decoded add_then_use) true = Some (h, f, s)
    ∧ ∀ i cur, (i < length add_then_use)%nat →
        decoded add_then_use !! i = Some cur →
        s !! i = Some 0
        ∧ (type cur ≠ J →
           ∃ edges, f !! i = Some edges
                    ∧ Forall2 (edge_of_match i)
                              (raw_matches (decoded add_then_use) i) edges)
        ∧ (type cur ≠ J → raw_matches (decoded add_then_use) i ≠ [] →
           ∃ hz, h !! i = Some hz ∧ hazard_type hz = RAW
                 ∧ canForward hz = true ∧ stallCycles hz = 0)
        ∧ (type cur = J ∨ raw_matches (decoded add_then_use) i = [] →
           f !! i = Some []).
Proof.
  apply (forwarding_edges add_then_use (decoded add_then_use)).
  apply covers_intro. vm_compute. reflexivity.
Defined.

(** ** Jumps and the first instruction *)

(** C4, as stated, fails on [jal]: in [call_then_return] the first
    instruction is of kind J and writes register 31, the second reads
    register 31, and the analyser records a RAW hazard against the second
    whose source is the first: the description (forwarding disabled) and the
    forwarding edge (forwarding enabled) both name instruction 0. *)
Lemma jump_source_counterexample :
  (type <$> decoded call_then_return !! 0%nat) = Some J
  ∧ detectHazards call_then_return (decoded call_then_return) false
      ≫= (λ '(h, f, s), Some (h !! 1%nat, s !! 1%nat))
    = Some (Some {| hazard_type := RAW;
                    description := "rs($31) depends on instruction 0";
                    canForward := false; stallCycles := 2 |},
            Some 2)
  ∧ detectHazards call_then_return (decoded call_then_return) true
      ≫= (λ '(h, f, s), Some (hazard_type <$> h !! 1%nat, f !! 1%nat))
    = Some (Some RAW,
            Some [ {| from := 0; to := 1; fromStage := EX; toStage := EX;
                      register := "$31" |} ]).
Proof. split_and!; by vm_compute. Qed.

(** C4, amended.  Under either forwarding policy an instruction of kind J,
    and the instruction at index 0, has the record "no hazard" with zero
    stalls and no forwarding edge.  An instruction is a source only through
    a nonzero destination register: every recorded RAW or WAW hazard has a
    source at distance 1 or 2 whose destination register is nonzero and is
    read (RAW) or written (WAW) by the instruction, and every forwarding
    edge starts at such an instruction.  So a jump with destination 0 is
    never a source; nothing is said of [jal], whose destination is 31. *)
Theorem jump_and_first_records (instructions : list string)
    (registerUsage : gmap nat RegisterUsage) (forwardingEnabled : bool) :
  covers registerUsage (length instructions) →
  ∃ h f s,
    detectHazards instructions registerUsage forwardingEnabled
    = Some (h, f, s)
    ∧ ∀ i cur, (i < length instructions)%nat →
        registerUsage !! i = Some cur →
        (i = 0%nat ∨ type cur = J →
         h !! i = Some noHazard ∧ f !! i = Some [] ∧ s !! i = Some 0)
        ∧ (∀ hz, h !! i = Some hz → hazard_type hz = RAW →
           ∃ j prev, j ∈ window i ∧ registerUsage !! j = Some prev
                     ∧ rd prev ≠ 0
                     ∧ (rs cur = rd prev ∨ rt cur = rd prev))
        ∧ (∀ hz, h !! i = Some hz → hazard_type hz = WAW →
           ∃ j prev, j ∈ window i ∧ registerUsage !! j = Some prev
                     ∧ rd prev ≠ 0 ∧ rd cur = rd prev)
        ∧ (∀ edges e, f !! i = Some edges → e ∈ edges →
           ∃ prev, from e ∈ window i
                   ∧ registerUsage !! from e = Some prev ∧ rd prev ≠ 0).
Proof.
  intros Hcov.
  destruct (detectHazards_lookup forwardingEnabled registerUsage instructions
              Hcov) as (h & f & s & Hres & Hat).
  exists h, f, s. split; [done|]. intros i cur Hi Hcur.
  specialize (Hat i cur Hi Hcur). unfold expected_at in Hat.
  destruct (decide (i = 0%nat ∨ type cur = J)) as [H0|H0].
  { injection Hat as Hh Hf Hs. split_and!.
    - done.
    - intros hz Hhz. rewrite Hh in Hhz. by simplify_eq.
    - intros hz Hhz. rewrite Hh in Hhz. by simplify_eq.
    - intros edges e Hedges. rewrite Hf in Hedges. simplify_eq.
      by intros ?%elem_of_nil. }
  split; [by intros ?|].
  destruct (raw_matches registerUsage i) as [|first rest] eqn:Hms.
  - injection Hat as Hh Hf Hs. split_and!.
    + intros hz Hhz. rewrite Hh in Hhz. simplify_eq.
      by destruct (negb (rd cur =? 0) && waw_match registerUsage cur i).
    + intros hz Hhz Htype. rewrite Hh in Hhz. injection Hhz as <-.
      destruct (negb (rd cur =? 0)); [|done].
      destruct (waw_match registerUsage cur i) eqn:Hw; [|done].
      by apply waw_match_source.
    + intros edges e Hedges. rewrite Hf in Hedges. simplify_eq.
      by intros ?%elem_of_nil.
  - cbv beta zeta iota in Hat. injection Hat as Hh Hf Hs.
    assert (∀ m, m ∈ first :: rest →
              ∃ prev, fromInst m ∈ window i
                      ∧ registerUsage !! fromInst m = Some prev
                      ∧ rd prev ≠ 0
                      ∧ (rs cur = rd prev ∨ rt cur = rd prev)) as Hsrc.
    { intros m Hm. rewrite <- Hms in Hm.
      destruct (raw_matches_source _ _ _ _ Hcur Hm)
        as (prev & ? & ? & ? & ? & _).
      by exists prev. }
    split_and!.
    + intros hz Hhz _.
      destruct (Hsrc first ltac:(by left)) as (prev & ? & ? & ? & ?).
      by exists (fromInst first), prev.
    + intros hz Hhz. rewrite Hh in Hhz. by simplify_eq.
    + intros edges e Hedges He. rewrite Hf in Hedges. simplify_eq.
      destruct forwardingEnabled; [|by apply elem_of_nil in He].
      change (e ∈ forwardingOf i <$> first :: rest) in He.
      apply list_elem_of_fmap in He as (m & -> & Hm).
      destruct (Hsrc m Hm) as (prev & ? & ? & ? & _).
      by exists prev.
Qed.


Lemma jump_and_first_records_witness :
  ∃ h f s,
    detectHazards add_then_jump (decoded add_then_jump) false = Some (h, f, s)
    ∧ ∀ i cur, (i < length add_then_jump)%nat →
        decoded add_then_jump !! i = Some cur →
        (i = 0%nat ∨ type cur = J →
         h !! i = Some noHazard ∧ f !! i = Some [] ∧ s !! i = Some 0)
        ∧ (∀ hz, h !! i = Some hz → hazard_type hz = RAW →
           ∃ j prev, j ∈ window i ∧ decoded add_then_jump !! j = Some prev
                     ∧ rd prev ≠ 0
                     ∧ (rs cur = rd prev ∨ rt cur = rd prev))
        ∧ (∀ hz, h !! i = Some hz → hazard_type hz = WAW →
           ∃ j prev, j ∈ window i ∧ decoded add_then_jump !! j = Some prev
                     ∧ rd prev ≠ 0 ∧ rd cur = rd prev)
        ∧ (∀ edges e, f !! i = Some edges → e ∈ edges →
           ∃ prev, from e ∈ window i
                   ∧ decoded add_then_jump !! from e = Some prev
                   ∧ rd prev ≠ 0).
Proof.
  apply (jump_and_first_records add_then_jump (decoded add_then_jump) false).
  apply covers_intro. vm_compute. reflexivity.
Defined.

(** ** Write after write *)

(** C5.  Under either forwarding policy, for an instruction at index
    [i >= 1] that is not of kind J and has no RAW match: if its destination
    register is nonzero and some instruction at distance 1 or 2 writes the
    same nonzero register, its record is WAW with [canForward] true and zero
    stalls, and the scan of the window ends at the first such instruction
    whatever follows it; if no instruction of the window is such a match,
    its record is "no hazard". *)
Theorem waw_record (instructions : list string)
    (registerUsage : gmap nat RegisterUsage) (forwardingEnabled : bool)
    (i : nat) (cur : RegisterUsage) :
  covers registerUsage (length instructions) →
  (1 ≤ i < length instructions)%nat →
  registerUsage !! i = Some cur →
  type cur ≠ J →
  raw_matches registerUsage i = [] →
  ∃ h f s,
    detectHazards instructions registerUsage forwardingEnabled
    = Some (h, f, s)
    ∧ (rd cur ≠ 0 →
       (∃ j prev, j ∈ window i ∧ registerUsage !! j = Some prev
                  ∧ rd prev ≠ 0 ∧ rd prev = rd cur) →
       h !! i = Some (wawHazard cur)
       ∧ hazard_type (wawHazard cur) = WAW
       ∧ canForward (wawHazard cur) = true
       ∧ stallCycles (wawHazard cur) = 0
       ∧ s !! i = Some 0)
    ∧ (∀ js1 j js2 h0,
         (∀ j', j' ∈ js1 → is_Some (registerUsage !! j')
                           ∧ waw_against registerUsage cur j' = false) →
         waw_against registerUsage cur j = true →
         wawLoop registerUsage cur i (js1 ++ j :: js2) h0
         = Some (<[i := wawHazard cur]> h0))
    ∧ (waw_match registerUsage cur i = false → h !! i = Some noHazard).
Proof.
  intros Hcov Hi Hcur HJ Hms.
  destruct (detectHazards_lookup forwardingEnabled registerUsage instructions
              Hcov) as (h & f & s & Hres & Hat).
  exists h, f, s. split; [done|].
  specialize (Hat i cur ltac:(lia) Hcur). unfold expected_at in Hat.
  rewrite decide_False in Hat by (intros [?|?]; [lia | done]).
  rewrite Hms in Hat. injection Hat as Hh _ Hs.
  split_and!.
  - intros Hrd (j & prev & Hj & Hprev & Hprd & Heq).
    assert (waw_match registerUsage cur i = true) as Hw.
    { unfold waw_match. apply existsb_exists. exists j.
      split; [by apply list_elem_of_In|].
      unfold waw_against. rewrite Hprev.
      apply andb_true_intro. split.
      - apply negb_true_iff. by apply Z.eqb_neq.
      - apply Z.eqb_eq. done. }
    rewrite Hw in Hh.
    replace (rd cur =? 0) with false in Hh by (symmetry; by apply Z.eqb_neq).
    by split_and!.
  - intros js1 j js2 h0. apply wawLoop_stops.
  - intros Hw. rewrite Hw, andb_false_r in Hh. done.
Qed.

Lemma waw_record_witness :
  ∃ h f s,
    detectHazards write_twice (decoded write_twice) true = Some (h, f, s)
    ∧ (7 ≠ 0 →
       (∃ j prev, j ∈ window 1 ∧ decoded write_twice !! j = Some prev
                  ∧ rd prev ≠ 0 ∧ rd prev = 7) →
       h !! 1%nat
       = Some (wawHazard {| rs := 1; rt := 2; rd := 7; opcode := 0;
                            funct := 32; type := R |})
       ∧ WAW = WAW ∧ true = true ∧ 0 = 0 ∧ s !! 1%nat = Some 0)
    ∧ (∀ js1 j js2 h0,
         (∀ j', j' ∈ js1 →
            is_Some (decoded write_twice !! j')
            ∧ waw_against (decoded write_twice)
                {| rs := 1; rt := 2; rd := 7; opcode := 0;
                   funct := 32; type := R |} j' = false) →
         waw_against (decoded write_twice)
           {| rs := 1; rt := 2; rd := 7; opcode := 0;
              funct := 32; type := R |} j = true →
         wawLoop (decoded write_twice)
           {| rs := 1; rt := 2; rd := 7; opcode := 0;
              funct := 32; type := R |} 1 (js1 ++ j :: js2) h0
         = Some (<[1%nat :=
                     wawHazard {| rs := 1; rt := 2; rd := 7; opcode := 0;
                                  funct := 32; type := R |}]> h0))
    ∧ (waw_match (decoded write_twice)
         {| rs := 1; rt := 2; rd := 7; opcode := 0;
            funct := 32; type := R |} 1 = false →
       h !! 1%nat = Some noHazard).
Proof.
  apply (waw_record write_twice (decoded write_twice) true 1
           {| rs := 1; rt := 2; rd := 7; opcode := 0; funct := 32; type := R |}).
  - apply covers_intro. vm_compute. reflexivity.
  - simpl. lia.
  - vm_compute. reflexivity.
  - simpl. discriminate.
  - vm_compute. reflexivity.
Defined.

(** ** Stall sums *)

Section Stalls.

Lemma calculatePrecedingStalls_S (stalls : gmap nat Z) (k : nat) :
  calculatePrecedingStalls stalls (S k)
  = calculatePrecedingStalls stalls k + stallAt stalls k.
Proof.
  unfold calculatePrecedingStalls. by rewrite seq_S, foldl_app.
Qed.

Lemma calculatePrecedingStalls_ext (s1 s2 : gmap nat Z) (n : nat) :
  (∀ k, (k < n)%nat → s1 !! k = s2 !! k) →
  calculatePrecedingStalls s1 n = calculatePrecedingStalls s2 n.
Proof.
  induction n as [|n IH]; intros H; [done|].
  rewrite !calculatePrecedingStalls_S, IH by (intros; apply H; lia).
  unfold stallAt. by rewrite H by lia.
Qed.

Lemma stallAt_nonneg (stalls : gmap nat Z) (k : nat) :
  (∀ k v, stalls !! k = Some v → 0 ≤ v) → 0 ≤ stallAt stalls k.
Proof.
  intros H. unfold stallAt.
  destruct (stalls !! k) as [v|] eqn:E; simpl; [by eapply H | lia].
Qed.

Lemma calculatePrecedingStalls_mono (stalls : gmap nat Z) (a b : nat) :
  (∀ k v, stalls !! k = Some v → 0 ≤ v) → (a ≤ b)%nat →
  calculatePrecedingStalls stalls a ≤ calculatePrecedingStalls stalls b.
Proof.
  intros Hnn Hab. induction Hab as [|b Hab IH]; [lia|].
  rewrite calculatePrecedingStalls_S.
  pose proof (stallAt_nonneg stalls b Hnn). lia.
Qed.

(** The sum over the values of [stalls] is the sum over its indices. *)
Lemma totalStallCycles_sum (stalls : gmap nat Z) (n : nat) :
  keys_below stalls n →
  totalStallCycles stalls = calculatePrecedingStalls stalls n.
Proof.
  revert stalls. induction n as [|n IH]; intros stalls Hkeys.
  - assert (stalls = ∅) as ->.
    { apply map_empty. intros k. apply eq_None_not_Some.
      rewrite (Hkeys k). lia. }
    unfold totalStallCycles. by rewrite map_fold_empty.
  - destruct (proj2 (Hkeys n) ltac:(lia)) as [v Hv].
    unfold totalStallCycles.
    rewrite (map_fold_delete_L _ _ n v) by (done || intros; lia).
    fold (totalStallCycles (delete n stalls)). rewrite (IH (delete n stalls)).
    + rewrite calculatePrecedingStalls_S. unfold stallAt.
      rewrite Hv. simpl. f_equal.
      apply calculatePrecedingStalls_ext. intros k Hk.
      apply lookup_delete_ne. lia.
    + intros k. destruct (decide (k = n)) as [->|Hne].
      * rewrite lookup_delete_eq. split; [by intros [? ?] | lia].
      * rewrite lookup_delete_ne by done. rewrite (Hkeys k). lia.
Qed.

Lemma totalStallCycles_nonneg (stalls : gmap nat Z) (n : nat) :
  keys_below stalls n → (∀ k v, stalls !! k = Some v → 0 ≤ v) →
  0 ≤ totalStallCycles stalls.
Proof.
  intros Hkeys Hnn. rewrite (totalStallCycles_sum stalls n Hkeys).
  apply (calculatePrecedingStalls_mono stalls 0 n Hnn). lia.
Qed.

End Stalls.

(** ** One tick of the clock *)

Section Tick.

Context (st : SimulationState) (nextCycle : Z).

Lemma stageStep_insert (acc : gmap nat (option Z) * Z) (index : nat) :
  (stageStep st nextCycle acc index).1
  = <[index := stageOf st nextCycle index]> acc.1.
Proof.
  destruct acc as [stages pending]. unfold stageStep, stageOf, stageIndexOf.
  by destruct (_ && _).
Qed.

Lemma stageStep_pending (m index : nat) (acc : gmap nat (option Z) * Z) :
  (index < m)%nat → pending_ok st nextCycle m acc.2 →
  pending_ok st nextCycle m (stageStep st nextCycle acc index).2.
Proof.
  intros Hm Hok. destruct acc as [stages pending].
  unfold stageStep. fold (stageIndexOf st nextCycle index).
  destruct (_ && _); [|done]. simpl.
  destruct (stalls st !! index) as [stall|] eqn:Hstall; [|done].
  destruct ((stageIndexOf st nextCycle index =? 1) && (stall >? 0)
            && (pending =? 0)) eqn:Hc; [|done].
  apply andb_prop in Hc as [Hc _]. apply andb_prop in Hc as [H1 H2].
  right. exists index. split_and!; [done| |done|].
  - by apply Z.eqb_eq.
  - by apply Z.gtb_lt.
Qed.

Lemma tick_fold (m : nat) (pending0 : Z) :
  pending0 = 0 →
  ∃ stages pending,
    foldl (stageStep st nextCycle) (∅, pending0) (seq 0 m)
    = (stages, pending)
    ∧ (∀ k, stages !! k
            = if decide (k < m)%nat then Some (stageOf st nextCycle k)
              else None)
    ∧ pending_ok st nextCycle m pending.
Proof.
  intros ->. induction m as [|m (stages & pending & Hfold & Hstages & Hok)].
  - exists ∅, 0. split_and!; [done| |by left].
    intros k. rewrite decide_False by lia. apply lookup_empty.
  - rewrite seq_S, foldl_app, Hfold. simpl.
    destruct (stageStep st nextCycle (stages, pending) m)
      as [stages' pending'] eqn:Hstep.
    exists stages', pending'. split_and!; [done| |].
    + intros k.
      pose proof (stageStep_insert (stages, pending) m) as Hins.
      rewrite Hstep in Hins. simpl in Hins. rewrite Hins.
      destruct (decide (k = m)) as [->|Hne].
      * rewrite lookup_insert_eq, decide_True by lia. done.
      * rewrite lookup_insert_ne, Hstages by done.
        repeat case_decide; (done || lia).
    + pose proof (stageStep_pending (S m) m (stages, pending)) as Hp.
      rewrite Hstep in Hp. apply Hp; [lia|].
      destruct Hok as [->|(k & ? & ? & ? & ?)]; [by left|].
      right. exists k. split_and!; (done || lia).
Qed.

End Tick.

(** ** The three shapes of a tick *)

Section NextState.

Context (st : SimulationState).

Lemma calculateNextState_idle :
  isRunning st = false ∨ isFinished st = true →
  calculateNextState st = st.
Proof.
  intros H. unfold calculateNextState.
  destruct H as [-> | ->]; [done|]. by rewrite orb_true_r.
Qed.

Lemma calculateNextState_stalled :
  isRunning st = true → isFinished st = false →
  0 < currentStallCycles st →
  calculateNextState st
  = {| instructions := instructions st;
       currentCycle := currentCycle st + 1;
       maxCycles := maxCycles st;
       isRunning := isRunning st;
       stageCount := stageCount st;
       instructionStages := instructionStages st;
       isFinished := isFinished st;
       registerUsage := registerUsage st;
       hazards := hazards st;
       forwardings := forwardings st;
       stalls := stalls st;
       currentStallCycles := currentStallCycles st - 1;
       forwardingEnabled := forwardingEnabled st |}.
Proof.
  intros Hrun Hfin Hstall. unfold calculateNextState.
  rewrite Hrun, Hfin. simpl.
  by replace (currentStallCycles st >? 0) with true
    by (symmetry; by apply Z.gtb_lt).
Qed.

Lemma calculateNextState_ticking :
  isRunning st = true → isFinished st = false →
  currentStallCycles st = 0 →
  ∃ stages pending,
    (∀ k, stages !! k
          = if decide (k < length (instructions st))%nat
            then Some (stageOf st (currentCycle st + 1) k) else None)
    ∧ pending_ok st (currentCycle st + 1) (length (instructions st)) pending
    ∧ calculateNextState st
      = {| instructions := instructions st;
           currentCycle :=
             if currentCycle st + 1 >? completionCycle st
             then completionCycle st else currentCycle st + 1;
           maxCycles := maxCycles st;
           isRunning := negb (currentCycle st + 1 >? completionCycle st);
           stageCount := stageCount st;
           instructionStages := stages;
           isFinished := currentCycle st + 1 >? completionCycle st;
           registerUsage := registerUsage st;
           hazards := hazards st;
           forwardings := forwardings st;
           stalls := stalls st;
           currentStallCycles := pending;
           forwardingEnabled := forwardingEnabled st |}.
Proof.
  intros Hrun Hfin Hstall. unfold calculateNextState.
  rewrite Hrun, Hfin, Hstall. simpl.
  destruct (tick_fold st (currentCycle st + 1) (length (instructions st)) 0
              eq_refl) as (stages & pending & Hfold & Hstages & Hok).
  exists stages, pending. split_and!; [done..|]. by rewrite Hfold.
Qed.

End NextState.

(** ** The invariant of a started run *)

Section Invariant.

Lemma completionCycle_same (st st' : SimulationState) :
  instructions st' = instructions st → stageCount st' = stageCount st →
  stalls st' = stalls st → completionCycle st' = completionCycle st.
Proof. unfold completionCycle. by intros -> -> ->. Qed.

Lemma completionCycle_started (st : SimulationState) :
  (0 < length (instructions st))%nat →
  completionCycle st
  = Z.of_nat (length (instructions st)) + stageCount st - 1
    + totalStallCycles (stalls st).
Proof.
  intros H. unfold completionCycle.
  by replace (0 <? length (instructions st))%nat with true
    by (symmetry; by apply Nat.ltb_lt).
Qed.

Lemma stageIndexOf_decreasing (st : SimulationState) (cycle : Z)
    (k1 k2 : nat) :
  (∀ k v, stalls st !! k = Some v → 0 ≤ v) → (k1 < k2)%nat →
  stageIndexOf st cycle k2 < stageIndexOf st cycle k1.
Proof.
  intros Hnn Hlt. unfold stageIndexOf.
  pose proof (calculatePrecedingStalls_mono (stalls st) k1 k2 Hnn). lia.
Qed.

Lemma stageOf_Some (st : SimulationState) (cycle : Z) (k : nat) (stage : Z) :
  stageOf st cycle k = Some stage → stageIndexOf st cycle k = stage.
Proof. unfold stageOf. destruct (_ && _); congruence. Qed.

(** A state that differs from one satisfying the invariant only in its
    cycle, its pending stall and its flags satisfies it as soon as the
    bounds hold. *)
Lemma run_inv_frame (st st' : SimulationState) :
  run_inv st →
  instructions st' = instructions st → stageCount st' = stageCount st →
  stalls st' = stalls st → maxCycles st' = maxCycles st →
  registerUsage st' = registerUsage st → hazards st' = hazards st →
  forwardings st' = forwardings st →
  stages_injective (instructionStages st') →
  1 ≤ currentCycle st' → 0 ≤ currentStallCycles st' →
  (if isFinished st'
   then currentCycle st' = completionCycle st ∧ isRunning st' = false
   else currentCycle st' + currentStallCycles st' ≤ completionCycle st) →
  run_inv st'.
Proof.
  intros [] Hi Hc Hs Hm Hr Hh Hf Hinj Hcyc Hst Hb.
  pose proof (completionCycle_same st st' Hi Hc Hs) as Hcc.
  split; rewrite ?Hi, ?Hc, ?Hs, ?Hm, ?Hr, ?Hh, ?Hf, ?Hcc; done.
Qed.

Lemma pause_inv (st : SimulationState) :
  run_inv st → run_inv (pauseSimulation st).
Proof.
  intros Hinv. unfold pauseSimulation.
  destruct (isRunning st) eqn:Hrun; [|done].
  apply (run_inv_frame st); try done; try apply Hinv. simpl.
  pose proof (inv_bound st Hinv) as Hb.
  destruct (isFinished st); [|done]. by destruct Hb.
Qed.

Lemma resume_inv (st : SimulationState) :
  run_inv st → run_inv (resumeSimulation st).
Proof.
  intros Hinv. unfold resumeSimulation.
  destruct (negb (isRunning st) && (currentCycle st >? 0)
            && negb (isFinished st)) eqn:Hc; [|done].
  apply andb_prop in Hc as [_ Hfin]. apply negb_true_iff in Hfin.
  apply (run_inv_frame st); try done; try apply Hinv. simpl.
  pose proof (inv_bound st Hinv) as Hb. by rewrite Hfin in *.
Qed.

Lemma policy_inv (enabled : bool) (st : SimulationState) :
  run_inv st → run_inv (setForwardingEnabled enabled st).
Proof.
  intros Hinv. apply (run_inv_frame st); try done; apply Hinv.
Qed.

Lemma advance_inv (st : SimulationState) :
  run_inv st → run_inv (calculateNextState st).
Proof.
  intros Hinv.
  destruct (isRunning st) eqn:Hrun;
    [|by rewrite calculateNextState_idle by by left].
  destruct (isFinished st) eqn:Hfin;
    [by rewrite calculateNextState_idle by by right|].
  pose proof (inv_bound st Hinv) as Hb. rewrite Hfin in Hb.
  pose proof (inv_stall_nonneg st Hinv) as Hs0.
  pose proof (inv_cycle_pos st Hinv) as Hc1.
  destruct (decide (0 < currentStallCycles st)) as [Hstall|Hstall].
  - rewrite calculateNextState_stalled by done.
    apply (run_inv_frame st); try done; try apply Hinv; simpl; try lia.
    rewrite Hfin. lia.
  - assert (currentStallCycles st = 0) as Hzero by lia.
    destruct (calculateNextState_ticking st Hrun Hfin Hzero)
      as (stages & pending & Hstages & Hok & ->).
    pose proof (inv_stalls_nonneg st Hinv) as Hnn.
    apply (run_inv_frame st); try done; simpl.
    + intros k1 k2 stage H1 H2. rewrite Hstages in H1, H2.
      repeat case_decide; try done.
      injection H1 as H1. injection H2 as H2.
      apply stageOf_Some in H1, H2.
      destruct (Nat.lt_trichotomy k1 k2) as [Hlt|[?|Hlt]]; [|done|].
      * pose proof (stageIndexOf_decreasing st (currentCycle st + 1)
                      k1 k2 Hnn Hlt). lia.
      * pose proof (stageIndexOf_decreasing st (currentCycle st + 1)
                      k2 k1 Hnn Hlt). lia.
    + destruct (Z.gtb_spec (currentCycle st + 1) (completionCycle st));
        [|lia].
      rewrite completionCycle_started in * by apply Hinv.
      pose proof (totalStallCycles_nonneg _ _ (inv_keys st Hinv) Hnn).
      pose proof (inv_nonempty st Hinv).
      rewrite (inv_stageCount st Hinv) in *.
      change DEFAULT_STAGE_COUNT with 5 in *. lia.
    + destruct Hok as [->|(k & ? & ? & ? & ?)]; lia.
    + destruct (Z.gtb_spec (currentCycle st + 1) (completionCycle st));
        [done|].
      destruct Hok as [->|(k & Hk & Hstage & Hpending & Hpos)]; [lia|].
      rewrite completionCycle_started in * by apply Hinv.
      rewrite (totalStallCycles_sum _ _ (inv_keys st Hinv)) in *.
      pose proof (calculatePrecedingStalls_mono (stalls st) (S k)
                    (length (instructions st)) Hnn ltac:(lia)) as Hmono.
      rewrite calculatePrecedingStalls_S in Hmono.
      unfold stallAt in Hmono. rewrite Hpending in Hmono. simpl in Hmono.
      unfold stageIndexOf in Hstage.
      rewrite (inv_stageCount st Hinv) in *.
      change DEFAULT_STAGE_COUNT with 5 in *. lia.
Qed.

End Invariant.

(** ** The state installed by [startSimulation] *)

Section Start.

Lemma parseAll_lookup (submitted : list string) (index : nat)
    (acc usage : gmap nat RegisterUsage) :
  parseAll index submitted acc = Some usage →
  (∀ x, (x < index)%nat → usage !! x = acc !! x)
  ∧ (∀ x inst, submitted !! x = Some inst →
       ∃ u, parseInstruction inst = Some u
            ∧ usage !! (index + x)%nat = Some u).
Proof.
  revert index acc. induction submitted as [|inst rest IH];
    intros index acc H; simpl in H.
  - simplify_eq. split; [done|]. intros x inst Hx. by destruct x.
  - destruct (parseInstruction inst) as [u|] eqn:Hu; simpl in H; [|done].
    destruct (IH _ _ H) as [Hbelow Hat]. split.
    + intros x Hx. rewrite Hbelow by lia. apply lookup_insert_ne. lia.
    + intros [|x] inst' Hx; simpl in Hx.
      * simplify_eq. exists u. split; [done|].
        rewrite Nat.add_0_r, Hbelow by lia. apply lookup_insert_eq.
      * destruct (Hat x inst' Hx) as (u' & ? & Hl). exists u'.
        split; [done|]. by replace (index + S x)%nat with (S index + x)%nat
          by lia.
Qed.

Lemma parseAll_covers (submitted : list string)
    (usage : gmap nat RegisterUsage) :
  parseAll 0 submitted ∅ = Some usage → covers usage (length submitted).
Proof.
  intros H k Hk. destruct (parseAll_lookup _ _ _ _ H) as [_ Hat].
  destruct (lookup_lt_is_Some_2 submitted k Hk) as [inst Hinst].
  destruct (Hat k inst Hinst) as (u & _ & Hu). by exists u.
Qed.

(** Every program the instruction form accepts is parsed. *)
Lemma parseAll_total (submitted : list string) (index : nat)
    (acc : gmap nat RegisterUsage) :
  Forall (λ inst, isHex8 inst = true) submitted →
  is_Some (parseAll index submitted acc).
Proof.
  intros H. revert index acc.
  induction H as [|inst rest Hinst _ IH]; intros index acc; simpl.
  - by eexists.
  - destruct (parseInstruction_total inst Hinst) as (w & _ & _ & ->).
    simpl. apply IH.
Qed.

Lemma initialStages_lookup (n a : nat) (acc : gmap nat (option Z))
    (x : nat) :
  foldl initialStageStep acc (seq a n) !! x
  = if decide (a ≤ x < a + n)%nat
    then Some (if decide (x = 0%nat) then Some 0 else None)
    else acc !! x.
Proof.
  revert a acc. induction n as [|n IH]; intros a acc; simpl.
  - by rewrite decide_False by lia.
  - rewrite IH. destruct (decide (x = a)) as [->|Hne].
    + rewrite decide_False, decide_True by lia.
      unfold initialStageStep. change DEFAULT_STAGE_COUNT with 5.
      destruct (decide (a = 0%nat)) as [->|Ha].
      { simpl. by rewrite lookup_insert_eq. }
      destruct (Z.geb_spec (1 - Z.of_nat a - 1) 0); [lia|].
      simpl. by rewrite lookup_insert_eq.
    + assert (initialStageStep acc a !! x = acc !! x) as ->.
      { unfold initialStageStep.
        destruct (_ && _); by rewrite lookup_insert_ne. }
      repeat case_decide; (done || lia).
Qed.

Lemma detectHazards_stalls (submitted : list string)
    (usage : gmap nat RegisterUsage) (policy : bool)
    (h : gmap nat HazardInfo) (f : gmap nat (list ForwardingInfo))
    (s : gmap nat Z) :
  covers usage (length submitted) →
  detectHazards submitted usage policy = Some (h, f, s) →
  keys_below s (length submitted) ∧ (∀ k v, s !! k = Some v → 0 ≤ v).
Proof.
  intros Hcov Hres.
  destruct (detectHazards_at policy usage submitted Hcov)
    as (res & Hres' & Hin & Hout).
  rewrite Hres in Hres'. injection Hres' as <-.
  assert (∀ k, (k < length submitted)%nat →
            ∃ v, s !! k = Some v ∧ 0 ≤ v) as Hval.
  { intros k Hk. destruct (Hcov k Hk) as [cur Hcur].
    specialize (Hin k cur Hk Hcur). unfold at_index, expected_at in Hin.
    simpl in Hin.
    destruct (decide (k = 0%nat ∨ type cur = J)).
    { injection Hin as _ _ ->. by exists 0. }
    destruct (raw_matches usage k) as [|first rest].
    { injection Hin as _ _ ->. by exists 0. }
    injection Hin as _ _ ->. eexists. split; [done|].
    destruct policy; [done | apply max_stall_nonneg]. }
  split.
  - intros k. split.
    + intros [v Hv]. destruct (decide (k < length submitted)%nat); [done|].
      specialize (Hout k ltac:(lia)). unfold at_index in Hout.
      simpl in Hout. injection Hout as _ _ Hnone. congruence.
    + intros Hk. destruct (Hval k Hk) as (v & -> & _). by eexists.
  - intros k v Hv. destruct (decide (k < length submitted)%nat) as [Hk|Hk].
    + destruct (Hval k Hk) as (v' & Hv' & ?). congruence.
    + specialize (Hout k ltac:(lia)). unfold at_index in Hout.
      simpl in Hout. injection Hout as _ _ Hnone. congruence.
Qed.

Lemma start_inv (prev : SimulationState) (submitted : list string)
    (st : SimulationState) :
  submitted ≠ [] → startSimulation prev submitted = Some st → run_inv st.
Proof.
  intros Hne H. unfold startSimulation in H.
  destruct submitted as [|inst rest]; [done|]. simpl Nat.eqb in H. cbv iota in H.
  destruct (parseAll 0 (inst :: rest) ∅) as [usage|] eqn:Hparse;
    simpl in H; [|done].
  destruct (detectHazards (inst :: rest) usage (forwardingEnabled prev))
    as [[[h f] s]|] eqn:Hdetect; simpl in H; [|done].
  injection H as <-.
  destruct (detectHazards_stalls _ _ _ _ _ _ (parseAll_covers _ _ Hparse)
              Hdetect) as [Hkeys Hnn].
  pose proof (totalStallCycles_nonneg s _ Hkeys Hnn) as Htotal.
  split; simpl; try done; try lia.
  - unfold completionCycle. simpl.
    change DEFAULT_STAGE_COUNT with 5. lia.
  - intros k1 k2 stage H1 H2.
    pose proof (initialStages_lookup (length (inst :: rest)) 0 ∅) as Hl.
    simpl seq in Hl. simpl foldl in Hl.
    rewrite Hl in H1, H2. repeat case_decide; simplify_eq; done.
  - by exists (forwardingEnabled prev).
Qed.

Lemma started_inv (st : SimulationState) : started st → run_inv st.
Proof.
  induction 1 as [prev submitted st Hne Hstart| | | |].
  - by apply (start_inv prev submitted).
  - by apply advance_inv.
  - by apply pause_inv.
  - by apply resume_inv.
  - by apply policy_inv.
Qed.

Lemma started_advance_n (n : nat) (st : SimulationState) :
  started st → started (advance_n n st).
Proof.
  intros H. induction n as [|n IH]; [done|].
  unfold advance_n. simpl. by apply started_advance.
Qed.

(** A program that passes the format check always starts. *)
Lemma startSimulation_total (prev : SimulationState)
    (submitted : list string) :
  Forall (λ inst, isHex8 inst = true) submitted →
  is_Some (startSimulation prev submitted).
Proof.
  intros Hhex. unfold startSimulation.
  destruct (Nat.eqb (length submitted) 0); [by eexists|].
  destruct (parseAll_total submitted 0 ∅ Hhex) as [usage Husage].
  rewrite Husage. simpl.
  destruct (detectHazards_at (forwardingEnabled prev) usage submitted
              (parseAll_covers _ _ Husage)) as ([[h f] s] & -> & _).
  simpl. by eexists.
Qed.

End Start.

(** ** Scenarios of the clock *)

Lemma single_run_started : started single_run.
Proof.
  apply (started_start initialState ["00a63820"]); [done|].
  vm_compute. reflexivity.
Qed.

Lemma stalled_run_started : started stalled_run.
Proof.
  apply started_advance_n.
  apply (started_start (setForwardingEnabled false initialState) add_then_use);
    [done|].
  vm_compute. reflexivity.
Qed.

Example scenario_A :
  maxCycles single_run = 5
  ∧ (hazard_type <$> hazards single_run !! 0%nat) = Some NONE
  ∧ map (λ n, (currentCycle (advance_n n single_run),
               isFinished (advance_n n single_run))) [3; 4; 5; 6]%nat
    = [(4, false); (5, false); (5, true); (5, true)].
Proof. split_and!; by vm_compute. Qed.

Example scenario_B_completion :
  maxCycles stalled_run = 8
  ∧ map (λ n, (currentCycle (advance_n n stalled_run),
               currentStallCycles (advance_n n stalled_run),
               isFinished (advance_n n stalled_run))) [0; 1; 2; 5; 6]%nat
    = [(3, 2, false); (4, 1, false); (5, 0, false); (8, 0, false);
       (8, 0, true)].
Proof. split_and!; by vm_compute. Qed.

Example scenario_C_completion :
  maxCycles <$> startSimulation initialState add_then_use = Some 6.
Proof. by vm_compute. Qed.

(** ** Completion *)

Section Completion.

Lemma calculateNextState_keeps (st : SimulationState) :
  instructions (calculateNextState st) = instructions st
  ∧ stageCount (calculateNextState st) = stageCount st
  ∧ stalls (calculateNextState st) = stalls st.
Proof.
  unfold calculateNextState.
  destruct (negb (isRunning st) || isFinished st); [done|].
  destruct (currentStallCycles st >? 0); [done|].
  by destruct (foldl _ _ _).
Qed.

Lemma completionCycle_advance (st : SimulationState) :
  completionCycle (calculateNextState st) = completionCycle st.
Proof.
  destruct (calculateNextState_keeps st) as (? & ? & ?).
  by apply completionCycle_same.
Qed.

Lemma completionCycle_advance_n (n : nat) (st : SimulationState) :
  completionCycle (advance_n n st) = completionCycle st.
Proof.
  induction n as [|n IH]; [done|].
  unfold advance_n in *. simpl. by rewrite completionCycle_advance.
Qed.

Lemma run_inv_le (st : SimulationState) :
  run_inv st → currentCycle st ≤ completionCycle st.
Proof.
  intros Hinv. pose proof (inv_bound st Hinv) as Hb.
  pose proof (inv_stall_nonneg st Hinv).
  destruct (isFinished st); [by destruct Hb as [-> _] | lia].
Qed.

Lemma advance_step_le (st : SimulationState) :
  run_inv st → currentCycle st ≤ currentCycle (calculateNextState st).
Proof.
  intros Hinv.
  destruct (isRunning st) eqn:Hrun;
    [|by rewrite calculateNextState_idle by by left].
  destruct (isFinished st) eqn:Hfin;
    [by rewrite calculateNextState_idle by by right|].
  pose proof (inv_stall_nonneg st Hinv).
  destruct (decide (0 < currentStallCycles st)) as [Hstall|Hstall].
  - rewrite calculateNextState_stalled by done. simpl. lia.
  - destruct (calculateNextState_ticking st Hrun Hfin ltac:(lia))
      as (stages & pending & _ & _ & ->). simpl.
    pose proof (run_inv_le st Hinv).
    destruct (_ >? _); lia.
Qed.

Lemma advance_finish_iff (st : SimulationState) :
  run_inv st → isRunning st = true → isFinished st = false →
  (isFinished (calculateNextState st) = true
   ↔ currentCycle st + 1 > completionCycle st)
  ∧ (isFinished (calculateNextState st) = true →
     currentCycle (calculateNextState st) = completionCycle st
     ∧ isRunning (calculateNextState st) = false).
Proof.
  intros Hinv Hrun Hfin.
  pose proof (inv_bound st Hinv) as Hb. rewrite Hfin in Hb.
  pose proof (inv_stall_nonneg st Hinv).
  destruct (decide (0 < currentStallCycles st)) as [Hstall|Hstall].
  - rewrite calculateNextState_stalled by done. simpl. rewrite Hfin.
    split; [|done]. split; [done | lia].
  - destruct (calculateNextState_ticking st Hrun Hfin ltac:(lia))
      as (stages & pending & _ & _ & ->). simpl.
    destruct (Z.gtb_spec (currentCycle st + 1) (completionCycle st));
      split; try done; split; (done || lia).
Qed.

Lemma tick_progress (st : SimulationState) :
  run_inv st → isRunning st = true → isFinished st = false →
  currentCycle st < completionCycle st →
  currentCycle (calculateNextState st) = currentCycle st + 1
  ∧ isRunning (calculateNextState st) = true
  ∧ isFinished (calculateNextState st) = false.
Proof.
  intros Hinv Hrun Hfin Hlt. pose proof (inv_stall_nonneg st Hinv).
  destruct (decide (0 < currentStallCycles st)) as [Hstall|Hstall].
  - rewrite calculateNextState_stalled by done. by simpl.
  - destruct (calculateNextState_ticking st Hrun Hfin ltac:(lia))
      as (stages & pending & _ & _ & ->). simpl.
    by destruct (Z.gtb_spec (currentCycle st + 1) (completionCycle st));
      [lia|].
Qed.

Lemma tick_finish (st : SimulationState) :
  run_inv st → isRunning st = true → isFinished st = false →
  currentCycle st = completionCycle st →
  isFinished (calculateNextState st) = true
  ∧ isRunning (calculateNextState st) = false
  ∧ currentCycle (calculateNextState st) = completionCycle st
  ∧ currentStallCycles st = 0.
Proof.
  intros Hinv Hrun Hfin Heq. pose proof (inv_stall_nonneg st Hinv).
  pose proof (inv_bound st Hinv) as Hb. rewrite Hfin in Hb.
  assert (currentStallCycles st = 0) as Hzero by lia.
  destruct (calculateNextState_ticking st Hrun Hfin Hzero)
    as (stages & pending & _ & _ & ->). simpl.
  by destruct (Z.gtb_spec (currentCycle st + 1) (completionCycle st));
    [|lia].
Qed.

Lemma advance_n_S (n : nat) (st : SimulationState) :
  advance_n (S n) st = calculateNextState (advance_n n st).
Proof. reflexivity. Qed.

(** The cycle counter of an uninterrupted run. *)
Lemma run_cycles (st : SimulationState) (k : nat) :
  started st → isRunning st = true → isFinished st = false →
  (Z.of_nat k ≤ completionCycle st - currentCycle st →
   currentCycle (advance_n k st) = currentCycle st + Z.of_nat k
   ∧ isRunning (advance_n k st) = true
   ∧ isFinished (advance_n k st) = false)
  ∧ (completionCycle st - currentCycle st < Z.of_nat k →
     isFinished (advance_n k st) = true
     ∧ isRunning (advance_n k st) = false
     ∧ currentCycle (advance_n k st) = completionCycle st).
Proof.
  intros Hstarted Hrun Hfin. induction k as [|k [IHle IHgt]].
  - pose proof (run_inv_le st (started_inv st Hstarted)).
    split; [|lia]. intros _. unfold advance_n. simpl.
    split_and!; (done || lia).
  - pose proof (started_inv _ (started_advance_n k st Hstarted)) as Hinv.
    pose proof (completionCycle_advance_n k st) as Hcc.
    rewrite advance_n_S. split.
    + intros Hle. destruct (IHle ltac:(lia)) as (Hc & Hr & Hf).
      destruct (tick_progress (advance_n k st) Hinv Hr Hf ltac:(lia))
        as (-> & ? & ?).
      split_and!; (done || lia).
    + intros Hgt.
      destruct (decide (Z.of_nat k ≤ completionCycle st - currentCycle st))
        as [Hle|Hle].
      * destruct (IHle Hle) as (Hc & Hr & Hf).
        destruct (tick_finish (advance_n k st) Hinv Hr Hf ltac:(lia))
          as (? & ? & Hc' & _).
        split_and!; [done..|]. by rewrite Hc', Hcc.
      * destruct (IHgt ltac:(lia)) as (Hf & Hr & Hc).
        by rewrite calculateNextState_idle by by right.
Qed.

End Completion.

(** C6.  In every state of a started run the completion cycle is
    [numInstructions + stageCount - 1 + totalStallCycles], where
    [totalStallCycles] is the sum of the stall counts of all the
    instructions, as the analyser computed them at the start, so that it
    equals [completionCycle - (numInstructions + stageCount - 1)].  When the
    run is running and unfinished, a tick marks it finished exactly when the
    next cycle exceeds the completion cycle, and then reports the completion
    cycle as the current cycle and clears the running flag.  The finish is
    reached: after [k] ticks the run is finished exactly when
    [currentCycle + k] exceeds the completion cycle, and it is then at the
    completion cycle with the running flag cleared. *)
Theorem finish_at_completion (st : SimulationState) :
  started st →
  let n := Z.of_nat (length (instructions st)) in
  completionCycle st = n + stageCount st - 1 + totalStallCycles (stalls st)
  ∧ totalStallCycles (stalls st)
    = calculatePrecedingStalls (stalls st) (length (instructions st))
  ∧ totalStallCycles (stalls st)
    = completionCycle st - (n + stageCount st - 1)
  ∧ maxCycles st = completionCycle st
  ∧ (∃ policy,
       detectHazards (instructions st) (registerUsage st) policy
       = Some (hazards st, forwardings st, stalls st))
  ∧ (isRunning st = true → isFinished st = false →
     (isFinished (calculateNextState st) = true
      ↔ currentCycle st + 1 > completionCycle st)
     ∧ (isFinished (calculateNextState st) = true →
        currentCycle (calculateNextState st) = completionCycle st
        ∧ isRunning (calculateNextState st) = false))
  ∧ (isRunning st = true → isFinished st = false →
     currentCycle st ≤ completionCycle st
     ∧ ∀ k : nat,
         (isFinished (advance_n k st) = true
          ↔ currentCycle st + Z.of_nat k > completionCycle st)
         ∧ (isFinished (advance_n k st) = true →
            currentCycle (advance_n k st) = completionCycle st
            ∧ isRunning (advance_n k st) = false)).
Proof.
  intros Hstarted n. pose proof (started_inv st Hstarted) as Hinv.
  pose proof (completionCycle_started st (inv_nonempty st Hinv)) as Hcc.
  split_and!.
  - done.
  - apply totalStallCycles_sum, Hinv.
  - subst n. lia.
  - apply Hinv.
  - apply Hinv.
  - intros Hrun Hfin. by apply advance_finish_iff.
  - intros Hrun Hfin. split; [apply (run_inv_le st Hinv)|].
    intros k. destruct (run_cycles st k Hstarted Hrun Hfin) as [Hle Hgt].
    destruct (decide (Z.of_nat k ≤ completionCycle st - currentCycle st))
      as [Hk|Hk].
    + destruct (Hle Hk) as (_ & _ & Hunfinished).
      rewrite Hunfinished. split; [|done]. split; [done|lia].
    + destruct (Hgt ltac:(lia)) as (Hfinished & Hstopped & Hcapped).
      split; [|done]. split; [lia|done].
Qed.

Lemma finish_at_completion_witness :
  let st := advance_n 4 single_run in
  started st
  ∧ isRunning st = true
  ∧ isFinished st = false
  ∧ length (instructions st) = 1%nat
  ∧ totalStallCycles (stalls st) = 0
  ∧ completionCycle st = 5
  ∧ currentCycle st + 1 > completionCycle st
  ∧ isFinished (calculateNextState st) = true
  ∧ currentCycle (calculateNextState st) = completionCycle st
  ∧ isRunning (calculateNextState st) = false
  ∧ isFinished (advance_n 3 single_run) = false
  ∧ isFinished (advance_n 5 single_run) = true.
Proof.
  cbv zeta.
  assert (started (advance_n 4 single_run)) as Hstarted
    by apply started_advance_n, single_run_started.
  assert (isRunning (advance_n 4 single_run) = true) as Hrun
    by (vm_compute; reflexivity).
  assert (isFinished (advance_n 4 single_run) = false) as Hfin
    by (vm_compute; reflexivity).
  assert (currentCycle (advance_n 4 single_run) + 1
          > completionCycle (advance_n 4 single_run)) as Hnext
    by (vm_compute; reflexivity).
  destruct (finish_at_completion (advance_n 4 single_run) Hstarted)
    as (Hcompletion & _ & Htotal & _ & _ & Htick & _).
  destruct (Htick Hrun Hfin) as [Hiff Hcap].
  pose proof (proj2 Hiff Hnext) as Hfinished.
  destruct (Hcap Hfinished) as [Hcapped Hstopped].
  destruct (finish_at_completion single_run single_run_started)
    as (_ & _ & _ & _ & _ & _ & Hrun_ticks).
  destruct (Hrun_ticks ltac:(vm_compute; reflexivity)
                       ltac:(vm_compute; reflexivity)) as [_ Hticks].
  split; [exact Hstarted|]. split; [exact Hrun|]. split; [exact Hfin|].
  split; [vm_compute; reflexivity|].
  split; [vm_compute; reflexivity|].
  split; [vm_compute; reflexivity|].
  split; [exact Hnext|]. split; [exact Hfinished|].
  split; [exact Hcapped|]. split; [exact Hstopped|].
  split.
  - destruct (isFinished (advance_n 3 single_run)) eqn:E; [|reflexivity].
    apply (proj1 (Hticks 3%nat)) in E. vm_compute in E. discriminate E.
  - apply (proj1 (Hticks 5%nat)). vm_compute. reflexivity.
Defined.

(** ** Stall ticks *)

(** C7.  In a running, unfinished state with a pending stall, a tick
    decrements the pending stall by 1, increments the current cycle by 1,
    and leaves the stage mapping and every other field as it was. *)
Theorem stall_tick_frame (st : SimulationState) :
  isRunning st = true → isFinished st = false →
  currentStallCycles st > 0 →
  calculateNextState st
  = {| instructions := instructions st;
       currentCycle := currentCycle st + 1;
       maxCycles := maxCycles st;
       isRunning := isRunning st;
       stageCount := stageCount st;
       instructionStages := instructionStages st;
       isFinished := isFinished st;
       registerUsage := registerUsage st;
       hazards := hazards st;
       forwardings := forwardings st;
       stalls := stalls st;
       currentStallCycles := currentStallCycles st - 1;
       forwardingEnabled := forwardingEnabled st |}.
Proof.
  intros Hrun Hfin Hstall. apply calculateNextState_stalled; (done || lia).
Qed.

Lemma stall_tick_frame_witness :
  calculateNextState stalled_run
  = {| instructions := instructions stalled_run;
       currentCycle := currentCycle stalled_run + 1;
       maxCycles := maxCycles stalled_run;
       isRunning := isRunning stalled_run;
       stageCount := stageCount stalled_run;
       instructionStages := instructionStages stalled_run;
       isFinished := isFinished stalled_run;
       registerUsage := registerUsage stalled_run;
       hazards := hazards stalled_run;
       forwardings := forwardings stalled_run;
       stalls := stalls stalled_run;
       currentStallCycles := currentStallCycles stalled_run - 1;
       forwardingEnabled := forwardingEnabled stalled_run |}.
Proof.
  apply (stall_tick_frame stalled_run).
  - vm_compute. reflexivity.
  - vm_compute. reflexivity.
  - vm_compute. reflexivity.
Defined.

(** ** Monotonicity *)

(** C8.  Along the ticks of a started run the current cycle never
    decreases and never exceeds the completion cycle; this covers the ticks
    taken while a stall is pending. *)
Theorem cycle_monotone (st : SimulationState) (n m : nat) :
  started st → (n ≤ m)%nat →
  currentCycle (advance_n n st) ≤ currentCycle (advance_n m st)
  ∧ currentCycle (advance_n m st) ≤ completionCycle st.
Proof.
  intros Hstarted Hnm. split.
  - induction Hnm as [|m Hnm IH]; [lia|].
    etrans; [exact IH|]. unfold advance_n. simpl.
    apply advance_step_le, started_inv. by apply started_advance_n.
  - rewrite <- (completionCycle_advance_n m st).
    apply run_inv_le, started_inv. by apply started_advance_n.
Qed.

Lemma cycle_monotone_witness :
  currentCycle (advance_n 1 stalled_run)
    ≤ currentCycle (advance_n 7 stalled_run)
  ∧ currentCycle (advance_n 7 stalled_run) ≤ completionCycle stalled_run.
Proof.
  apply (cycle_monotone stalled_run 1 7); [apply stalled_run_started | lia].
Defined.

(** ** Calls outside a run *)

(** C9.  A tick on a state that is not running (the initial state
    included) or that is finished returns that state; resuming a finished
    run or a run that never started (current cycle 0) returns the state as
    it was.  Both operations are total functions, so neither faults. *)
Theorem idle_calls_change_nothing (st : SimulationState) :
  (isRunning st = false ∨ isFinished st = true → calculateNextState st = st)
  ∧ (isFinished st = true ∨ currentCycle st = 0 → resumeSimulation st = st)
  ∧ calculateNextState initialState = initialState
  ∧ resumeSimulation initialState = initialState.
Proof.
  split_and!.
  - apply calculateNextState_idle.
  - unfold resumeSimulation. intros [-> | ->].
    + by rewrite andb_false_r.
    + by rewrite andb_false_r.
  - done.
  - done.
Qed.

Lemma idle_calls_change_nothing_witness :
  calculateNextState (pauseSimulation stalled_run) = pauseSimulation stalled_run
  ∧ resumeSimulation (advance_n 6 stalled_run) = advance_n 6 stalled_run.
Proof.
  split.
  - apply (idle_calls_change_nothing (pauseSimulation stalled_run)).
    left. vm_compute. reflexivity.
  - apply (idle_calls_change_nothing (advance_n 6 stalled_run)).
    left. vm_compute. reflexivity.
Defined.

(** ** Stage occupancy *)

(** C10.  In every state of a started run no two distinct instructions are
    in the same stage: the stage mapping is injective on its non-null
    entries; and the stage index the clock computes,
    [cycle - k - 1 - precedingStalls(k)], is strictly decreasing in [k]. *)
Theorem stages_never_shared (st : SimulationState) :
  started st →
  (∀ k1 k2 stage,
     instructionStages st !! k1 = Some (Some stage) →
     instructionStages st !! k2 = Some (Some stage) → k1 = k2)
  ∧ (∀ cycle k1 k2, (k1 < k2)%nat →
       cycle - Z.of_nat k2 - 1 - calculatePrecedingStalls (stalls st) k2
       < cycle - Z.of_nat k1 - 1 - calculatePrecedingStalls (stalls st) k1).
Proof.
  intros Hstarted. pose proof (started_inv st Hstarted) as Hinv. split.
  - apply Hinv.
  - intros cycle k1 k2 Hlt.
    apply (stageIndexOf_decreasing st cycle k1 k2); [apply Hinv | done].
Qed.

Lemma stages_never_shared_witness :
  (∀ k1 k2 stage,
     instructionStages stalled_run !! k1 = Some (Some stage) →
     instructionStages stalled_run !! k2 = Some (Some stage) → k1 = k2)
  ∧ (∀ cycle k1 k2, (k1 < k2)%nat →
       cycle - Z.of_nat k2 - 1
         - calculatePrecedingStalls (stalls stalled_run) k2
       < cycle - Z.of_nat k1 - 1
         - calculatePrecedingStalls (stalls stalled_run) k1).
Proof.
  apply (stages_never_shared stalled_run). apply stalled_run_started.
Defined.

(** ** More on the analyser *)

Section AnalysisFacts.

Lemma expected_at_is_Some (policy : bool) (usage : gmap nat RegisterUsage)
    (i : nat) (cur : RegisterUsage) :
  ∃ hz edges v, expected_at policy usage i cur = (Some hz, Some edges, Some v).
Proof.
  unfold expected_at. case_decide; [by eexists _, _, _|].
  destruct (raw_matches usage i); by eexists _, _, _.
Qed.

Lemma detectHazards_keys (policy : bool) (usage : gmap nat RegisterUsage)
    (instructions : list string) (h : gmap nat HazardInfo)
    (f : gmap nat (list ForwardingInfo)) (s : gmap nat Z) :
  covers usage (length instructions) →
  detectHazards instructions usage policy = Some (h, f, s) →
  keys_below h (length instructions)
  ∧ keys_below f (length instructions)
  ∧ keys_below s (length instructions).
Proof.
  intros Hcov Hres.
  destruct (detectHazards_at policy usage instructions Hcov)
    as (res & Hres' & Hin & Hout).
  rewrite Hres in Hres'. injection Hres' as <-.
  assert (∀ k, (k < length instructions)%nat →
            is_Some (h !! k) ∧ is_Some (f !! k) ∧ is_Some (s !! k)) as Hlt.
  { intros k Hk. destruct (Hcov k Hk) as [cur Hcur].
    specialize (Hin k cur Hk Hcur).
    destruct (expected_at_is_Some policy usage k cur) as (hz & e & v & E).
    rewrite E in Hin. unfold at_index in Hin. simpl in Hin.
    injection Hin as -> -> ->. by split_and!; eexists. }
  assert (∀ k, ¬ (k < length instructions)%nat →
            h !! k = None ∧ f !! k = None ∧ s !! k = None) as Hge.
  { intros k Hk. specialize (Hout k ltac:(lia)).
    unfold at_index in Hout. simpl in Hout. by injection Hout as -> -> ->. }
  split_and!; intros k; split.
  - intros [x Hx]. destruct (decide (k < length instructions)%nat); [done|].
    destruct (Hge k) as (E & _ & _); [done|]. congruence.
  - intros Hk. by destruct (Hlt k Hk) as (? & _ & _).
  - intros [x Hx]. destruct (decide (k < length instructions)%nat); [done|].
    destruct (Hge k) as (_ & E & _); [done|]. congruence.
  - intros Hk. by destruct (Hlt k Hk) as (_ & ? & _).
  - intros [x Hx]. destruct (decide (k < length instructions)%nat); [done|].
    destruct (Hge k) as (_ & _ & E); [done|]. congruence.
  - intros Hk. by destruct (Hlt k Hk) as (_ & _ & ?).
Qed.

Lemma forLoop_None {S : Type} (body : nat → S → option S) (ks : list nat)
    (st : S) (k : nat) :
  k ∈ ks → (∀ st0, body k st0 = None) → forLoop body ks st = None.
Proof.
  intros Hk Hnone. revert st. induction ks as [|a ks IH]; intros st.
  - by apply elem_of_nil in Hk.
  - simpl. destruct (body a st) as [st'|] eqn:Ha; [|done]. simpl.
    apply elem_of_cons in Hk as [->|Hk]; [by rewrite Hnone in Ha|].
    by apply IH.
Qed.

Lemma max_stall_le_2 (ms : list RawHazard) :
  Forall (λ m, 1 ≤ distance m ≤ 2) ms → 0 ≤ max_stall ms ≤ 2.
Proof.
  induction ms as [|m ms IH] using rev_ind; intros H.
  - unfold max_stall. simpl. lia.
  - apply Forall_app in H as [Hms Hm]. rewrite Forall_singleton in Hm.
    rewrite max_stall_snoc. unfold stall_need. specialize (IH Hms). lia.
Qed.

Lemma match_of_length (name : string) (reg : Z) (i j : nat)
    (prev : RegisterUsage) :
  (length (match_of name reg i j prev) ≤ 1)%nat.
Proof. unfold match_of. case_decide; simpl; lia. Qed.

Lemma matches_against_length (cur prev : RegisterUsage) (i j : nat) :
  (length (matches_against cur i j prev) ≤ 2)%nat.
Proof.
  unfold matches_against. case_decide; [simpl; lia|].
  rewrite length_app.
  pose proof (match_of_length "rs" (rs cur) i j prev).
  pose proof (match_of_length "rt" (rt cur) i j prev). lia.
Qed.

Lemma raw_matches_length (usage : gmap nat RegisterUsage) (i : nat) :
  (length (raw_matches usage i) ≤ 4)%nat.
Proof.
  unfold raw_matches. destruct (usage !! i) as [cur|]; [|simpl; lia].
  assert (∀ j, (length (match usage !! j with
                        | Some prev => matches_against cur i j prev
                        | None => []
                        end) ≤ 2)%nat) as Hj.
  { intros j. destruct (usage !! j); [apply matches_against_length|].
    simpl. lia. }
  unfold window. repeat case_decide; simpl;
    rewrite ?length_app, ?app_nil_r; simpl;
    try pose proof (Hj (i - 2)%nat); try pose proof (Hj (i - 1)%nat); lia.
Qed.

(** What [expected_at] lets one say about the three entries of one
    instruction. *)
Lemma expected_at_facts (policy : bool) (usage : gmap nat RegisterUsage)
    (i : nat) (cur : RegisterUsage) (hz : HazardInfo)
    (edges : list ForwardingInfo) (v : Z) :
  expected_at policy usage i cur = (Some hz, Some edges, Some v) →
  stallCycles hz = v
  ∧ 0 ≤ v ≤ 2
  ∧ (length edges ≤ 4)%nat
  ∧ (v ≠ 0 → policy = false ∧ hazard_type hz = RAW)
  ∧ (edges ≠ [] → policy = true ∧ hazard_type hz = RAW)
  ∧ (hazard_type hz = RAW →
     canForward hz = policy ∧ if policy then edges ≠ [] else 1 ≤ v).
Proof.
  unfold expected_at. intros H.
  destruct (decide (i = 0%nat ∨ type cur = J)).
  { injection H as <- <- <-. simpl. split_and!; (done || lia). }
  pose proof (raw_matches_need usage i) as Hneed.
  pose proof (raw_matches_length usage i) as Hlen.
  destruct (raw_matches usage i) as [|first rest] eqn:Hms.
  { injection H as <- <- <-.
    destruct (negb (rd cur =? 0) && waw_match usage cur i); simpl;
      split_and!; (done || lia). }
  cbv beta zeta iota in H. injection H as <- <- <-.
  assert (Forall (λ m, 1 ≤ distance m ≤ 2) (first :: rest)) as Hd.
  { eapply Forall_impl; [exact Hneed|]. by intros m [? _]. }
  pose proof (max_stall_le_2 _ Hd) as Hmax.
  assert (0 < max_stall (first :: rest)) as Hpos.
  { eapply max_stall_positive; [done|].
    eapply Forall_impl; [exact Hd|]. unfold stall_need. intros m. simpl. lia. }
  destruct policy; simpl.
  - rewrite length_fmap. split_and!; (done || lia).
  - split_and!; (done || lia).
Qed.

End AnalysisFacts.


(** X1: the analyser returns one hazard record, one list of forwarding
    edges and one stall count for each instruction index, and nothing for
    any other index. *)
Theorem analysis_one_entry_each (instructions : list string)
    (registerUsage : gmap nat RegisterUsage) (forwardingEnabled : bool) :
  covers registerUsage (length instructions) →
  ∃ h f s,
    detectHazards instructions registerUsage forwardingEnabled
    = Some (h, f, s)
    ∧ ∀ k, (is_Some (h !! k) ↔ (k < length instructions)%nat)
           ∧ (is_Some (f !! k) ↔ (k < length instructions)%nat)
           ∧ (is_Some (s !! k) ↔ (k < length instructions)%nat).
Proof.
  intros Hcov.
  destruct (detectHazards_at forwardingEnabled registerUsage instructions
              Hcov) as ([[h f] s] & Hres & _).
  exists h, f, s. split; [done|].
  destruct (detectHazards_keys _ _ _ _ _ _ Hcov Hres) as (Hh & Hf & Hs).
  intros k. split_and!; [apply Hh | apply Hf | apply Hs].
Qed.

Lemma analysis_one_entry_each_witness :
  ∃ h f s,
    detectHazards add_then_use (decoded add_then_use) false = Some (h, f, s)
    ∧ ∀ k, (is_Some (h !! k) ↔ (k < length add_then_use)%nat)
           ∧ (is_Some (f !! k) ↔ (k < length add_then_use)%nat)
           ∧ (is_Some (s !! k) ↔ (k < length add_then_use)%nat).
Proof.
  apply (analysis_one_entry_each add_then_use (decoded add_then_use) false).
  apply covers_intro. vm_compute. reflexivity.
Defined.

(** X2: the analyser reads [registerUsage] only from index 1 on and only
    backwards from there.  For at most one instruction it returns the
    initial "no hazard" entries whatever [registerUsage] holds; a missing
    entry at an index from 1 on makes it throw; and a missing entry 0 makes
    it throw as soon as instruction 1 is not a jump. *)
Theorem analysis_missing_entry (instructions : list string)
    (registerUsage : gmap nat RegisterUsage) (forwardingEnabled : bool) :
  ((length instructions ≤ 1)%nat →
   detectHazards instructions registerUsage forwardingEnabled
   = Some (initAnalysis instructions))
  ∧ (∀ i, (1 ≤ i < length instructions)%nat →
       registerUsage !! i = None →
       detectHazards instructions registerUsage forwardingEnabled = None)
  ∧ (∀ cur, (2 ≤ length instructions)%nat →
       registerUsage !! 0%nat = None →
       registerUsage !! 1%nat = Some cur → type cur ≠ J →
       detectHazards instructions registerUsage forwardingEnabled = None).
Proof.
  split_and!.
  - intros Hn. unfold detectHazards.
    by replace (length instructions - 1)%nat with 0%nat by lia.
  - intros i Hi Hnone. unfold detectHazards.
    apply (forLoop_None _ _ _ i); [apply elem_of_seq; lia|].
    intros [[h f] s]. unfold hazardStep. by rewrite Hnone.
  - intros cur Hn H0 H1 HJ. unfold detectHazards.
    apply (forLoop_None _ _ _ 1%nat); [apply elem_of_seq; lia|].
    intros [[h f] s]. unfold hazardStep. rewrite H1. simpl.
    rewrite decide_False by done.
    change (lookback 1) with [0%nat]. simpl. unfold rawStep at 1.
    by rewrite H0.
Qed.

Lemma analysis_missing_entry_witness :
  detectHazards ["00a63820"] ∅ true = Some (initAnalysis ["00a63820"])
  ∧ detectHazards add_then_use {[0%nat := parseWord 10893344]} true = None
  ∧ detectHazards add_then_use {[1%nat := parseWord 10893344]} true = None.
Proof.
  split_and!.
  - apply (analysis_missing_entry ["00a63820"] ∅ true). simpl. lia.
  - apply (analysis_missing_entry add_then_use
             {[0%nat := parseWord 10893344]} true) with (i := 1%nat).
    + simpl. lia.
    + vm_compute. reflexivity.
  - apply (analysis_missing_entry add_then_use
             {[1%nat := parseWord 10893344]} true)
      with (cur := parseWord 10893344).
    + simpl. lia.
    + vm_compute. reflexivity.
    + vm_compute. reflexivity.
    + vm_compute. discriminate.
Defined.

(** X3: the three results of the analyser agree with one another.  For
    every instruction the stall count in [stalls] is the [stallCycles] of
    its hazard record and lies between 0 and 2; a nonzero stall count occurs
    only with forwarding disabled and only on a RAW record; forwarding edges
    (at most four) occur only with forwarding enabled and only on a RAW
    record; and a RAW record has [canForward] equal to the policy and comes
    with at least one edge (forwarding enabled) or at least one stall cycle
    (forwarding disabled). *)
Theorem analysis_entries_agree (instructions : list string)
    (registerUsage : gmap nat RegisterUsage) (forwardingEnabled : bool) :
  covers registerUsage (length instructions) →
  ∃ h f s,
    detectHazards instructions registerUsage forwardingEnabled
    = Some (h, f, s)
    ∧ ∀ i, (i < length instructions)%nat →
      ∃ hz edges v,
        h !! i = Some hz ∧ f !! i = Some edges ∧ s !! i = Some v
        ∧ stallCycles hz = v
        ∧ 0 ≤ v ≤ 2
        ∧ (length edges ≤ 4)%nat
        ∧ (v ≠ 0 → forwardingEnabled = false ∧ hazard_type hz = RAW)
        ∧ (edges ≠ [] → forwardingEnabled = true ∧ hazard_type hz = RAW)
        ∧ (hazard_type hz = RAW →
           canForward hz = forwardingEnabled
           ∧ if forwardingEnabled then edges ≠ [] else 1 ≤ v).
Proof.
  intros Hcov.
  destruct (detectHazards_lookup forwardingEnabled registerUsage instructions
              Hcov) as (h & f & s & Hres & Hat).
  exists h, f, s. split; [done|]. intros i Hi.
  destruct (Hcov i Hi) as [cur Hcur]. specialize (Hat i cur Hi Hcur).
  destruct (expected_at_is_Some forwardingEnabled registerUsage i cur)
    as (hz & edges & v & E).
  rewrite E in Hat. injection Hat as Hh Hf Hs.
  exists hz, edges, v. do 3 (split; [done|]).
  exact (expected_at_facts _ _ _ _ _ _ _ E).
Qed.

Lemma analysis_entries_agree_witness :
  ∃ h f s,
    detectHazards add_then_use (decoded add_then_use) false = Some (h, f, s)
    ∧ ∀ i, (i < length add_then_use)%nat →
      ∃ hz edges v,
        h !! i = Some hz ∧ f !! i = Some edges ∧ s !! i = Some v
        ∧ stallCycles hz = v
        ∧ 0 ≤ v ≤ 2
        ∧ (length edges ≤ 4)%nat
        ∧ (v ≠ 0 → false = false ∧ hazard_type hz = RAW)
        ∧ (edges ≠ [] → false = true ∧ hazard_type hz = RAW)
        ∧ (hazard_type hz = RAW →
           canForward hz = false ∧ 1 ≤ v).
Proof.
  apply (analysis_entries_agree add_then_use (decoded add_then_use) false).
  apply covers_intro. vm_compute. reflexivity.
Defined.


(** ** More on the decoder *)

Section DecoderFacts.

Lemma field_range (word : Z) (a b : nat) :
  0 ≤ word < 2 ^ 32 → (a ≤ b ≤ 32)%nat →
  0 ≤ parseInt2 (substring a b (padStart 32 "0" (toString2 word)))
    < 2 ^ Z.of_nat (b - a).
Proof.
  intros Hw Hab. rewrite field_of_word by done.
  apply Z.mod_pos_bound. apply Z.pow_pos_nonneg; lia.
Qed.

Lemma parseWord_ranges (word : Z) :
  0 ≤ word < 2 ^ 32 →
  0 ≤ opcode (parseWord word) < 64
  ∧ 0 ≤ rs (parseWord word) < 32
  ∧ 0 ≤ rt (parseWord word) < 32
  ∧ 0 ≤ rd (parseWord word) < 32
  ∧ 0 ≤ funct (parseWord word) < 64.
Proof.
  intros Hw. unfold parseWord.
  pose proof (field_range word 0 6 Hw ltac:(lia)) as Hop.
  pose proof (field_range word 6 11 Hw ltac:(lia)) as Hrs.
  pose proof (field_range word 11 16 Hw ltac:(lia)) as Hrt.
  pose proof (field_range word 16 21 Hw ltac:(lia)) as Hrd.
  pose proof (field_range word 26 32 Hw ltac:(lia)) as Hfn.
  revert Hop Hrs Hrt Hrd Hfn.
  generalize (parseInt2 (substring 0 6 (padStart 32 "0" (toString2 word)))),
    (parseInt2 (substring 6 11 (padStart 32 "0" (toString2 word)))),
    (parseInt2 (substring 11 16 (padStart 32 "0" (toString2 word)))),
    (parseInt2 (substring 16 21 (padStart 32 "0" (toString2 word)))),
    (parseInt2 (substring 26 32 (padStart 32 "0" (toString2 word)))).
  intros op frs frt frd ffn.
  change (2 ^ Z.of_nat (6 - 0)) with 64. change (2 ^ Z.of_nat (11 - 6)) with 32.
  change (2 ^ Z.of_nat (16 - 11)) with 32.
  change (2 ^ Z.of_nat (21 - 16)) with 32.
  change (2 ^ Z.of_nat (32 - 26)) with 64.
  intros Hop Hrs Hrt Hrd Hfn.
  destruct (op =? 0); [cbn [rs rt rd opcode funct]; lia|].
  destruct ((op =? 2) || (op =? 3)).
  { cbn [rs rt rd opcode funct]. destruct (op =? 3); lia. }
  cbn [rs rt rd opcode funct].
  destruct ((op >=? 32) && (op <=? 37)); [lia|].
  destruct ((op >=? 8) && (op <=? 15)); lia.
Qed.

(** Only R-type, [jal], immediate-arithmetic and load instructions have a
    destination register. *)
Lemma parseWord_writer (word : Z) :
  rd (parseWord word) ≠ 0 →
  opcode (parseWord word) = 0 ∨ opcode (parseWord word) = 3
  ∨ 8 ≤ opcode (parseWord word) ≤ 15 ∨ 32 ≤ opcode (parseWord word) ≤ 37.
Proof.
  unfold parseWord.
  generalize (parseInt2 (substring 0 6 (padStart 32 "0" (toString2 word)))).
  intros op.
  destruct (Z.eqb_spec op 0); [by left|].
  destruct (Z.eqb_spec op 2) as [->|]; [done|].
  destruct (Z.eqb_spec op 3) as [->|]; [by right; left|].
  cbn [rd opcode orb].
  destruct (Z.geb_spec op 32), (Z.leb_spec op 37), (Z.geb_spec op 8),
    (Z.leb_spec op 15); cbn [andb]; intros Hrd; (done || lia).
Qed.

Lemma parseInstruction_word (hexInstruction : string) (usage : RegisterUsage) :
  parseInstruction hexInstruction = Some usage →
  ∃ word, 0 ≤ word < 2 ^ 32 ∧ usage = parseWord word.
Proof.
  intros H. pose proof (parseInstruction_Some _ _ H) as Hhex.
  destruct (parseInstruction_total _ Hhex) as (word & Hw & _ & E).
  exists word. split; [done|]. congruence.
Qed.

End DecoderFacts.

(** X4: every instruction the decoder accepts has register numbers rs, rt
    and rd between 0 and 31 and opcode and funct between 0 and 63; and it
    has a destination register (rd nonzero) only if its opcode is 0 (R-type),
    3 (jal), in 8..15 (immediate arithmetic) or in 32..37 (loads). *)
Theorem decoded_fields_in_range (hexInstruction : string)
    (usage : RegisterUsage) :
  parseInstruction hexInstruction = Some usage →
  0 ≤ opcode usage < 64
  ∧ 0 ≤ rs usage < 32
  ∧ 0 ≤ rt usage < 32
  ∧ 0 ≤ rd usage < 32
  ∧ 0 ≤ funct usage < 64
  ∧ (rd usage ≠ 0 →
     opcode usage = 0 ∨ opcode usage = 3
     ∨ 8 ≤ opcode usage ≤ 15 ∨ 32 ≤ opcode usage ≤ 37).
Proof.
  intros H. destruct (parseInstruction_word _ _ H) as (word & Hw & ->).
  pose proof (parseWord_ranges word Hw) as (? & ? & ? & ? & ?).
  do 5 (split; [done|]). apply parseWord_writer.
Qed.

Lemma decoded_fields_in_range_witness :
  0 ≤ 35 < 64 ∧ 0 ≤ 10 < 32 ∧ 0 ≤ 9 < 32 ∧ 0 ≤ 9 < 32 ∧ 0 ≤ 0 < 64
  ∧ (9 ≠ 0 → 35 = 0 ∨ 35 = 3 ∨ 8 ≤ 35 ≤ 15 ∨ 32 ≤ 35 ≤ 37).
Proof.
  apply (decoded_fields_in_range "8d490004"
           {| rs := 10; rt := 9; rd := 9; opcode := 35; funct := 0;
              type := I |}).
  vm_compute. reflexivity.
Defined.


(** ** Instructions that write no register *)

Section NonWriters.

Lemma bind_all_nil {A B : Type} (f : A → list B) (l : list A) :
  (∀ x, x ∈ l → f x = []) → l ≫= f = [].
Proof.
  induction l as [|a l IH]; intros H; [done|].
  rewrite bind_cons, (H a) by (by left). simpl.
  apply IH. intros x Hx. apply H. by right.
Qed.

Lemma existsb_all_false {A : Type} (f : A → bool) (l : list A) :
  (∀ x, x ∈ l → f x = false) → existsb f l = false.
Proof.
  induction l as [|a l IH]; intros H; [done|]. simpl.
  rewrite (H a) by (by left). simpl.
  apply IH. intros x Hx. apply H. by right.
Qed.

Lemma expected_at_no_writer (policy : bool) (usage : gmap nat RegisterUsage)
    (i : nat) (cur : RegisterUsage) :
  usage !! i = Some cur →
  (∀ j prev, j ∈ window i → usage !! j = Some prev → rd prev = 0) →
  expected_at policy usage i cur = (Some noHazard, Some [], Some 0).
Proof.
  intros Hcur Hzero. unfold expected_at. case_decide; [done|].
  assert (raw_matches usage i = []) as ->.
  { unfold raw_matches. rewrite Hcur. apply bind_all_nil. intros j Hj.
    destruct (usage !! j) as [prev|] eqn:Hprev; [|done].
    unfold matches_against. by rewrite decide_True by by eapply Hzero. }
  assert (waw_match usage cur i = false) as ->.
  { unfold waw_match. apply existsb_all_false. intros j Hj.
    unfold waw_against.
    destruct (usage !! j) as [prev|] eqn:Hprev; [|done].
    by rewrite (Hzero j prev Hj Hprev). }
  by rewrite andb_false_r.
Qed.

Lemma parseAll_decoded (submitted : list string)
    (usage : gmap nat RegisterUsage) (j : nat) (u : RegisterUsage) :
  parseAll 0 submitted ∅ = Some usage → (j < length submitted)%nat →
  usage !! j = Some u →
  ∃ word, 0 ≤ word < 2 ^ 32 ∧ u = parseWord word.
Proof.
  intros Hparse Hj Hu.
  destruct (parseAll_lookup _ _ _ _ Hparse) as [_ Hat].
  destruct (lookup_lt_is_Some_2 submitted j Hj) as [inst Hinst].
  destruct (Hat j inst Hinst) as (u' & Hu' & Hl). simpl in Hl.
  rewrite Hu in Hl. injection Hl as <-.
  by apply (parseInstruction_word inst).
Qed.

End NonWriters.

(** X5: stores, branches and [j] cause no hazard.  In a decoded program, an
    instruction whose predecessors at distance 1 and 2 all have an opcode
    other than 0, 3, 8..15 and 32..37 gets the record "no hazard", no
    forwarding edge and no stall, under either policy. *)
Theorem no_hazard_after_non_writers (instructions : list string)
    (registerUsage : gmap nat RegisterUsage) (forwardingEnabled : bool)
    (i : nat) :
  parseAll 0 instructions ∅ = Some registerUsage →
  (i < length instructions)%nat →
  (∀ j prev, j ∈ window i → registerUsage !! j = Some prev →
     opcode prev ≠ 0 ∧ opcode prev ≠ 3
     ∧ ¬ 8 ≤ opcode prev ≤ 15 ∧ ¬ 32 ≤ opcode prev ≤ 37) →
  ∃ h f s,
    detectHazards instructions registerUsage forwardingEnabled
    = Some (h, f, s)
    ∧ h !! i = Some noHazard ∧ f !! i = Some [] ∧ s !! i = Some 0.
Proof.
  intros Hparse Hi Hops.
  pose proof (parseAll_covers _ _ Hparse) as Hcov.
  destruct (detectHazards_lookup forwardingEnabled registerUsage instructions
              Hcov) as (h & f & s & Hres & Hat).
  exists h, f, s. split; [done|].
  destruct (Hcov i Hi) as [cur Hcur]. specialize (Hat i cur Hi Hcur).
  rewrite expected_at_no_writer in Hat; [by injection Hat as -> -> ->|done|].
  intros j prev Hj Hprev.
  destruct (parseAll_decoded _ _ j prev Hparse) as (word & _ & ->);
    [apply window_lt in Hj; lia | done |].
  destruct (Hops j _ Hj Hprev) as (H0 & H3 & H8 & H32).
  destruct (decide (rd (parseWord word) = 0)) as [|Hrd]; [done|].
  destruct (parseWord_writer word Hrd) as [?|[?|[?|?]]]; done.
Qed.

(** [sw $9,4($10)] followed by [add $8,$9,$5]: the store writes nothing. *)
Lemma no_hazard_after_non_writers_witness :
  ∃ h f s,
    detectHazards ["ad490004"; "01254020"]
                  (decoded ["ad490004"; "01254020"]) false
    = Some (h, f, s)
    ∧ h !! 1%nat = Some noHazard ∧ f !! 1%nat = Some []
    ∧ s !! 1%nat = Some 0.
Proof.
  apply (no_hazard_after_non_writers ["ad490004"; "01254020"]
           (decoded ["ad490004"; "01254020"]) false 1).
  - vm_compute. reflexivity.
  - simpl. lia.
  - intros j prev Hj Hprev.
    change (window 1) with [0%nat] in Hj.
    apply list_elem_of_singleton in Hj. subst j.
    vm_compute in Hprev. injection Hprev as <-. simpl.
    split_and!; lia.
Defined.


(** ** Stall windows *)

Section StallWindows.

Context (st : SimulationState).
Hypothesis stalls_nonneg : ∀ k v, stalls st !! k = Some v → 0 ≤ v.

Lemma isStallCell_true (k : nat) (cycle : Z) :
  isStallCell st k cycle = true
  ↔ ∃ stall, stalls st !! k = Some stall ∧ 0 < stall
             ∧ stallStart st k < cycle ≤ stallStart st k + stall.
Proof.
  unfold isStallCell, stallStart.
  destruct (stalls st !! k) as [stall|]; [|split; [done | by intros (? & ? & _)]].
  destruct (Z.leb_spec stall 0).
  { split; [done|]. intros (s & ? & ? & _). simplify_eq. lia. }
  rewrite andb_true_iff, Z.gtb_ltb, Z.ltb_lt, Z.leb_le. split.
  - intros [? ?]. exists stall. split_and!; (done || lia).
  - intros (s & ? & ? & ? & ?). simplify_eq. lia.
Qed.

Lemma calculatePrecedingStalls_nonneg (k : nat) :
  0 ≤ calculatePrecedingStalls (stalls st) k.
Proof.
  apply (calculatePrecedingStalls_mono (stalls st) 0 k stalls_nonneg). lia.
Qed.

(** The stall window of an instruction ends before the next instruction
    reaches stage 1. *)
Lemma stallStart_spacing (k1 k2 : nat) (s1 : Z) :
  (k1 < k2)%nat → stalls st !! k1 = Some s1 →
  stallStart st k1 + s1 < stallStart st k2.
Proof.
  intros Hlt Hs1. unfold stallStart.
  pose proof (calculatePrecedingStalls_mono (stalls st) (S k1) k2
                stalls_nonneg ltac:(lia)) as Hmono.
  rewrite calculatePrecedingStalls_S in Hmono. unfold stallAt in Hmono.
  rewrite Hs1 in Hmono. simpl in Hmono. lia.
Qed.

Lemma stageIndexOf_one (cycle : Z) (k : nat) :
  stageIndexOf st cycle k = 1 ↔ cycle = stallStart st k.
Proof. unfold stageIndexOf, stallStart. lia. Qed.

(** At most one instruction has a stall cell in a column. *)
Lemma isStallCell_unique (k1 k2 : nat) (cycle : Z) :
  isStallCell st k1 cycle = true → isStallCell st k2 cycle = true → k1 = k2.
Proof.
  rewrite !isStallCell_true.
  intros (s1 & Hs1 & ? & ? & ?) (s2 & Hs2 & ? & ? & ?).
  destruct (Nat.lt_trichotomy k1 k2) as [Hlt|[?|Hlt]]; [|done|].
  - pose proof (stallStart_spacing k1 k2 s1 Hlt Hs1). lia.
  - pose proof (stallStart_spacing k2 k1 s2 Hlt Hs2). lia.
Qed.

(** The exact stall a tick leaves pending: that of the instruction in
    stage 1, if it has one. *)
Lemma tick_fold_trigger (nextCycle : Z) (m : nat)
    (stages : gmap nat (option Z)) (pending : Z) :
  1 < stageCount st →
  foldl (stageStep st nextCycle) (∅, 0) (seq 0 m) = (stages, pending) →
  ∀ k s, (k < m)%nat → stageIndexOf st nextCycle k = 1 →
         stalls st !! k = Some s → 0 < s → pending = s.
Proof.
  intros Hcount. revert stages pending.
  induction m as [|m IH]; intros stages pending Hfold k s Hk Hone Hs Hpos;
    [lia|].
  rewrite seq_S, foldl_app in Hfold. simpl in Hfold.
  destruct (tick_fold st nextCycle m 0 eq_refl)
    as (stages0 & pending0 & Hfold0 & _ & Hok0).
  rewrite Hfold0 in Hfold. unfold stageStep in Hfold.
  fold (stageIndexOf st nextCycle m) in Hfold.
  destruct (decide (k = m)) as [->|Hne].
  - assert (pending0 = 0) as ->.
    { destruct Hok0 as [?|(k' & Hk' & Hone' & _)]; [done|].
      pose proof (stageIndexOf_decreasing st nextCycle k' m stalls_nonneg Hk').
      lia. }
    rewrite Hone, Hs in Hfold.
    replace (1 >=? 0) with true in Hfold by done.
    replace (1 <? stageCount st) with true in Hfold
      by (symmetry; by apply Z.ltb_lt).
    replace (s >? 0) with true in Hfold by (symmetry; by apply Z.gtb_lt).
    simpl in Hfold. by injection Hfold as _ <-.
  - assert (pending0 = s) as ->.
    { eapply (IH stages0 pending0 Hfold0 k); (done || lia). }
    destruct (_ && _); [|by injection Hfold as _ <-].
    destruct (stalls st !! m) as [stall|]; [|by injection Hfold as _ <-].
    replace (s =? 0) with false in Hfold by (symmetry; apply Z.eqb_neq; lia).
    rewrite andb_false_r in Hfold. by injection Hfold as _ <-.
Qed.

End StallWindows.

Section StallBounds.

Lemma stallStart_bound (st : SimulationState) (k : nat) (s : Z) :
  run_inv st → (k < length (instructions st))%nat →
  stalls st !! k = Some s →
  2 ≤ stallStart st k ∧ stallStart st k + s ≤ completionCycle st - 3.
Proof.
  intros Hinv Hk Hs. pose proof (inv_stalls_nonneg st Hinv) as Hnn.
  rewrite (completionCycle_started st (inv_nonempty st Hinv)).
  rewrite (totalStallCycles_sum _ _ (inv_keys st Hinv)).
  rewrite (inv_stageCount st Hinv). change DEFAULT_STAGE_COUNT with 5.
  pose proof (calculatePrecedingStalls_mono (stalls st) (S k)
                (length (instructions st)) Hnn ltac:(lia)) as Hmono.
  rewrite calculatePrecedingStalls_S in Hmono. unfold stallAt in Hmono.
  rewrite Hs in Hmono. simpl in Hmono.
  pose proof (calculatePrecedingStalls_nonneg st Hnn k).
  unfold stallStart. lia.
Qed.

Lemma isStallCell_same (st st' : SimulationState) (k : nat) (cycle : Z) :
  stalls st' = stalls st → isStallCell st' k cycle = isStallCell st k cycle.
Proof. unfold isStallCell. by intros ->. Qed.

Lemma stallStart_same (st st' : SimulationState) (k : nat) :
  stalls st' = stalls st → stallStart st' k = stallStart st k.
Proof. unfold stallStart. by intros ->. Qed.

Lemma isStallCell_index (st : SimulationState) (k : nat) (cycle : Z) :
  run_inv st → isStallCell st k cycle = true →
  (k < length (instructions st))%nat.
Proof.
  intros Hinv H. unfold isStallCell in H.
  destruct (stalls st !! k) as [s|] eqn:Hs; [|done].
  apply (inv_keys st Hinv). by eexists.
Qed.

(** A tick with no stall pending, with the mapping it writes and the exact
    stall it leaves pending. *)
Lemma calculateNextState_ticking_exact (st : SimulationState) :
  run_inv st → isRunning st = true → isFinished st = false →
  currentStallCycles st = 0 →
  ∃ stages pending,
    (∀ k, stages !! k
          = if decide (k < length (instructions st))%nat
            then Some (stageOf st (currentCycle st + 1) k) else None)
    ∧ pending_ok st (currentCycle st + 1) (length (instructions st)) pending
    ∧ (∀ k s, (k < length (instructions st))%nat →
         currentCycle st + 1 = stallStart st k →
         stalls st !! k = Some s → 0 < s → pending = s)
    ∧ calculateNextState st
      = {| instructions := instructions st;
           currentCycle :=
             if currentCycle st + 1 >? completionCycle st
             then completionCycle st else currentCycle st + 1;
           maxCycles := maxCycles st;
           isRunning := negb (currentCycle st + 1 >? completionCycle st);
           stageCount := stageCount st;
           instructionStages := stages;
           isFinished := currentCycle st + 1 >? completionCycle st;
           registerUsage := registerUsage st;
           hazards := hazards st;
           forwardings := forwardings st;
           stalls := stalls st;
           currentStallCycles := pending;
           forwardingEnabled := forwardingEnabled st |}.
Proof.
  intros Hinv Hrun Hfin Hstall. unfold calculateNextState.
  rewrite Hrun, Hfin, Hstall. simpl.
  destruct (tick_fold st (currentCycle st + 1) (length (instructions st)) 0
              eq_refl) as (stages & pending & Hfold & Hstages & Hok).
  exists stages, pending. split_and!; [done..| |by rewrite Hfold].
  intros k s Hk Hstart Hs Hpos.
  eapply (tick_fold_trigger st (inv_stalls_nonneg st Hinv)); try done.
  - rewrite (inv_stageCount st Hinv). done.
  - by apply stageIndexOf_one.
Qed.

End StallBounds.


(** ** The started state, field by field *)

Section StartShape.

Lemma start_shape (prev : SimulationState) (submitted : list string)
    (st : SimulationState) :
  submitted ≠ [] → startSimulation prev submitted = Some st →
  instructions st = submitted
  ∧ currentCycle st = 1
  ∧ currentStallCycles st = 0
  ∧ isRunning st = true
  ∧ isFinished st = false
  ∧ stageCount st = 5
  ∧ forwardingEnabled st = forwardingEnabled prev
  ∧ parseAll 0 submitted ∅ = Some (registerUsage st)
  ∧ detectHazards submitted (registerUsage st) (forwardingEnabled prev)
    = Some (hazards st, forwardings st, stalls st)
  ∧ maxCycles st
    = Z.of_nat (length submitted) + 4 + totalStallCycles (stalls st)
  ∧ ∀ k, instructionStages st !! k
         = if decide (k < length submitted)%nat
           then Some (if decide (k = 0%nat) then Some 0 else None)
           else None.
Proof.
  intros Hne H. unfold startSimulation in H.
  destruct submitted as [|inst rest]; [done|].
  simpl Nat.eqb in H. cbv iota in H.
  destruct (parseAll 0 (inst :: rest) ∅) as [usage|] eqn:Hparse;
    simpl in H; [|done].
  destruct (detectHazards (inst :: rest) usage (forwardingEnabled prev))
    as [[[h f] s]|] eqn:Hdetect; simpl in H; [|done].
  injection H as <-. simpl.
  split_and!; try done.
  - change DEFAULT_STAGE_COUNT with 5. lia.
  - intros k.
    pose proof (initialStages_lookup (length (inst :: rest)) 0 ∅ k) as Hl.
    simpl seq in Hl. simpl foldl in Hl. rewrite Hl. simpl length.
    repeat case_decide; try done; lia.
Qed.

End StartShape.

(** ** The stage mapping and the stall windows along a run *)

Section SecondInvariant.

Lemma stages_ok_frame (st st' : SimulationState) :
  stages_ok st → instructions st' = instructions st →
  instructionStages st' = instructionStages st → stages_ok st'.
Proof. unfold stages_ok. by intros H -> ->. Qed.

Lemma stageOf_range (st : SimulationState) (cycle : Z) (k : nat) (stage : Z) :
  stageOf st cycle k = Some stage → 0 ≤ stage < stageCount st.
Proof.
  unfold stageOf.
  destruct (Z.geb_spec (stageIndexOf st cycle k) 0),
    (Z.ltb_spec (stageIndexOf st cycle k) (stageCount st));
    simpl; intros Hst; simplify_eq; lia.
Qed.

Lemma stages_ok_advance (st : SimulationState) :
  run_inv st → stages_ok st → stages_ok (calculateNextState st).
Proof.
  intros Hinv Hok.
  destruct (isRunning st) eqn:Hrun;
    [|by rewrite calculateNextState_idle by by left].
  destruct (isFinished st) eqn:Hfin;
    [by rewrite calculateNextState_idle by by right|].
  pose proof (inv_stall_nonneg st Hinv).
  destruct (decide (0 < currentStallCycles st)) as [Hstall|Hstall].
  - rewrite calculateNextState_stalled by done.
    by apply (stages_ok_frame st).
  - destruct (calculateNextState_ticking st Hrun Hfin ltac:(lia))
      as (stages & pending & Hstages & _ & ->).
    split; simpl.
    + intros k. rewrite Hstages. case_decide.
      * split; [done | by eexists].
      * split; [by intros [? ?] | done].
    + intros k stage Hk. rewrite Hstages in Hk. case_decide; [|done].
      injection Hk as Hk. apply stageOf_range in Hk.
      rewrite (inv_stageCount st Hinv) in Hk. done.
Qed.

Lemma stall_sync_frame (st st' : SimulationState) :
  stall_sync st → stalls st' = stalls st →
  currentCycle st' = currentCycle st →
  currentStallCycles st' = currentStallCycles st → stall_sync st'.
Proof.
  unfold stall_sync. intros [H1 H2] Hs Hc Hp. rewrite Hc, Hp. split.
  - intros Hpos. destruct (H1 Hpos) as [k Hk]. exists k.
    by rewrite (isStallCell_same st st').
  - intros k stall Hcell Hstall.
    rewrite (isStallCell_same st st') in Hcell by done.
    rewrite Hs in Hstall. rewrite (stallStart_same st st') by done.
    by apply H2.
Qed.

Lemma stall_sync_intro (st st' : SimulationState) :
  stalls st' = stalls st →
  (0 < currentStallCycles st' →
   ∃ k, isStallCell st k (currentCycle st' + 1) = true) →
  (∀ k stall,
     isStallCell st k (currentCycle st' + 1) = true →
     stalls st !! k = Some stall →
     currentStallCycles st' = stallStart st k + stall - currentCycle st') →
  stall_sync st'.
Proof.
  intros Hs H1 H2. split.
  - intros Hpos. destruct (H1 Hpos) as [k Hk]. exists k.
    by rewrite (isStallCell_same st st').
  - intros k stall Hcell Hstall.
    rewrite (isStallCell_same st st') in Hcell by done.
    rewrite Hs in Hstall. rewrite (stallStart_same st st') by done.
    by apply H2.
Qed.

Lemma stall_sync_advance (st : SimulationState) :
  run_inv st → stall_sync st → stall_sync (calculateNextState st).
Proof.
  intros Hinv [Hsome Hexact].
  pose proof (inv_stalls_nonneg st Hinv) as Hnn.
  destruct (isRunning st) eqn:Hrun;
    [|by rewrite calculateNextState_idle by by left].
  destruct (isFinished st) eqn:Hfin;
    [by rewrite calculateNextState_idle by by right|].
  pose proof (inv_stall_nonneg st Hinv).
  pose proof (inv_bound st Hinv) as Hb. rewrite Hfin in Hb.
  destruct (decide (0 < currentStallCycles st)) as [Hstall|Hstall].
  - (* a stall tick: the same window, one cycle further *)
    rewrite calculateNextState_stalled by done.
    destruct (Hsome Hstall) as [k Hk].
    pose proof Hk as Hcell. apply isStallCell_true in Hcell
      as (s & Hs & Hpos & Hlo & Hhi).
    pose proof (Hexact k s Hk Hs) as Hp.
    apply (stall_sync_intro st); simpl; [done|..].
    + intros Hpos'. exists k. apply isStallCell_true.
      exists s. split_and!; (done || lia).
    + intros k' s' Hk' Hs'.
      apply isStallCell_true in Hk' as (s2 & Hs2 & ? & ? & ?).
      rewrite Hs' in Hs2. injection Hs2 as <-.
      destruct (Nat.lt_trichotomy k k') as [Hlt|[<-|Hlt]].
      * pose proof (stallStart_spacing st Hnn k k' s Hlt Hs). lia.
      * rewrite Hs in Hs'. injection Hs' as <-. lia.
      * pose proof (stallStart_spacing st Hnn k' k s' Hlt Hs'). lia.
  - (* a tick that moves the instructions *)
    assert (currentStallCycles st = 0) as Hzero by lia.
    destruct (calculateNextState_ticking_exact st Hinv Hrun Hfin Hzero)
      as (stages & pending & _ & Hok & Htrigger & ->).
    assert (∀ k, isStallCell st k (currentCycle st + 1) = false) as Hnone.
    { intros k. destruct (isStallCell st k (currentCycle st + 1)) eqn:E;
        [|done].
      pose proof E as Hcell. apply isStallCell_true in Hcell
        as (s & Hs & ? & ? & ?).
      pose proof (Hexact k s E Hs). lia. }
    assert (currentCycle st + 1 > completionCycle st → pending = 0)
      as Hdone.
    { intros Hgt. destruct Hok as [?|(k & Hk & Hone & Hs & Hpos)]; [done|].
      apply stageIndexOf_one in Hone.
      pose proof (stallStart_bound st k pending Hinv Hk Hs). lia. }
    destruct (Z.gtb_spec (currentCycle st + 1) (completionCycle st))
      as [Hgt|Hle]; apply (stall_sync_intro st); simpl; try done.
    + rewrite Hdone by lia. lia.
    + intros k s Hk Hs.
      pose proof (isStallCell_index st k _ Hinv Hk) as Hlt.
      apply isStallCell_true in Hk as (s2 & Hs2 & Hpos & Hlo & Hhi).
      pose proof (stallStart_bound st k s2 Hinv Hlt Hs2). lia.
    + intros Hpos.
      destruct Hok as [?|(k & Hk & Hone & Hs & _)]; [lia|].
      apply stageIndexOf_one in Hone.
      exists k. apply isStallCell_true.
      exists pending. split_and!; (done || lia).
    + intros k s Hk Hs.
      pose proof (isStallCell_index st k _ Hinv Hk) as Hlt.
      apply isStallCell_true in Hk as (s2 & Hs2 & Hpos & Hlo & Hhi).
      rewrite Hs in Hs2. injection Hs2 as <-.
      assert (currentCycle st + 1 = stallStart st k) as Hstart.
      { destruct (decide (currentCycle st + 1 = stallStart st k)); [done|].
        assert (isStallCell st k (currentCycle st + 1) = true) as Hc.
        { apply isStallCell_true. exists s. split_and!; (done || lia). }
        by rewrite Hnone in Hc. }
      rewrite (Htrigger k s Hlt Hstart Hs Hpos). lia.
Qed.

Lemma started_inv2 (st : SimulationState) :
  started st → stages_ok st ∧ stall_sync st.
Proof.
  induction 1 as [prev submitted st Hne Hstart
                 |st Hst [IH1 IH2]|st Hst [IH1 IH2]|st Hst [IH1 IH2]
                 |enabled st Hst [IH1 IH2]].
  - pose proof (start_inv prev submitted st Hne Hstart) as Hinv.
    destruct (start_shape prev submitted st Hne Hstart)
      as (Hi & Hc & Hp & _ & _ & _ & _ & _ & _ & _ & Hstages).
    split.
    + split.
      * intros k. rewrite Hstages, Hi. case_decide.
        -- split; [done | by eexists].
        -- split; [by intros [? ?] | done].
      * intros k stage Hk. rewrite Hstages in Hk.
        repeat case_decide; simplify_eq; lia.
    + apply (stall_sync_intro st); [done|..]; rewrite Hc, Hp; [lia|].
      intros k s Hk Hs.
      pose proof (isStallCell_index st k _ Hinv Hk) as Hlt.
      apply isStallCell_true in Hk as (s2 & Hs2 & ? & ? & ?).
      pose proof (stallStart_bound st k s2 Hinv Hlt Hs2). lia.
  - pose proof (started_inv st Hst) as Hinv.
    split; [by apply stages_ok_advance | by apply stall_sync_advance].
  - split.
    + apply (stages_ok_frame st); [done|..];
        unfold pauseSimulation; by destruct (isRunning st).
    + apply (stall_sync_frame st); [done|..];
        unfold pauseSimulation; by destruct (isRunning st).
  - split.
    + apply (stages_ok_frame st); [done|..];
        unfold resumeSimulation; by destruct (_ && _).
    + apply (stall_sync_frame st); [done|..];
        unfold resumeSimulation; by destruct (_ && _).
  - split.
    + by apply (stages_ok_frame st).
    + by apply (stall_sync_frame st).
Qed.

End SecondInvariant.


(** ** Ticks of an uninterrupted run *)

Section RunLemmas.

Lemma calculateNextState_keeps_analysis (st : SimulationState) :
  registerUsage (calculateNextState st) = registerUsage st
  ∧ hazards (calculateNextState st) = hazards st
  ∧ forwardings (calculateNextState st) = forwardings st
  ∧ maxCycles (calculateNextState st) = maxCycles st
  ∧ forwardingEnabled (calculateNextState st) = forwardingEnabled st.
Proof.
  unfold calculateNextState.
  destruct (negb (isRunning st) || isFinished st); [done|].
  destruct (currentStallCycles st >? 0); [done|].
  by destruct (foldl _ _ _).
Qed.

(** The decoded instructions stay those of the program. *)
Lemma started_decoded (st : SimulationState) :
  started st → parseAll 0 (instructions st) ∅ = Some (registerUsage st).
Proof.
  induction 1 as [prev submitted st Hne Hstart| st _ IH | st _ IH | st _ IH
                 | enabled st _ IH].
  - destruct (start_shape prev submitted st Hne Hstart)
      as (-> & _ & _ & _ & _ & _ & _ & ? & _). done.
  - destruct (calculateNextState_keeps st) as (-> & _ & _).
    by destruct (calculateNextState_keeps_analysis st) as (-> & _).
  - unfold pauseSimulation. by destruct (isRunning st).
  - unfold resumeSimulation. by destruct (_ && _).
  - done.
Qed.

(** The policy the analysis of a started run was made under, with what it
    says of each instruction. *)
Lemma started_analysis (st : SimulationState) :
  started st →
  ∃ policy, ∀ i, (i < length (instructions st))%nat →
    ∃ cur hz edges v,
      registerUsage st !! i = Some cur
      ∧ hazards st !! i = Some hz ∧ forwardings st !! i = Some edges
      ∧ stalls st !! i = Some v
      ∧ expected_at policy (registerUsage st) i cur
        = (Some hz, Some edges, Some v).
Proof.
  intros Hstarted.
  pose proof (parseAll_covers _ _ (started_decoded st Hstarted)) as Hcov.
  destruct (inv_analysis st (started_inv st Hstarted)) as [policy Hres].
  exists policy. intros i Hi.
  destruct (detectHazards_lookup policy (registerUsage st) (instructions st)
              Hcov) as (h & f & s & Hres' & Hat).
  rewrite Hres in Hres'. injection Hres' as <- <- <-.
  destruct (Hcov i Hi) as [cur Hcur]. specialize (Hat i cur Hi Hcur).
  destruct (expected_at_is_Some policy (registerUsage st) i cur)
    as (hz & edges & v & E).
  rewrite E in Hat. injection Hat as Hh Hf Hs.
  by exists cur, hz, edges, v.
Qed.

(** A forwarding edge anywhere means the whole run has no stall. *)
Lemma started_edges_no_stalls (st : SimulationState) (i : nat)
    (edges : list ForwardingInfo) :
  started st → forwardings st !! i = Some edges → edges ≠ [] →
  ∀ k v, stalls st !! k = Some v → v = 0.
Proof.
  intros Hstarted Hedges Hne k v Hv.
  pose proof (started_inv st Hstarted) as Hinv.
  destruct (started_analysis st Hstarted) as [policy Han].
  assert (i < length (instructions st))%nat as Hi.
  { destruct (decide (i < length (instructions st))%nat); [done|].
    destruct (inv_analysis st Hinv) as [p Hres].
    pose proof (parseAll_covers _ _ (started_decoded st Hstarted)) as Hcov.
    destruct (detectHazards_keys _ _ _ _ _ _ Hcov Hres) as (_ & Hf & _).
    apply Hf. by eexists. }
  destruct (Han i Hi) as (cur & hz & e & v' & _ & _ & He & _ & E).
  rewrite Hedges in He. injection He as <-.
  destruct (expected_at_facts _ _ _ _ _ _ _ E) as (_ & _ & _ & _ & Hp & _).
  destruct (Hp Hne) as [-> _].
  assert (k < length (instructions st))%nat as Hk.
  { apply (inv_keys st Hinv). by eexists. }
  destruct (Han k Hk) as (cur2 & hz2 & e2 & v2 & _ & _ & _ & Hv2 & E2).
  rewrite Hv in Hv2. injection Hv2 as <-.
  destruct (expected_at_facts _ _ _ _ _ _ _ E2) as (_ & _ & _ & Hz & _).
  destruct (decide (v = 0)) as [|Hnz]; [done|]. by destruct (Hz Hnz).
Qed.

Lemma calculatePrecedingStalls_zero (stalls : gmap nat Z) (k : nat) :
  (∀ j v, stalls !! j = Some v → v = 0) →
  calculatePrecedingStalls stalls k = 0.
Proof.
  intros Hz. induction k as [|k IH]; [done|].
  rewrite calculatePrecedingStalls_S, IH. unfold stallAt.
  destruct (stalls !! k) as [v|] eqn:E; [|done]. simpl.
  rewrite (Hz k v E). done.
Qed.

End RunLemmas.


Lemma stalling_run_started : started stalling_run.
Proof.
  apply (started_start (setForwardingEnabled false initialState) add_then_use);
    [done|].
  vm_compute. reflexivity.
Qed.

Lemma forwarded_run_started : started forwarded_run.
Proof.
  apply (started_start initialState add_then_use); [done|].
  vm_compute. reflexivity.
Qed.

(** X6: an uninterrupted run advances the cycle counter by exactly one per
    tick and ends.  From a running, unfinished state of a started run with
    [d = completionCycle - currentCycle], each of the first [d] ticks adds
    one cycle and leaves the run running; tick [d + 1] finishes it, with the
    cycle at the completion cycle and the running flag cleared, and further
    ticks change nothing. *)
Theorem run_takes_one_cycle_per_tick (st : SimulationState) (k : nat) :
  started st → isRunning st = true → isFinished st = false →
  (Z.of_nat k ≤ completionCycle st - currentCycle st →
   currentCycle (advance_n k st) = currentCycle st + Z.of_nat k
   ∧ isRunning (advance_n k st) = true
   ∧ isFinished (advance_n k st) = false)
  ∧ (completionCycle st - currentCycle st < Z.of_nat k →
     isFinished (advance_n k st) = true
     ∧ isRunning (advance_n k st) = false
     ∧ currentCycle (advance_n k st) = completionCycle st).
Proof. apply run_cycles. Qed.

Lemma run_takes_one_cycle_per_tick_witness :
  (Z.of_nat 7 ≤ completionCycle stalling_run - currentCycle stalling_run →
   currentCycle (advance_n 7 stalling_run)
   = currentCycle stalling_run + Z.of_nat 7
   ∧ isRunning (advance_n 7 stalling_run) = true
   ∧ isFinished (advance_n 7 stalling_run) = false)
  ∧ (completionCycle stalling_run - currentCycle stalling_run < Z.of_nat 7 →
     isFinished (advance_n 7 stalling_run) = true
     ∧ isRunning (advance_n 7 stalling_run) = false
     ∧ currentCycle (advance_n 7 stalling_run)
       = completionCycle stalling_run).
Proof.
  apply (run_takes_one_cycle_per_tick stalling_run 7).
  - apply stalling_run_started.
  - vm_compute. reflexivity.
  - vm_compute. reflexivity.
Defined.

(** X7: the tick that finishes a run empties the pipeline.  In the finished
    state every instruction has the stage entry "not in pipeline" and no
    stall is pending. *)
Theorem finished_pipeline_is_empty (st : SimulationState) :
  started st → isRunning st = true → isFinished st = false →
  isFinished (calculateNextState st) = true →
  currentStallCycles (calculateNextState st) = 0
  ∧ ∀ k, instructionStages (calculateNextState st) !! k
         = if decide (k < length (instructions st))%nat
           then Some None else None.
Proof.
  intros Hstarted Hrun Hfin Hdone.
  pose proof (started_inv st Hstarted) as Hinv.
  pose proof (inv_stall_nonneg st Hinv).
  pose proof (inv_stalls_nonneg st Hinv) as Hnn.
  destruct (decide (0 < currentStallCycles st)) as [Hstall|Hstall].
  { rewrite calculateNextState_stalled in Hdone by done.
    simpl in Hdone. congruence. }
  destruct (calculateNextState_ticking st Hrun Hfin ltac:(lia))
    as (stages & pending & Hstages & Hok & E).
  rewrite E in *. simpl in *.
  destruct (Z.gtb_spec (currentCycle st + 1) (completionCycle st))
    as [Hgt|]; [|done].
  split.
  - destruct Hok as [?|(k & Hk & Hone & Hs & Hpos)]; [done|].
    apply stageIndexOf_one in Hone.
    pose proof (stallStart_bound st k pending Hinv Hk Hs). lia.
  - intros k. rewrite Hstages. case_decide as Hk; [|done].
    do 2 f_equal. unfold stageOf.
    assert (stageCount st ≤ stageIndexOf st (currentCycle st + 1) k) as Hout.
    { unfold stageIndexOf.
      rewrite completionCycle_started in Hgt by apply Hinv.
      rewrite (totalStallCycles_sum _ _ (inv_keys st Hinv)) in Hgt.
      pose proof (calculatePrecedingStalls_mono (stalls st) k
                    (length (instructions st)) Hnn ltac:(lia)).
      lia. }
    destruct (Z.ltb_spec (stageIndexOf st (currentCycle st + 1) k)
                (stageCount st)); [lia|].
    by rewrite andb_false_r.
Qed.

Lemma finished_pipeline_is_empty_witness :
  currentStallCycles (calculateNextState (advance_n 4 single_run)) = 0
  ∧ ∀ k, instructionStages (calculateNextState (advance_n 4 single_run)) !! k
         = if decide (k < length (instructions (advance_n 4 single_run)))%nat
           then Some None else None.
Proof.
  apply (finished_pipeline_is_empty (advance_n 4 single_run)).
  - apply started_advance_n, single_run_started.
  - vm_compute. reflexivity.
  - vm_compute. reflexivity.
  - vm_compute. reflexivity.
Defined.

(** X8: in every state of a started run the stage mapping has an entry for
    each instruction and for no other index, and each non-null entry is the
    index of one of the five stages. *)
Theorem stage_mapping_well_formed (st : SimulationState) :
  started st →
  (∀ k, is_Some (instructionStages st !! k)
        ↔ (k < length (instructions st))%nat)
  ∧ ∀ k stage, instructionStages st !! k = Some (Some stage) →
      0 ≤ stage < 5 ∧ is_Some (STAGE_NAMES !! Z.to_nat stage).
Proof.
  intros Hstarted. destruct (started_inv2 st Hstarted) as [[Hkeys Hrange] _].
  split; [exact Hkeys|]. intros k stage Hk.
  pose proof (Hrange k stage Hk) as Hr. split; [done|].
  apply lookup_lt_is_Some. simpl. lia.
Qed.

Lemma stage_mapping_well_formed_witness :
  (∀ k, is_Some (instructionStages stalled_run !! k)
        ↔ (k < length (instructions stalled_run))%nat)
  ∧ ∀ k stage, instructionStages stalled_run !! k = Some (Some stage) →
      0 ≤ stage < 5 ∧ is_Some (STAGE_NAMES !! Z.to_nat stage).
Proof.
  apply (stage_mapping_well_formed stalled_run). apply stalled_run_started.
Defined.

(** X9: the clock and the table agree on stalls.  In every state of a
    started run a stall is pending exactly when some row of the table has
    a stall cell in the next column, and then the pending count is the
    number of consecutive stall cells that row has from the next column
    on. *)
Theorem stall_ticks_match_stall_cells (st : SimulationState) :
  started st →
  (0 < currentStallCycles st
   ↔ ∃ k, isStallCell st k (currentCycle st + 1) = true)
  ∧ ∀ k (j : nat),
      isStallCell st k (currentCycle st + 1) = true →
      (isStallCell st k (currentCycle st + 1 + Z.of_nat j) = true
       ↔ Z.of_nat j < currentStallCycles st).
Proof.
  intros Hstarted. destruct (started_inv2 st Hstarted) as [_ [Hsome Hexact]].
  split.
  - split; [exact Hsome|]. intros [k Hk].
    pose proof Hk as Hcell.
    apply isStallCell_true in Hcell as (s & Hs & ? & ? & ?).
    rewrite (Hexact k s Hk Hs). lia.
  - intros k j Hk. pose proof Hk as Hcell.
    apply isStallCell_true in Hcell as (s & Hs & ? & ? & ?).
    rewrite (Hexact k s Hk Hs), isStallCell_true. split.
    + intros (s' & Hs' & ? & ? & ?). rewrite Hs in Hs'.
      injection Hs' as <-. lia.
    + intros Hj. exists s. split_and!; (done || lia).
Qed.

Lemma stall_ticks_match_stall_cells_witness :
  (0 < currentStallCycles stalled_run
   ↔ ∃ k, isStallCell stalled_run k (currentCycle stalled_run + 1) = true)
  ∧ ∀ k (j : nat),
      isStallCell stalled_run k (currentCycle stalled_run + 1) = true →
      (isStallCell stalled_run k
         (currentCycle stalled_run + 1 + Z.of_nat j) = true
       ↔ Z.of_nat j < currentStallCycles stalled_run).
Proof.
  apply (stall_ticks_match_stall_cells stalled_run).
  apply stalled_run_started.
Defined.


(** ** Counting cells *)

Section Counting.

Lemma filter_none {A : Type} (f : A → bool) (l : list A) :
  (∀ x, x ∈ l → f x = false) → List.filter f l = [].
Proof.
  induction l as [|a l IH]; intros H; [done|]. simpl.
  rewrite (H a) by (by left). apply IH. intros x Hx. apply H. by right.
Qed.

Lemma filter_all {A : Type} (f : A → bool) (l : list A) :
  (∀ x, x ∈ l → f x = true) → List.filter f l = l.
Proof.
  induction l as [|a l IH]; intros H; [done|]. simpl.
  rewrite (H a) by (by left). f_equal. apply IH.
  intros x Hx. apply H. by right.
Qed.

(** The columns [1..M] hold exactly [s] numbers of the window
    [(a, a + s]] when the window fits. *)
Lemma count_window (a s M : Z) :
  0 ≤ a → 0 ≤ s → a + s ≤ M →
  length (List.filter (λ c, (c >? a) && (c <=? a + s)) (seqZ 1 M))
  = Z.to_nat s.
Proof.
  intros Ha Hs HM.
  replace M with (a + (s + (M - a - s))) by lia.
  rewrite seqZ_app by lia. rewrite seqZ_app by lia.
  rewrite !List.filter_app, !length_app.
  rewrite filter_none, filter_all, filter_none; simpl.
  - rewrite length_seqZ. lia.
  - intros x Hx. apply elem_of_seqZ in Hx.
    apply andb_false_iff. right. apply Z.leb_gt. lia.
  - intros x Hx. apply elem_of_seqZ in Hx.
    apply andb_true_iff. split; [apply Z.gtb_lt | apply Z.leb_le]; lia.
  - intros x Hx. apply elem_of_seqZ in Hx.
    apply andb_false_iff. left.
    rewrite Z.gtb_ltb. apply Z.ltb_ge. lia.
Qed.

Lemma cycleNumbers_seqZ (st : SimulationState) :
  cycleNumbers st = seqZ 1 (if maxCycles st >? 0 then maxCycles st else 0).
Proof. reflexivity. Qed.

Lemma length_values_filter_zero {A : Type} (f : A → bool) (m : gmap nat A) :
  length (List.filter f (snd <$> map_to_list m)) = 0%nat
  ↔ ∀ k x, m !! k = Some x → f x = false.
Proof.
  split.
  - intros Hlen k x Hkx. destruct (f x) eqn:Hfx; [|done].
    assert (In x (List.filter f (snd <$> map_to_list m))) as Hin.
    { apply filter_In. split; [|done]. apply list_elem_of_In.
      apply list_elem_of_fmap. exists (k, x). split; [done|].
      by apply elem_of_map_to_list. }
    destruct (List.filter f (snd <$> map_to_list m)); [done|].
    simpl in Hlen. lia.
  - intros H. rewrite filter_none; [done|]. intros x Hx.
    apply list_elem_of_fmap in Hx as ([k y] & -> & Hky).
    apply elem_of_map_to_list in Hky. by apply (H k).
Qed.

End Counting.

(** ** Runs without stalls *)

Section StallFree.

Lemma advance_n_keeps (n : nat) (st : SimulationState) :
  instructions (advance_n n st) = instructions st
  ∧ stageCount (advance_n n st) = stageCount st
  ∧ stalls (advance_n n st) = stalls st.
Proof.
  induction n as [|n (Hi & Hc & Hs)]; [done|]. rewrite advance_n_S.
  destruct (calculateNextState_keeps (advance_n n st)) as (-> & -> & ->).
  done.
Qed.

Lemma no_stalls_no_cells (st : SimulationState) (k : nat) (cycle : Z) :
  (∀ j v, stalls st !! j = Some v → v = 0) →
  isStallCell st k cycle = false.
Proof.
  intros Hz. unfold isStallCell.
  destruct (stalls st !! k) as [v|] eqn:E; [|done].
  by rewrite (Hz k v E).
Qed.

Lemma no_stalls_nothing_pending (st : SimulationState) :
  started st → (∀ j v, stalls st !! j = Some v → v = 0) →
  currentStallCycles st = 0.
Proof.
  intros Hstarted Hz.
  pose proof (inv_stall_nonneg st (started_inv st Hstarted)).
  destruct (started_inv2 st Hstarted) as [_ [Hsome _]].
  destruct (decide (0 < currentStallCycles st)) as [Hpos|]; [|lia].
  destruct (Hsome Hpos) as [k Hk].
  by rewrite (no_stalls_no_cells st k _ Hz) in Hk.
Qed.

Lemma forwarding_stalls_zero (submitted : list string)
    (usage : gmap nat RegisterUsage) (h : gmap nat HazardInfo)
    (f : gmap nat (list ForwardingInfo)) (s : gmap nat Z) :
  covers usage (length submitted) →
  detectHazards submitted usage true = Some (h, f, s) →
  ∀ k v, s !! k = Some v → v = 0.
Proof.
  intros Hcov Hres k v Hv.
  destruct (detectHazards_keys _ _ _ _ _ _ Hcov Hres) as (_ & _ & Hkeys).
  assert (k < length submitted)%nat as Hk by (apply Hkeys; by eexists).
  destruct (detectHazards_lookup true usage submitted Hcov)
    as (h' & f' & s' & Hres' & Hat).
  rewrite Hres in Hres'. injection Hres' as <- <- <-.
  destruct (Hcov k Hk) as [cur Hcur]. specialize (Hat k cur Hk Hcur).
  destruct (expected_at_is_Some true usage k cur) as (hz & e & v' & E).
  rewrite E in Hat. injection Hat as _ _ Hs. rewrite Hv in Hs.
  injection Hs as <-.
  destruct (expected_at_facts _ _ _ _ _ _ _ E) as (_ & _ & _ & Hz & _).
  destruct (decide (v = 0)) as [|Hnz]; [done|]. by destruct (Hz Hnz).
Qed.

(** What a tick that moves the instructions writes into the mapping. *)
Lemma moving_tick_stages (st : SimulationState) (k : nat) :
  run_inv st → isRunning st = true → isFinished st = false →
  currentStallCycles st = 0 → (k < length (instructions st))%nat →
  instructionStages (calculateNextState st) !! k
  = Some (stageOf st (currentCycle st + 1) k).
Proof.
  intros Hinv Hrun Hfin Hzero Hk.
  destruct (calculateNextState_ticking st Hrun Hfin Hzero)
    as (stages & pending & Hstages & _ & ->). simpl.
  rewrite Hstages. by rewrite decide_True.
Qed.

End StallFree.


(** X10: a run started with forwarding enabled never stalls and is the
    textbook pipeline.  It is [n + 4] cycles long; after [m < n + 4] ticks
    the cycle is [m + 1], no stall is pending, the run is not finished, and
    instruction [k] is in stage [m - k] when that lies in 0..4 and out of
    the pipeline otherwise. *)
Theorem forwarding_run_never_stalls (prev : SimulationState)
    (submitted : list string) (st0 : SimulationState) :
  submitted ≠ [] → forwardingEnabled prev = true →
  startSimulation prev submitted = Some st0 →
  maxCycles st0 = Z.of_nat (length submitted) + 4
  ∧ ∀ m : nat, Z.of_nat m < Z.of_nat (length submitted) + 4 →
      currentCycle (advance_n m st0) = Z.of_nat m + 1
      ∧ currentStallCycles (advance_n m st0) = 0
      ∧ isFinished (advance_n m st0) = false
      ∧ ∀ k, (k < length submitted)%nat →
          instructionStages (advance_n m st0) !! k
          = Some (if decide (0 ≤ Z.of_nat m - Z.of_nat k < 5)
                  then Some (Z.of_nat m - Z.of_nat k) else None).
Proof.
  intros Hne Hpolicy Hstart.
  pose proof (started_start prev submitted st0 Hne Hstart) as Hstarted.
  pose proof (started_inv st0 Hstarted) as Hinv.
  destruct (start_shape prev submitted st0 Hne Hstart)
    as (Hi & Hc & Hp & Hrun & Hfin & Hcount & _ & Hparse & Hdetect & Hmax
        & Hstages).
  rewrite Hpolicy in Hdetect.
  pose proof (forwarding_stalls_zero _ _ _ _ _ (parseAll_covers _ _ Hparse)
                Hdetect) as Hzero.
  assert (totalStallCycles (stalls st0) = 0) as Htotal.
  { rewrite (totalStallCycles_sum _ _ (inv_keys st0 Hinv)).
    by apply calculatePrecedingStalls_zero. }
  assert (completionCycle st0 = Z.of_nat (length submitted) + 4) as Hcc.
  { rewrite <- (inv_maxCycles st0 Hinv), Hmax, Htotal. lia. }
  split; [rewrite Hmax, Htotal; lia|].
  intros m Hm.
  destruct (run_cycles st0 m Hstarted Hrun Hfin) as [Hle _].
  destruct (Hle ltac:(lia)) as (Hcm & Hrm & Hfm).
  pose proof (started_advance_n m st0 Hstarted) as Hsm.
  destruct (advance_n_keeps m st0) as (Him & Hcountm & Hsm').
  split_and!; [lia| |done|].
  { apply (no_stalls_nothing_pending _ Hsm). by rewrite Hsm'. }
  intros k Hk. destruct m as [|m].
  - unfold advance_n. simpl. rewrite Hstages, decide_True by done.
    f_equal. repeat case_decide; (done || lia || (f_equal; lia)).
  - rewrite advance_n_S.
    pose proof (started_advance_n m st0 Hstarted) as Hsp.
    destruct (run_cycles st0 m Hstarted Hrun Hfin) as [Hle' _].
    destruct (Hle' ltac:(lia)) as (Hcp & Hrp & Hfp).
    destruct (advance_n_keeps m st0) as (Hip & Hcountp & Hstp).
    rewrite moving_tick_stages; try done.
    + f_equal. unfold stageOf, stageIndexOf.
      rewrite Hstp, Hcountp, Hcount, Hcp, Hc.
      rewrite (calculatePrecedingStalls_zero _ k Hzero).
      destruct (Z.geb_spec (1 + Z.of_nat m + 1 - Z.of_nat k - 1 - 0) 0),
        (Z.ltb_spec (1 + Z.of_nat m + 1 - Z.of_nat k - 1 - 0) 5);
        simpl; case_decide; (done || lia || (f_equal; lia)).
    + by apply started_inv.
    + apply (no_stalls_nothing_pending _ Hsp). by rewrite Hstp.
    + by rewrite Hip, Hi.
Qed.

Lemma forwarding_run_never_stalls_witness :
  maxCycles forwarded_run = Z.of_nat (length add_then_use) + 4
  ∧ ∀ m : nat, Z.of_nat m < Z.of_nat (length add_then_use) + 4 →
      currentCycle (advance_n m forwarded_run) = Z.of_nat m + 1
      ∧ currentStallCycles (advance_n m forwarded_run) = 0
      ∧ isFinished (advance_n m forwarded_run) = false
      ∧ ∀ k, (k < length add_then_use)%nat →
          instructionStages (advance_n m forwarded_run) !! k
          = Some (if decide (0 ≤ Z.of_nat m - Z.of_nat k < 5)
                  then Some (Z.of_nat m - Z.of_nat k) else None).
Proof.
  apply (forwarding_run_never_stalls initialState add_then_use forwarded_run).
  - discriminate.
  - reflexivity.
  - vm_compute. reflexivity.
Defined.

(** X11: the stall cells of the table.  In a started run the row of an
    instruction has exactly as many stall cells among the displayed columns
    as its stall count; no column has a stall cell in two rows; and every
    stall cell lies in a displayed column, no earlier than column 3 and at
    least three columns before the last. *)
Theorem stall_cells_layout (st : SimulationState) :
  started st →
  (∀ k s, stalls st !! k = Some s →
     length (List.filter (isStallCell st k) (cycleNumbers st)) = Z.to_nat s)
  ∧ (∀ k1 k2 cycle,
       isStallCell st k1 cycle = true → isStallCell st k2 cycle = true →
       k1 = k2)
  ∧ (∀ k cycle, isStallCell st k cycle = true →
       3 ≤ cycle ≤ maxCycles st - 3 ∧ cycle ∈ cycleNumbers st).
Proof.
  intros Hstarted. pose proof (started_inv st Hstarted) as Hinv.
  pose proof (inv_stalls_nonneg st Hinv) as Hnn.
  pose proof (inv_maxCycles st Hinv) as Hmax.
  assert (∀ k s, stalls st !! k = Some s →
            2 ≤ stallStart st k ∧ stallStart st k + s ≤ maxCycles st - 3)
    as Hbound.
  { intros k s Hs. rewrite Hmax. apply stallStart_bound; [done| |done].
    apply (inv_keys st Hinv). by eexists. }
  split_and!.
  - intros k s Hs. destruct (Hbound k s Hs) as [Hlo Hhi].
    pose proof (Hnn k s Hs) as Hs0.
    rewrite cycleNumbers_seqZ.
    replace (maxCycles st >? 0) with true by (symmetry; apply Z.gtb_lt; lia).
    rewrite (filter_ext (isStallCell st k)
               (λ c, (c >? stallStart st k) && (c <=? stallStart st k + s))).
    + apply count_window; lia.
    + intros c. unfold isStallCell. rewrite Hs. fold (stallStart st k).
      destruct (Z.leb_spec s 0); [|done].
      assert (s = 0) as -> by lia.
      destruct (Z.gtb_spec c (stallStart st k)),
        (Z.leb_spec c (stallStart st k + 0)); simpl; (done || lia).
  - intros k1 k2 cycle. by apply isStallCell_unique.
  - intros k cycle Hcell.
    apply isStallCell_true in Hcell as (s & Hs & ? & ? & ?).
    destruct (Hbound k s Hs). split; [lia|].
    rewrite cycleNumbers_seqZ.
    replace (maxCycles st >? 0) with true by (symmetry; apply Z.gtb_lt; lia).
    apply elem_of_seqZ. lia.
Qed.

Lemma stall_cells_layout_witness :
  (∀ k s, stalls stalled_run !! k = Some s →
     length (List.filter (isStallCell stalled_run k)
                         (cycleNumbers stalled_run)) = Z.to_nat s)
  ∧ (∀ k1 k2 cycle,
       isStallCell stalled_run k1 cycle = true →
       isStallCell stalled_run k2 cycle = true → k1 = k2)
  ∧ (∀ k cycle, isStallCell stalled_run k cycle = true →
       3 ≤ cycle ≤ maxCycles stalled_run - 3
       ∧ cycle ∈ cycleNumbers stalled_run).
Proof.
  apply (stall_cells_layout stalled_run). apply stalled_run_started.
Defined.


Section TableLemmas.

Lemma started_keys (st : SimulationState) :
  started st →
  keys_below (hazards st) (length (instructions st))
  ∧ keys_below (forwardings st) (length (instructions st)).
Proof.
  intros Hstarted.
  destruct (inv_analysis st (started_inv st Hstarted)) as [policy Hres].
  pose proof (parseAll_covers _ _ (started_decoded st Hstarted)) as Hcov.
  by destruct (detectHazards_keys _ _ _ _ _ _ Hcov Hres) as (? & ? & _).
Qed.

(** In a started run an instruction with forwarding edges has a RAW
    record. *)
Lemma started_edges_raw (st : SimulationState) (k : nat)
    (edges : list ForwardingInfo) :
  started st → forwardings st !! k = Some edges → edges ≠ [] →
  ∃ hz, hazards st !! k = Some hz ∧ hazard_type hz = RAW.
Proof.
  intros Hstarted Hedges Hne.
  destruct (started_keys st Hstarted) as [_ Hkeys].
  assert (k < length (instructions st))%nat as Hk
    by (apply Hkeys; by eexists).
  destruct (started_analysis st Hstarted) as [policy Han].
  destruct (Han k Hk) as (cur & hz & e & v & _ & Hh & He & _ & E).
  rewrite Hedges in He. injection He as <-.
  destruct (expected_at_facts _ _ _ _ _ _ _ E) as (_ & _ & _ & _ & Hp & _).
  exists hz. split; [done|]. by destruct (Hp Hne).
Qed.

Lemma no_cell_when_nothing_pending (st : SimulationState) (k : nat) :
  started st → currentStallCycles st = 0 →
  isStallCell st k (currentCycle st + 1) = false.
Proof.
  intros Hstarted Hzero.
  destruct (started_inv2 st Hstarted) as [_ [_ Hexact]].
  destruct (isStallCell st k (currentCycle st + 1)) eqn:E; [|done].
  pose proof E as Hcell.
  apply isStallCell_true in Hcell as (s & Hs & ? & ? & ?).
  pose proof (Hexact k s E Hs). lia.
Qed.

End TableLemmas.

(** X12: after a tick that moves the instructions, the current column of
    the table shows what the clock computed.  For a running, unfinished
    state of a started run with no stall pending whose tick does not finish
    the run, the cell of each instruction in the new current column is
    marked current, is no stall cell, shows the stage the new stage mapping
    holds for that instruction, and is empty exactly when the mapping says
    "not in pipeline". *)
Theorem table_agrees_with_clock (st : SimulationState) (k : nat) :
  started st → isRunning st = true → isFinished st = false →
  currentStallCycles st = 0 →
  isFinished (calculateNextState st) = false →
  (k < length (instructions st))%nat →
  let st' := calculateNextState st in
  let cell := getCellState st' k (currentCycle st') in
  isCurrentCell cell = true
  ∧ cell_type cell ≠ CellStall
  ∧ ∃ entry,
      instructionStages st' !! k = Some entry
      ∧ cell_stage cell = (entry ≫= λ stage, STAGES !! Z.to_nat stage)
      ∧ (entry = None ↔ cell_type cell = CellEmpty).
Proof.
  intros Hstarted Hrun Hfin Hzero Hgo Hk st' cell.
  pose proof (started_inv st Hstarted) as Hinv.
  pose proof (moving_tick_stages st k Hinv Hrun Hfin Hzero Hk) as Hentry.
  destruct (calculateNextState_keeps st) as (_ & _ & Hstalls).
  assert (currentCycle st' = currentCycle st + 1) as Hcycle.
  { destruct (Z.le_gt_cases (completionCycle st) (currentCycle st))
      as [Hle|Hlt].
    - pose proof (run_inv_le st Hinv).
      destruct (tick_finish st Hinv Hrun Hfin ltac:(lia)) as (Hf & _).
      subst st'. congruence.
    - by destruct (tick_progress st Hinv Hrun Hfin Hlt) as (? & _). }
  assert (isStallCell st' k (currentCycle st') = false) as Hcell.
  { rewrite (isStallCell_same st st') by done. rewrite Hcycle.
    by apply no_cell_when_nothing_pending. }
  fold st' in Hentry, Hstalls. clearbody st'.
  subst cell. unfold getCellState. rewrite Hcell, Hentry.
  unfold getForwardingInfo, isInCurrentColumn.
  rewrite Hstalls, Hcycle, Z.eqb_refl.
  unfold stageOf, stageIndexOf. rewrite (inv_stageCount st Hinv).
  change DEFAULT_STAGE_COUNT with 5. change (Z.of_nat (length STAGES)) with 5.
  set (e := currentCycle st + 1 - Z.of_nat k - 1
            - calculatePrecedingStalls (stalls st) k).
  destruct (Z.geb_spec e 0), (Z.ltb_spec e 5); cbn [andb].
  - assert (∃ name, STAGES !! Z.to_nat e = Some name) as [name Hname].
    { apply lookup_lt_is_Some. simpl. lia. }
    destruct (forwardings st' !! k) as [info|];
      [destruct (Nat.eqb (length info) 0); [|destruct (e =? 2)]|];
      cbn [isCurrentCell cell_type cell_stage]; rewrite orb_true_r;
      (split_and!; [done..|]); eexists; (split_and!; [done..|split; done]).
  - assert ((e =? 2) = false) as -> by (apply Z.eqb_neq; lia).
    destruct (forwardings st' !! k) as [info|];
      [destruct (Nat.eqb (length info) 0)|];
      cbn [isCurrentCell cell_type cell_stage]; rewrite orb_true_r;
      (split_and!; [done..|]); eexists; (split_and!; [done..|split; done]).
  - assert ((e =? 2) = false) as -> by (apply Z.eqb_neq; lia).
    destruct (forwardings st' !! k) as [info|];
      [destruct (Nat.eqb (length info) 0)|];
      cbn [isCurrentCell cell_type cell_stage]; rewrite orb_true_r;
      (split_and!; [done..|]); eexists; (split_and!; [done..|split; done]).
  - lia.
Qed.

Lemma table_agrees_with_clock_witness :
  let st' := calculateNextState stalling_run in
  let cell := getCellState st' 1 (currentCycle st') in
  isCurrentCell cell = true
  ∧ cell_type cell ≠ CellStall
  ∧ ∃ entry,
      instructionStages st' !! 1%nat = Some entry
      ∧ cell_stage cell = (entry ≫= λ stage, STAGES !! Z.to_nat stage)
      ∧ (entry = None ↔ cell_type cell = CellEmpty).
Proof.
  apply (table_agrees_with_clock stalling_run 1).
  - apply stalling_run_started.
  - vm_compute. reflexivity.
  - vm_compute. reflexivity.
  - vm_compute. reflexivity.
  - vm_compute. reflexivity.
  - vm_compute. lia.
Defined.

(** X13: forwarding cells.  In a started run a cell of type "forwarding" is
    always the EX stage, sits in column [k + 3] of row [k], carries the
    forwarding edges of that instruction, whose hazard record is RAW; and a
    table with such a cell has no stall cell anywhere. *)
Theorem forwarding_cells (st : SimulationState) (k : nat) (cycle : Z) :
  started st →
  cell_type (getCellState st k cycle) = CellForwarding →
  cell_stage (getCellState st k cycle) = Some EX
  ∧ cycle = Z.of_nat k + 3
  ∧ (∃ hz edges,
       hazards st !! k = Some hz ∧ hazard_type hz = RAW
       ∧ forwardings st !! k = Some edges ∧ edges ≠ []
       ∧ forwardingInfo (getCellState st k cycle) = Some edges)
  ∧ ∀ k' cycle', isStallCell st k' cycle' = false.
Proof.
  intros Hstarted. unfold getCellState.
  destruct (isStallCell st k cycle); [done|].
  destruct (getForwardingInfo st k cycle) as [info|] eqn:Hfw;
    [|by destruct (_ && _)].
  intros _. cbn [cell_stage forwardingInfo].
  unfold getForwardingInfo in Hfw.
  destruct (forwardings st !! k) as [edges|] eqn:Hedges; [|done].
  destruct (Nat.eqb_spec (length edges) 0) as [|Hlen]; [done|].
  destruct (Z.eqb_spec (cycle - Z.of_nat k - 1
                        - calculatePrecedingStalls (stalls st) k) 2)
    as [He|]; [|done].
  injection Hfw as <-.
  assert (edges ≠ []) as Hne by (by intros ->).
  pose proof (started_edges_no_stalls st k edges Hstarted Hedges Hne) as Hz.
  rewrite (calculatePrecedingStalls_zero _ k Hz) in *.
  split_and!.
  - replace (cycle - Z.of_nat k - 1 - 0) with 2 by lia. done.
  - lia.
  - destruct (started_edges_raw st k edges Hstarted Hedges Hne)
      as (hz & ? & ?).
    by exists hz, edges.
  - intros k' cycle'. by apply no_stalls_no_cells.
Qed.

Lemma forwarding_cells_witness :
  cell_stage (getCellState forwarded_run 1 4) = Some EX
  ∧ 4 = Z.of_nat 1 + 3
  ∧ (∃ hz edges,
       hazards forwarded_run !! 1%nat = Some hz ∧ hazard_type hz = RAW
       ∧ forwardings forwarded_run !! 1%nat = Some edges ∧ edges ≠ []
       ∧ forwardingInfo (getCellState forwarded_run 1 4) = Some edges)
  ∧ ∀ k' cycle', isStallCell forwarded_run k' cycle' = false.
Proof.
  apply (forwarding_cells forwarded_run 1 4).
  - apply forwarded_run_started.
  - vm_compute. reflexivity.
Defined.

(** X14: the figures of the input panel.  In a started run the panel counts
    as started; a run with no hazard has no stall cycle and no instruction
    with forwarding edges; stall cycles and forwarding edges never occur in
    the same run; and the stall figure is the number of cycles the run takes
    beyond [n + 4]. *)
Theorem panel_figures (st : SimulationState) :
  started st →
  hasStarted st = true
  ∧ (hazardCount st = 0%nat →
     stallCount st = 0 ∧ forwardingCount st = 0%nat)
  ∧ (forwardingCount st ≠ 0%nat → stallCount st = 0)
  ∧ stallCount st
    = maxCycles st - (Z.of_nat (length (instructions st)) + 4).
Proof.
  intros Hstarted. pose proof (started_inv st Hstarted) as Hinv.
  destruct (started_analysis st Hstarted) as [policy Han].
  destruct (started_keys st Hstarted) as [Hhk Hfk].
  assert ((∀ j v, stalls st !! j = Some v → v = 0) → stallCount st = 0)
    as Hsum.
  { intros Hz. unfold stallCount.
    rewrite (totalStallCycles_sum _ _ (inv_keys st Hinv)).
    by apply calculatePrecedingStalls_zero. }
  split_and!.
  - unfold hasStarted. apply Z.gtb_lt.
    pose proof (inv_cycle_pos st Hinv). lia.
  - intros Hcount. unfold hazardCount in Hcount.
    pose proof (proj1 (length_values_filter_zero _ _) Hcount) as Hnone.
    assert (∀ i, (i < length (instructions st))%nat →
              stalls st !! i = Some 0 ∧ forwardings st !! i = Some [])
      as Hall.
    { intros i Hi.
      destruct (Han i Hi) as (cur & hz & edges & v & _ & Hh & Hf & Hs & E).
      pose proof (Hnone i hz Hh) as Htype.
      apply negb_false_iff, bool_decide_eq_true in Htype.
      destruct (expected_at_facts _ _ _ _ _ _ _ E)
        as (_ & _ & _ & Hv & He & _).
      assert (v = 0) as ->.
      { destruct (decide (v = 0)) as [|Hnz]; [done|].
        destruct (Hv Hnz) as [_ ?]. congruence. }
      assert (edges = []) as ->.
      { destruct edges as [|e edges]; [done|].
        destruct (He ltac:(done)) as [_ ?]. congruence. }
      done. }
    split.
    + apply Hsum. intros j v Hv.
      assert (j < length (instructions st))%nat as Hj
        by (apply (inv_keys st Hinv); by eexists).
      destruct (Hall j Hj) as [Hs _]. congruence.
    + unfold forwardingCount. apply length_values_filter_zero.
      intros j x Hx.
      assert (j < length (instructions st))%nat as Hj
        by (apply Hfk; by eexists).
      destruct (Hall j Hj) as [_ Hf]. rewrite Hx in Hf. by injection Hf as ->.
  - intros Hcount. apply Hsum. unfold forwardingCount in Hcount.
    destruct (List.filter _ _) as [|edges rest] eqn:Hfilter; [done|].
    assert (In edges (List.filter
                        (λ f : list ForwardingInfo, (0 <? length f)%nat)
                        (snd <$> map_to_list (forwardings st)))) as Hin.
    { rewrite Hfilter. by left. }
    apply filter_In in Hin as [Hin Hlen].
    apply list_elem_of_In, list_elem_of_fmap in Hin as ([i y] & -> & Hiy).
    apply elem_of_map_to_list in Hiy. simpl in Hlen.
    apply (started_edges_no_stalls st i y Hstarted Hiy).
    intros ->. done.
  - unfold stallCount. rewrite (inv_maxCycles st Hinv).
    rewrite (completionCycle_started st (inv_nonempty st Hinv)).
    rewrite (inv_stageCount st Hinv). change DEFAULT_STAGE_COUNT with 5. lia.
Qed.

Lemma panel_figures_witness :
  hasStarted stalled_run = true
  ∧ (hazardCount stalled_run = 0%nat →
     stallCount stalled_run = 0 ∧ forwardingCount stalled_run = 0%nat)
  ∧ (forwardingCount stalled_run ≠ 0%nat → stallCount stalled_run = 0)
  ∧ stallCount stalled_run
    = maxCycles stalled_run
      - (Z.of_nat (length (instructions stalled_run)) + 4).
Proof.
  apply (panel_figures stalled_run). apply stalled_run_started.
Defined.


(** ** The controller's operations together *)

Section Controller.

Lemma stageStep_policy (enabled : bool) (st : SimulationState) (cycle : Z)
    (acc : gmap nat (option Z) * Z) (index : nat) :
  stageStep (setForwardingEnabled enabled st) cycle acc index
  = stageStep st cycle acc index.
Proof. reflexivity. Qed.

Lemma foldl_ext_fun {A B : Type} (f g : A → B → A) (l : list B) (a : A) :
  (∀ x y, f x y = g x y) → foldl f a l = foldl g a l.
Proof.
  intros H. revert a. induction l as [|y l IH]; intros a; [done|].
  simpl. by rewrite H, IH.
Qed.

Lemma advance_n_paused (n : nat) (st : SimulationState) :
  isRunning st = false → advance_n n st = st.
Proof.
  intros Hrun. induction n as [|n IH]; [done|].
  rewrite advance_n_S, IH. apply calculateNextState_idle. by left.
Qed.

Lemma resume_pause (st : SimulationState) :
  isRunning st = true → isFinished st = false → currentCycle st > 0 →
  resumeSimulation (pauseSimulation st) = st.
Proof.
  intros Hrun Hfin Hcycle. unfold pauseSimulation. rewrite Hrun.
  unfold resumeSimulation. simpl. rewrite Hfin.
  replace (currentCycle st >? 0) with true by (symmetry; apply Z.gtb_lt; lia).
  simpl. destruct st. simpl in *. by subst.
Qed.

Lemma pause_resume (st : SimulationState) :
  isRunning st = false → isFinished st = false → currentCycle st > 0 →
  pauseSimulation (resumeSimulation st) = st.
Proof.
  intros Hrun Hfin Hcycle. unfold resumeSimulation. rewrite Hrun, Hfin.
  replace (currentCycle st >? 0) with true by (symmetry; apply Z.gtb_lt; lia).
  simpl. unfold pauseSimulation. simpl. destruct st. simpl in *. by subst.
Qed.

End Controller.

(** X15: pausing freezes the run and resuming continues it unchanged.
    Ticks on a paused state change nothing; for a running, unfinished state
    with a positive cycle, pause followed by resume gives the state back, so
    that any number of ticks while paused followed by a resume and further
    ticks gives what the uninterrupted run gives; and whenever the
    play/pause button is shown, pressing it twice gives the state back. *)
Theorem pause_resume_round_trip (st : SimulationState) :
  (∀ n, advance_n n (pauseSimulation st) = pauseSimulation st)
  ∧ (isRunning st = true → isFinished st = false → currentCycle st > 0 →
     resumeSimulation (pauseSimulation st) = st
     ∧ ∀ n m,
         advance_n m (resumeSimulation (advance_n n (pauseSimulation st)))
         = advance_n m st)
  ∧ (canPauseResume st = true →
     let st' := handlePauseResume (isRunning st) st in
     handlePauseResume (isRunning st') st' = st).
Proof.
  assert (∀ n, advance_n n (pauseSimulation st) = pauseSimulation st)
    as Hfrozen.
  { intros n. apply advance_n_paused. unfold pauseSimulation.
    by destruct (isRunning st) eqn:E. }
  split_and!; [done| |].
  - intros Hrun Hfin Hcycle. split; [by apply resume_pause|].
    intros n m. by rewrite Hfrozen, resume_pause.
  - unfold canPauseResume, hasStarted. intros H.
    apply andb_prop in H as [Hc Hf].
    apply Z.gtb_lt in Hc. apply negb_true_iff in Hf.
    cbv zeta. unfold handlePauseResume at 2 3.
    destruct (isRunning st) eqn:Hrun.
    + unfold handlePauseResume.
      replace (isRunning (pauseSimulation st)) with false
        by (unfold pauseSimulation; by rewrite Hrun).
      apply resume_pause; (done || lia).
    + unfold handlePauseResume.
      replace (isRunning (resumeSimulation st)) with true.
      * apply pause_resume; (done || lia).
      * unfold resumeSimulation. rewrite Hrun, Hf.
        by replace (currentCycle st >? 0) with true
          by (symmetry; apply Z.gtb_lt; lia).
Qed.

Lemma pause_resume_round_trip_witness :
  resumeSimulation (pauseSimulation stalled_run) = stalled_run
  ∧ (∀ n m,
       advance_n m (resumeSimulation (advance_n n (pauseSimulation stalled_run)))
       = advance_n m stalled_run)
  ∧ (let st' := handlePauseResume (isRunning stalled_run) stalled_run in
     handlePauseResume (isRunning st') st' = stalled_run).
Proof.
  destruct (pause_resume_round_trip stalled_run) as (_ & Hresume & Htoggle).
  assert (isRunning stalled_run = true) as Hrun by (vm_compute; reflexivity).
  assert (isFinished stalled_run = false) as Hfin
    by (vm_compute; reflexivity).
  assert (currentCycle stalled_run > 0) as Hcycle
    by (vm_compute; reflexivity).
  assert (canPauseResume stalled_run = true) as Hshown
    by (vm_compute; reflexivity).
  destruct (Hresume Hrun Hfin Hcycle) as [Hback Hsame].
  split; [exact Hback|]. split; [exact Hsame|]. exact (Htoggle Hshown).
Defined.

(** X16: switching the forwarding policy touches nothing but the flag.  It
    commutes with a tick, with pause and with resume, and leaves the
    hazards, forwarding edges, stalls and length of the current run as they
    are: the run goes on under the analysis made at its start. *)
Theorem policy_switch_commutes (enabled : bool) (st : SimulationState) :
  calculateNextState (setForwardingEnabled enabled st)
  = setForwardingEnabled enabled (calculateNextState st)
  ∧ pauseSimulation (setForwardingEnabled enabled st)
    = setForwardingEnabled enabled (pauseSimulation st)
  ∧ resumeSimulation (setForwardingEnabled enabled st)
    = setForwardingEnabled enabled (resumeSimulation st)
  ∧ hazards (setForwardingEnabled enabled st) = hazards st
  ∧ forwardings (setForwardingEnabled enabled st) = forwardings st
  ∧ stalls (setForwardingEnabled enabled st) = stalls st
  ∧ maxCycles (setForwardingEnabled enabled st) = maxCycles st
  ∧ forwardingEnabled (setForwardingEnabled enabled st) = enabled.
Proof.
  split_and!; try done.
  - unfold calculateNextState. simpl.
    destruct (negb (isRunning st) || isFinished st); [done|].
    destruct (currentStallCycles st >? 0); [done|].
    rewrite (foldl_ext_fun _ (stageStep st (currentCycle st + 1)))
      by (intros; apply stageStep_policy).
    by destruct (foldl _ _ _).
  - unfold pauseSimulation. simpl. by destruct (isRunning st).
  - unfold resumeSimulation. simpl. by destruct (_ && _).
Qed.

(** X17: reset, and start with an empty program, return to the not-started
    state and keep only the policy.  After it a tick and a resume change
    nothing, the panel counts the run as not started, and the table has no
    column. *)
Theorem reset_discards_the_run (st : SimulationState) :
  startSimulation st [] = Some (resetSimulation st)
  ∧ resetSimulation st
    = setForwardingEnabled (forwardingEnabled st) initialState
  ∧ calculateNextState (resetSimulation st) = resetSimulation st
  ∧ resumeSimulation (resetSimulation st) = resetSimulation st
  ∧ pauseSimulation (resetSimulation st) = resetSimulation st
  ∧ resetSimulation (resetSimulation st) = resetSimulation st
  ∧ hasStarted (resetSimulation st) = false
  ∧ cycleNumbers (resetSimulation st) = [].
Proof. split_and!; reflexivity. Qed.

(** X18: every non-empty program of eight-digit hexadecimal words starts a
    run.  The new state is in cycle 1, running, unfinished, with no stall
    pending; it holds the program and the policy of the previous state; its
    length is [n + 4] plus the stall cycles; the first instruction is in
    stage 0 and no other instruction is in the pipeline. *)
Theorem validated_program_starts (prev : SimulationState)
    (submitted : list string) :
  submitted ≠ [] → Forall (λ inst, isHex8 inst = true) submitted →
  ∃ st,
    startSimulation prev submitted = Some st
    ∧ started st
    ∧ instructions st = submitted
    ∧ currentCycle st = 1
    ∧ currentStallCycles st = 0
    ∧ isRunning st = true
    ∧ isFinished st = false
    ∧ forwardingEnabled st = forwardingEnabled prev
    ∧ maxCycles st
      = Z.of_nat (length submitted) + 4 + totalStallCycles (stalls st)
    ∧ ∀ k, instructionStages st !! k
           = if decide (k < length submitted)%nat
             then Some (if decide (k = 0%nat) then Some 0 else None)
             else None.
Proof.
  intros Hne Hhex.
  destruct (startSimulation_total prev submitted Hhex) as [st Hst].
  exists st. split; [done|]. split; [by eapply started_start|].
  destruct (start_shape prev submitted st Hne Hst)
    as (? & ? & ? & ? & ? & _ & ? & _ & _ & ? & ?).
  by split_and!.
Qed.

Lemma validated_program_starts_witness :
  ∃ st,
    startSimulation initialState add_then_use = Some st
    ∧ started st
    ∧ instructions st = add_then_use
    ∧ currentCycle st = 1
    ∧ currentStallCycles st = 0
    ∧ isRunning st = true
    ∧ isFinished st = false
    ∧ forwardingEnabled st = forwardingEnabled initialState
    ∧ maxCycles st
      = Z.of_nat (length add_then_use) + 4 + totalStallCycles (stalls st)
    ∧ ∀ k, instructionStages st !! k
           = if decide (k < length add_then_use)%nat
             then Some (if decide (k = 0%nat) then Some 0 else None)
             else None.
Proof.
  apply (validated_program_starts initialState add_then_use).
  - discriminate.
  - repeat constructor.
Defined.


(** ** The instruction form *)

Section Form.

Lemma append_cons (c : ascii) (a b : string) :
  String c a +:+ b = String c (a +:+ b).
Proof. reflexivity. Qed.

Lemma hexDigit_not_blank (c : ascii) :
  is_Some (hexDigit c) → isWhiteSpace c = false ∧ Ascii.eqb c "010" = false.
Proof.
  destruct c as [[] [] [] [] [] [] [] []]; vm_compute;
    (by intros [? ?] || done).
Qed.

Lemma trimStart_blank (s : string) :
  allWhiteSpace s = true → trimStart s = EmptyString.
Proof.
  induction s as [|c s IH]; [done|]. simpl.
  intros [Hc Hs]%andb_prop. rewrite Hc. by apply IH.
Qed.

Lemma plain_cons (c : ascii) (s : string) :
  plain (String c s)
  ↔ (isWhiteSpace c = false ∧ Ascii.eqb c "010" = false) ∧ plain s.
Proof.
  unfold plain. simpl. split.
  - intros H. split; [apply H; by left|]. intros c' Hc'. apply H. by right.
  - intros [Hc Hs] c' [<-|Hc']; [done|by apply Hs].
Qed.

Lemma allHex_plain (s : string) : allHex s = true → plain s.
Proof.
  induction s as [|c s IH]; [by intros _ c []|]. simpl.
  intros [Hc Hs]%andb_prop. apply plain_cons. split; [|by apply IH].
  apply hexDigit_not_blank. by apply bool_decide_eq_true in Hc.
Qed.

Lemma trimEnd_plain (s : string) : plain s → trimEnd s = s.
Proof.
  induction s as [|c s IH]; [done|].
  intros [[Hc _] Hs]%plain_cons. simpl. rewrite (IH Hs).
  destruct s; [by rewrite Hc|done].
Qed.

Lemma trim_plain (s : string) : plain s → trim s = s.
Proof.
  intros Hs. unfold trim.
  assert (trimStart s = s) as ->; [|by apply trimEnd_plain].
  destruct s as [|c s]; [done|].
  apply plain_cons in Hs as [[Hc _] _]. simpl. by rewrite Hc.
Qed.

Lemma strSplit_plain (s : string) : plain s → strSplit "010" s = [s].
Proof.
  induction s as [|c s IH]; [done|].
  intros [[_ Hc] Hs]%plain_cons. simpl. by rewrite Hc, (IH Hs).
Qed.

Lemma strSplit_line (s rest : string) :
  plain s →
  strSplit "010" (s +:+ String "010" rest) = s :: strSplit "010" rest.
Proof.
  induction s as [|c s IH]; [done|].
  intros [[_ Hc] Hs]%plain_cons. rewrite append_cons. simpl.
  by rewrite Hc, (IH Hs).
Qed.

Lemma trimEnd_line (s rest : string) :
  plain s → trimEnd rest ≠ EmptyString →
  trimEnd (s +:+ String "010" rest) = s +:+ String "010" (trimEnd rest).
Proof.
  intros Hs Hrest. induction s as [|c s IH].
  - change (EmptyString +:+ ?x) with x. simpl.
    by destruct (trimEnd rest).
  - apply plain_cons in Hs as [_ Hs]. rewrite !append_cons. simpl.
    rewrite (IH Hs). by destruct s.
Qed.

Lemma isHex8_plain (s : string) :
  isHex8 s = true → plain s ∧ s ≠ EmptyString.
Proof.
  unfold isHex8. intros [Hlen Hhex]%andb_prop. split; [by apply allHex_plain|].
  by intros ->.
Qed.

Lemma lines_join (instrs : list string) :
  instrs ≠ [] → Forall (λ inst, isHex8 inst = true) instrs →
  let text := String.concat (String "010" EmptyString) instrs in
  trim text = text ∧ text ≠ EmptyString ∧ strSplit "010" text = instrs.
Proof.
  intros Hne Hhex. cbv zeta.
  induction Hhex as [|inst rest Hinst Hrest IH]; [done|].
  apply isHex8_plain in Hinst as [Hplain Hnonempty].
  destruct rest as [|next rest].
  { simpl. split_and!; [by apply trim_plain|done|by apply strSplit_plain]. }
  destruct IH as (Htrim & Hne' & Hsplit); [done|].
  set (tail := String.concat (String "010" EmptyString) (next :: rest)) in *.
  change (String.concat (String "010" EmptyString) (inst :: next :: rest))
    with (inst +:+ String "010" tail).
  assert (trimEnd tail = tail) as Hend.
  { unfold trim in Htrim.
    assert (trimStart tail = tail) as Hstart; [|by rewrite Hstart in Htrim].
    inversion Hrest as [|? ? Hnext _]; subst.
    apply isHex8_plain in Hnext as [Hp Hn].
    destruct next as [|c next]; [done|].
    apply plain_cons in Hp as [[Hc _] _].
    subst tail. destruct rest; simpl; by rewrite ?append_cons; simpl; rewrite Hc. }
  split_and!.
  - unfold trim.
    assert (trimStart (inst +:+ String "010" tail) = inst +:+ String "010" tail)
      as ->.
    { destruct inst as [|c inst]; [done|].
      apply plain_cons in Hplain as [[Hc _] _].
      rewrite append_cons. simpl. by rewrite Hc. }
    rewrite trimEnd_line; [by rewrite Hend|done|by rewrite Hend].
  - by destruct inst.
  - by rewrite strSplit_line, Hsplit.
Qed.

Lemma filter_length_zero {A : Type} (f : A → bool) (l : list A) :
  (0 <? length (List.filter f l))%nat = false → Forall (λ x, f x = false) l.
Proof.
  induction l as [|x l IH]; [by constructor|]. simpl.
  destruct (f x) eqn:Hx; [done|]. intros H. constructor; [done|by apply IH].
Qed.

Lemma handleSubmit_Submitted (inputText : string) (instrs : list string) :
  handleSubmit inputText = Submitted instrs →
  instrs ≠ [] ∧ Forall (λ inst, isHex8 inst = true) instrs.
Proof.
  unfold handleSubmit.
  set (current := List.filter _ (trim <$> _)).
  destruct (Nat.eqb (length current) 0) eqn:Hlen; [done|].
  destruct (0 <? length (List.filter _ current))%nat eqn:Hinvalid; [done|].
  intros [= <-]. split.
  - intros Hnil. by rewrite Hnil in Hlen.
  - apply filter_length_zero in Hinvalid.
    eapply Forall_impl; [exact Hinvalid|]. simpl.
    intros inst H. by apply negb_false_iff in H.
Qed.

End Form.

(** X19: the form only submits programs that the simulator can start.  When
    [handleSubmit] hands instructions on, the list is not empty, each of
    them is eight hexadecimal digits, and [startSimulation] on it returns a
    started run from any previous state. *)
Theorem submit_accepts_only_valid_programs (inputText : string)
    (instrs : list string) :
  handleSubmit inputText = Submitted instrs →
  instrs ≠ []
  ∧ Forall (λ inst, isHex8 inst = true) instrs
  ∧ ∀ prev, ∃ st, startSimulation prev instrs = Some st ∧ started st.
Proof.
  intros [Hne Hhex]%handleSubmit_Submitted. split_and!; [done..|].
  intros prev. destruct (startSimulation_total prev instrs Hhex) as [st Hst].
  exists st. split; [done|]. by eapply started_start.
Qed.

Lemma submit_accepts_only_valid_programs_witness :
  let text :=
    String " " (String " " ("00a63820"
      +:+ String "010" (String "010" ("01254020 " +:+ String "010" "")))) in
  let instrs := ["00a63820"; "01254020"]%string in
  instrs ≠ []
  ∧ Forall (λ inst, isHex8 inst = true) instrs
  ∧ ∀ prev, ∃ st, startSimulation prev instrs = Some st ∧ started st.
Proof.
  cbv zeta.
  apply (submit_accepts_only_valid_programs
           (String " " (String " " ("00a63820"
              +:+ String "010" (String "010" ("01254020 " +:+ String "010" "")))))).
  vm_compute. reflexivity.
Defined.

(** X20: a program written one word to a line is submitted as it is.  For a
    non-empty list of eight-digit hexadecimal words, [handleSubmit] on the
    words joined by line feeds hands on exactly that list. *)
Theorem submit_round_trip (instrs : list string) :
  instrs ≠ [] → Forall (λ inst, isHex8 inst = true) instrs →
  handleSubmit (String.concat (String "010" EmptyString) instrs)
  = Submitted instrs.
Proof.
  intros Hne Hhex.
  destruct (lines_join instrs Hne Hhex) as (Htrim & _ & Hsplit).
  unfold handleSubmit. rewrite Htrim, Hsplit.
  assert (trim <$> instrs = instrs) as ->.
  { clear Hne Htrim Hsplit. induction Hhex as [|inst rest Hinst _ IH]; [done|].
    rewrite fmap_cons, IH. f_equal. apply trim_plain.
    by apply isHex8_plain in Hinst as [? _]. }
  assert (List.filter (λ line, (0 <? String.length line)%nat) instrs = instrs)
    as ->.
  { clear Hne Htrim Hsplit. induction Hhex as [|inst rest Hinst _ IH]; [done|].
    simpl. rewrite IH.
    apply isHex8_plain in Hinst as [_ Hn]. by destruct inst. }
  assert (List.filter (λ inst, negb (HEX_REGEX_test inst)) instrs = [])
    as ->.
  { clear Hne Htrim Hsplit. induction Hhex as [|inst rest Hinst _ IH]; [done|].
    simpl. rewrite IH. unfold HEX_REGEX_test.
    unfold isHex8 in Hinst. by rewrite Hinst. }
  by destruct instrs.
Qed.

Lemma submit_round_trip_witness :
  handleSubmit (String.concat (String "010" EmptyString) add_then_use)
  = Submitted add_then_use.
Proof.
  apply (submit_round_trip add_then_use).
  - discriminate.
  - repeat constructor.
Defined.

(** X21: a text of blank characters only is never submitted: [handleSubmit]
    shows the message that asks for at least one instruction. *)
Theorem submit_rejects_blank_text (inputText : string) :
  allWhiteSpace inputText = true →
  handleSubmit inputText
  = SubmitError
      "Please enter at least one MIPS instruction in hexadecimal format.".
Proof.
  intros Hblank. unfold handleSubmit, trim.
  by rewrite (trimStart_blank _ Hblank).
Qed.

Lemma submit_rejects_blank_text_witness :
  handleSubmit (String " " (String "010" (String "009" EmptyString)))
  = SubmitError
      "Please enter at least one MIPS instruction in hexadecimal format.".
Proof.
  apply (submit_rejects_blank_text
           (String " " (String "010" (String "009" EmptyString)))).
  vm_compute. reflexivity.
Defined.

